(** * brieftop: the resource aggregation and classification engine

    A shallow embedding of [internal/monitor/process.go] (both revisions
    present in the repository) and the properties stated about it,
    followed by the rest of the monitor object, package [config], the
    configuration [main] builds, and the display of package [ui]: input
    handling, cursor and scrolling, colours and glyphs, text drawing and
    the process list.

    Conventions of the embedding.
    - [int32] process identifiers are [Z]; no arithmetic is done on them.
    - [uint64] byte counts are [Z] in the range [0, 2^64); every addition
      goes through [uint64] and wraps around.
    - [int] screen coordinates and indices are [Z]; an addition or
      subtraction that could leave the 64-bit range goes through [int].
    - [float64] is Rocq's primitive binary64 [float]; [+], [/], [<] and
      [>=] are the IEEE operations the Go code executes.
    - Go strings are byte strings: [string], with [len] = [String.length]
      and [s[:n]] = [substring 0 n s]; a string literal holds the UTF-8
      bytes of its characters.
    - Go maps are [gmap]; every [*ProcessInfo] reachable from
      [allProcesses] is identified with the key it is stored under, so
      the heap of process records is the map itself and a write through a
      pointer is an [alter] at that key.
    - A call that does not return is [None]: an aggregation pass that
      needs a deeper stack than it is given, and, in the display, a
      slice or an index out of range.
    - What is written to the screen is the list of the calls made, in
      order.
    - The two loops of the display run as goroutines; their events are
      taken one at a time here.
    - [time.Time] stamps ([LastUpdate]) are not represented: nothing in
      the engine reads them. *)

From Stdlib Require Import ZArith Floats Lia.
From stdpp Require Import gmap strings list fin_maps sorting relations.

Set Warnings "-inexact-float".
Local Open Scope Z_scope.

(** ** Go primitives *)

Module Go.

(** Conversion to [uint64]: wrap-around modulo 2^64. *)
Definition uint64 (z : Z) : Z := z mod 2 ^ 64.

(** [float64(x)] for an unsigned integer [x]: round to nearest, ties to
    even. *)
Definition float64 (z : Z) : float :=
  SF2Prim (binary_normalize prec emax z 0 false).

(** [len(s)] *)
Definition len (s : string) : nat := String.length s.

(** [s[:n]]; the callers guard [n <= len(s)]. *)
Definition slice_to (s : string) (n : nat) : string := String.substring 0 n s.

(** [x >= y] and [x > y] on [float64]. *)
Definition fge (x y : float) : bool := (y <=? x)%float.
Definition fgt (x y : float) : bool := (y <? x)%float.

(** [m[k]] on a [map[K]bool]: the zero value [false] when the key is
    absent. *)
Definition index_bool `{Countable K} (m : gmap K bool) (k : K) : bool :=
  default false (m !! k).

(** [int]: a 64-bit integer in two's complement; the result of an
    addition or subtraction is reduced into the range. *)
Definition int (z : Z) : Z := (z + 2 ^ 63) mod 2 ^ 64 - 2 ^ 63.

(** [int(f)] for a [float64] [f]: the fraction is discarded. Where the
    result is not representable (a NaN, an infinity, a magnitude that is
    too large) the language leaves the value to the implementation; it
    is [oob f] here. *)
Definition int_of_float64 (oob : float → Z) (f : float) : Z :=
  match Prim2SF f with
  | S754_zero _ => 0
  | S754_finite s m e =>
    let magnitude := Z.shiftl (Z.pos m) e in
    let v := if s then - magnitude else magnitude in
    if (- 2 ^ 63 <=? v) && (v <? 2 ^ 63) then v else oob f
  | _ => oob f
  end.

(** [s[:n]], which panics unless [0 <= n <= len(s)]; [None] is the
    panic. *)
Definition slice_to_checked (s : string) (n : Z) : option string :=
  if (0 <=? n) && (n <=? Z.of_nat (len s)) then Some (slice_to s (Z.to_nat n))
  else None.

(** [l[i]], which panics unless [0 <= i < len(l)]. *)
Definition index {A} (l : list A) (i : Z) : option A :=
  if i <? 0 then None else l !! Z.to_nat i.

(** The bytes of a string. *)
Definition bytes (s : string) : list Z :=
  (λ a, Z.of_N (Ascii.N_of_ascii a)) <$> String.list_ascii_of_string s.

(** [utf8.RuneError] *)
Definition RuneError : Z := 65533.

Definition within (lo hi b : Z) : bool := (lo <=? b) && (b <=? hi).

(** The length of the UTF-8 sequence a leading byte announces, with the
    range its second byte must lie in; [None] for a byte that starts no
    multi-byte sequence. *)
Inductive SequenceLength := TwoBytes | ThreeBytes | FourBytes.

Definition leading (b0 : Z) : option (SequenceLength * Z * Z) :=
  if within 194 223 b0 then Some (TwoBytes, 128, 191)
  else if b0 =? 224 then Some (ThreeBytes, 160, 191)
  else if within 225 236 b0 then Some (ThreeBytes, 128, 191)
  else if b0 =? 237 then Some (ThreeBytes, 128, 159)
  else if within 238 239 b0 then Some (ThreeBytes, 128, 191)
  else if b0 =? 240 then Some (FourBytes, 144, 191)
  else if within 241 243 b0 then Some (FourBytes, 128, 191)
  else if b0 =? 244 then Some (FourBytes, 128, 143)
  else None.

(** The decoding loop of [[]rune(s)]: one rune for each well-formed
    sequence, and [RuneError] for a single byte where none starts. *)
Fixpoint decodeRunes (bs : list Z) : list Z :=
  match bs with
  | [] => []
  | b0 :: rest =>
    if b0 <? 128 then b0 :: decodeRunes rest
    else
      match leading b0, rest with
      | Some (TwoBytes, lo, hi), b1 :: rest1 =>
        if within lo hi b1
        then Z.lor (Z.shiftl (Z.land b0 31) 6) (Z.land b1 63) :: decodeRunes rest1
        else RuneError :: decodeRunes rest
      | Some (ThreeBytes, lo, hi), b1 :: b2 :: rest2 =>
        if within lo hi b1 && within 128 191 b2
        then Z.lor (Z.shiftl (Z.land b0 15) 12)
               (Z.lor (Z.shiftl (Z.land b1 63) 6) (Z.land b2 63)) :: decodeRunes rest2
        else RuneError :: decodeRunes rest
      | Some (FourBytes, lo, hi), b1 :: b2 :: b3 :: rest3 =>
        if within lo hi b1 && within 128 191 b2 && within 128 191 b3
        then Z.lor (Z.shiftl (Z.land b0 7) 18)
               (Z.lor (Z.shiftl (Z.land b1 63) 12)
                  (Z.lor (Z.shiftl (Z.land b2 63) 6) (Z.land b3 63))) :: decodeRunes rest3
        else RuneError :: decodeRunes rest
      | _, _ => RuneError :: decodeRunes rest
      end
  end.

(** [[]rune(s)] *)
Definition runes (s : string) : list Z := decodeRunes (bytes s).

End Go.

(** ** Data model *)

Record ChildInfo := mkChildInfo {
  ChildPID : Z;
  ChildName : string;
  ChildCPUPercent : float;
  ChildMemoryBytes : Z;
  IsThread : bool
}.

Record ProcessInfo := mkProcessInfo {
  PID : Z;
  PPID : Z;
  Name : string;
  CPUPercent : float;
  MemoryBytes : Z;
  MemoryMB : float;
  Children : list ChildInfo;
  Expanded : bool;
  ParentCPU : float;
  ParentMemory : Z
}.

(** Field writes. *)
Definition set_MemoryMB (v : float) (i : ProcessInfo) : ProcessInfo :=
  mkProcessInfo (PID i) (PPID i) (Name i) (CPUPercent i) (MemoryBytes i) v
    (Children i) (Expanded i) (ParentCPU i) (ParentMemory i).
Definition set_CPUPercent (v : float) (i : ProcessInfo) : ProcessInfo :=
  mkProcessInfo (PID i) (PPID i) (Name i) v (MemoryBytes i) (MemoryMB i)
    (Children i) (Expanded i) (ParentCPU i) (ParentMemory i).
Definition set_MemoryBytes (v : Z) (i : ProcessInfo) : ProcessInfo :=
  mkProcessInfo (PID i) (PPID i) (Name i) (CPUPercent i) v (MemoryMB i)
    (Children i) (Expanded i) (ParentCPU i) (ParentMemory i).
Definition set_Children (v : list ChildInfo) (i : ProcessInfo) : ProcessInfo :=
  mkProcessInfo (PID i) (PPID i) (Name i) (CPUPercent i) (MemoryBytes i)
    (MemoryMB i) v (Expanded i) (ParentCPU i) (ParentMemory i).
Definition set_Expanded (v : bool) (i : ProcessInfo) : ProcessInfo :=
  mkProcessInfo (PID i) (PPID i) (Name i) (CPUPercent i) (MemoryBytes i)
    (MemoryMB i) (Children i) v (ParentCPU i) (ParentMemory i).
Definition set_ParentCPU (v : float) (i : ProcessInfo) : ProcessInfo :=
  mkProcessInfo (PID i) (PPID i) (Name i) (CPUPercent i) (MemoryBytes i)
    (MemoryMB i) (Children i) (Expanded i) v (ParentMemory i).
Definition set_ParentMemory (v : Z) (i : ProcessInfo) : ProcessInfo :=
  mkProcessInfo (PID i) (PPID i) (Name i) (CPUPercent i) (MemoryBytes i)
    (MemoryMB i) (Children i) (Expanded i) (ParentCPU i) v.

(** [config.Config] behind [ConfigInterface]. *)
Record Config := mkConfig {
  CPUThreshold : float;
  MemoryThreshold : Z;
  RefreshRate : Z;
  ShowThreads : bool
}.
Definition GetCPUThreshold (c : Config) : float := CPUThreshold c.
Definition GetMemoryThreshold (c : Config) : Z := MemoryThreshold c.

(** ** Relation classifier *)

(** [float64(info.MemoryBytes) / (1024 * 1024)] *)
Definition toMB (bytes : Z) : float := (Go.float64 bytes / 1048576)%float.

(** The memory heuristic of [isThread]:
    [float64(child.MemoryBytes)/float64(parent.MemoryBytes) < 0.1]. *)
Definition memoryRatioBelowTenth (childBytes parentBytes : Z) : bool :=
  (Go.float64 childBytes / Go.float64 parentBytes <? 0.1)%float.

Definition isThread (child parent : ProcessInfo) : bool :=
  if String.eqb (Name child) (Name parent) then true
  else if (Go.len (Name parent) <? Go.len (Name child))%nat
          && String.eqb (Go.slice_to (Name child) (Go.len (Name parent))) (Name parent)
  then true
  else if (0 <? MemoryBytes parent)
          && memoryRatioBelowTenth (MemoryBytes child) (MemoryBytes parent)
  then true
  else false.

Definition systemParents : gmap string bool :=
  <["systemd" := true]> (<["init" := true]> (<["launchd" := true]> ∅)).

Definition isRelatedToParent (child parent : ProcessInfo) : bool :=
  if Go.index_bool systemParents (Name parent) then false
  else if String.eqb (Name child) (Name parent) then true
  else if (Go.len (Name parent) <=? Go.len (Name child))%nat
          && String.eqb (Go.slice_to (Name child) (Go.len (Name parent))) (Name parent)
  then true
  else if (Go.len (Name child) <=? Go.len (Name parent))%nat
          && String.eqb (Go.slice_to (Name parent) (Go.len (Name child))) (Name child)
  then true
  else false.

(** ** Snapshot collector *)

(** What the engine observes of one gopsutil [*process.Process]: its
    [Pid] and the outcome of each accessor, [None] standing for a
    non-nil [err]. [procMemoryInfo] is the [RSS] of the returned
    [MemoryInfoStat]. *)
Record Process := mkProcess {
  Pid : Z;
  procName : option string;
  procPpid : option Z;
  procCPUPercent : option float;
  procMemoryInfo : option Z
}.

(** [getProcessInfo]: [m] is the monitor's [processes] map, read for the
    persisted [Expanded] flag and updated with the fresh record. A
    failing [Name] or [MemoryInfo] is an error; a failing [Ppid] or
    [CPUPercent] falls back to zero. *)
Definition getProcessInfo (m : gmap Z ProcessInfo) (p : Process)
  : option ProcessInfo * gmap Z ProcessInfo :=
  let pid := Pid p in
  match procName p with
  | None => (None, m)
  | Some name =>
    let ppid := match procPpid p with Some v => v | None => 0 end in
    let cpuPercent := match procCPUPercent p with Some v => v | None => 0%float end in
    match procMemoryInfo p with
    | None => (None, m)
    | Some rss =>
      let info := mkProcessInfo pid ppid name cpuPercent rss 0%float [] false 0%float 0 in
      let info := match m !! pid with
                  | Some existing => set_Expanded (Expanded existing) info
                  | None => info
                  end in
      (Some info, <[pid := info]> m)
    end
  end.

(** ** Bottom-up aggregator *)

(** The two maps the recursion mutates: the records behind
    [allProcesses] and the [aggregated] set. *)
Record AggState := mkAggState {
  allProcesses : gmap Z ProcessInfo;
  aggregated : gmap Z bool
}.

(** A write through the pointer stored under [pid]. *)
Definition update (pid : Z) (f : ProcessInfo → ProcessInfo) (st : AggState) : AggState :=
  mkAggState (alter f pid (allProcesses st)) (aggregated st).

(** [aggregated[pid] = true] *)
Definition mark (pid : Z) (st : AggState) : AggState :=
  mkAggState (allProcesses st) (<[pid := true]> (aggregated st)).

Definition refreshMemoryMB (i : ProcessInfo) : ProcessInfo :=
  set_MemoryMB (toMB (MemoryBytes i)) i.

Definition storeOriginals (i : ProcessInfo) : ProcessInfo :=
  set_ParentMemory (MemoryBytes i) (set_ParentCPU (CPUPercent i) i).

Definition appendChild (c : ChildInfo) (i : ProcessInfo) : ProcessInfo :=
  set_Children (Children i ++ [c]) i.

Definition storeTotals (totalCPU : float) (totalMemory : Z) (i : ProcessInfo) : ProcessInfo :=
  set_MemoryMB (toMB totalMemory) (set_MemoryBytes totalMemory (set_CPUPercent totalCPU i)).

Definition childEntry (childInfo info : ProcessInfo) : ChildInfo :=
  mkChildInfo (PID childInfo) (Name childInfo) (CPUPercent childInfo)
    (MemoryBytes childInfo) (isThread childInfo info).

(** The [for _, childPID := range childPIDs] loop of
    [aggregateResources]; [self] is the recursive call, [pid] the key of
    the record [info] points to. The locals [totalCPU], [totalMemory] and
    [hasRelatedChildren] are threaded through. *)
Fixpoint aggregateChildren (self : Z → AggState → option AggState) (pid : Z)
    (childPIDs : list Z) (totalCPU : float) (totalMemory : Z)
    (hasRelatedChildren : bool) (st : AggState)
  : option (float * Z * bool * AggState) :=
  match childPIDs with
  | [] => Some (totalCPU, totalMemory, hasRelatedChildren, st)
  | childPID :: rest =>
    match self childPID st with
    | None => None
    | Some st =>
      match allProcesses st !! childPID, allProcesses st !! pid with
      | Some childInfo, Some info =>
        if negb (isRelatedToParent childInfo info) then
          aggregateChildren self pid rest totalCPU totalMemory hasRelatedChildren st
        else
          let child := childEntry childInfo info in
          let st := update pid (appendChild child) st in
          aggregateChildren self pid rest
            (totalCPU + CPUPercent childInfo)%float
            (Go.uint64 (totalMemory + MemoryBytes childInfo))
            true st
      | _, _ => aggregateChildren self pid rest totalCPU totalMemory hasRelatedChildren st
      end
    end
  end.

(** [aggregateResources]. Go recursion has no bound of its own: [fuel]
    bounds the depth of the call stack, and [None] is a run that needs a
    deeper stack than [fuel]. *)
Fixpoint aggregateResources (fuel : nat) (childrenMap : gmap Z (list Z)) (pid : Z)
    (st : AggState) : option AggState :=
  match fuel with
  | O => None
  | S fuel =>
    if Go.index_bool (aggregated st) pid then Some st
    else
      match allProcesses st !! pid with
      | None => Some st
      | Some info =>
        match childrenMap !! pid with
        | None => Some (mark pid (update pid refreshMemoryMB st))
        | Some childPIDs =>
          let st := update pid storeOriginals st in
          match aggregateChildren (aggregateResources fuel childrenMap) pid childPIDs
                  (CPUPercent info) (MemoryBytes info) false st with
          | None => None
          | Some (totalCPU, totalMemory, hasRelatedChildren, st) =>
            let st := if hasRelatedChildren
                      then update pid (storeTotals totalCPU totalMemory) st
                      else update pid refreshMemoryMB st in
            Some (mark pid st)
          end
        end
      end
  end.

(** ** Threshold filter and ranker *)

(** What a call of [GetFilteredProcesses] can do. *)
Inductive Outcome :=
| Failed                                  (* [return nil, err] *)
| Returned (filtered : list ProcessInfo). (* [return filtered, nil] *)

(** [sort.SliceIsSorted]: no element is less than its predecessor. *)
Fixpoint SliceIsSorted {A} (less : A → A → bool) (l : list A) : bool :=
  match l with
  | [] => true
  | a :: l' =>
    match l' with
    | [] => true
    | b :: _ => negb (less b a) && SliceIsSorted less l'
    end
  end.

(** The requirement [sort.Slice] puts on [less], over the elements being
    sorted: a strict weak ordering. *)
Definition strictWeakOrder {A} (less : A → A → bool) (l : list A) : Prop :=
  (∀ a, a ∈ l → less a a = false) ∧
  (∀ a b c, a ∈ l → b ∈ l → c ∈ l →
     less a b = true → less b c = true → less a c = true) ∧
  (∀ a b c, a ∈ l → b ∈ l → c ∈ l →
     less a b = false → less b c = false → less a c = false).

(** First pass of [GetFilteredProcesses]: one step per scanned process. *)
Definition collectStep (acc : gmap Z ProcessInfo * gmap Z ProcessInfo * gmap Z (list Z))
    (p : Process) : gmap Z ProcessInfo * gmap Z ProcessInfo * gmap Z (list Z) :=
  let '(m, allProcesses, childrenMap) := acc in
  match getProcessInfo m p with
  | (None, m) => (m, allProcesses, childrenMap)
  | (Some info, m) =>
    (m, <[PID info := info]> allProcesses,
     if PPID info =? 0 then childrenMap
     else <[PPID info := default [] (childrenMap !! PPID info) ++ [PID info]]> childrenMap)
  end.

Definition collect (m : gmap Z ProcessInfo) (processes : list Process)
  : gmap Z ProcessInfo * gmap Z ProcessInfo * gmap Z (list Z) :=
  fold_left collectStep processes (m, ∅, ∅).

(** Second pass: [aggregateResources] from every key, in the order the
    [range] statement yields them. *)
Fixpoint aggregateAll (fuel : nat) (childrenMap : gmap Z (list Z)) (pids : list Z)
    (st : AggState) : option AggState :=
  match pids with
  | [] => Some st
  | pid :: pids =>
    match aggregateResources fuel childrenMap pid st with
    | None => None
    | Some st => aggregateAll fuel childrenMap pids st
    end
  end.

Definition qualifies (cfg : Config) (info : ProcessInfo) : bool :=
  Go.fge (CPUPercent info) (GetCPUThreshold cfg)
  || (MemoryBytes info >=? GetMemoryThreshold cfg).

(** Third pass. *)
Definition qualifyStep (cfg : Config) (q : gmap Z ProcessInfo) (kv : Z * ProcessInfo)
  : gmap Z ProcessInfo :=
  if qualifies cfg kv.2 then <[PID kv.2 := kv.2]> q else q.

(** Fourth pass. *)
Definition topLevelStep (q : gmap Z ProcessInfo) (filtered : list ProcessInfo)
    (kv : Z * ProcessInfo) : list ProcessInfo :=
  match q !! PPID kv.2 with
  | Some _ => filtered
  | None => filtered ++ [kv.2]
  end.

(** [filtered[i].CPUPercent > filtered[j].CPUPercent] *)
Definition byCPUDescending (a b : ProcessInfo) : bool :=
  Go.fgt (CPUPercent a) (CPUPercent b).

Section Engine.

(** The Go runtime and library behaviour the engine leaves open.
    [range site m] is the order in which the [range] statement at
    [site] yields the entries of the map [m]: some enumeration of the
    map, which may differ from one statement to the next. [sort_Slice]
    is [sort.Slice], known by its contract only (it is not stable). *)
Variable range : ∀ A, nat → gmap Z A → list (Z * A).
Variable sort_Slice : list ProcessInfo → (ProcessInfo → ProcessInfo → bool) → list ProcessInfo.

Definition aggregatePass (fuel : nat) (allProcs : gmap Z ProcessInfo)
    (childrenMap : gmap Z (list Z)) : option AggState :=
  aggregateAll fuel childrenMap (range _ 2%nat allProcs).*1 (mkAggState allProcs ∅).

Definition qualifyingProcesses (cfg : Config) (allProcs : gmap Z ProcessInfo)
  : gmap Z ProcessInfo :=
  fold_left (qualifyStep cfg) (range _ 3%nat allProcs) ∅.

Definition topLevel (q : gmap Z ProcessInfo) : list ProcessInfo :=
  fold_left (topLevelStep q) (range _ 4%nat q) [].

(** [GetFilteredProcesses]. [scan] is the result of
    [process.Processes()], [None] when it fails. The result is [None]
    when the aggregation pass needs a call stack deeper than [fuel].
    The monitor's map as the first pass leaves it is not part of the
    result. *)
Definition GetFilteredProcesses (fuel : nat) (cfg : Config) (m : gmap Z ProcessInfo)
    (scan : option (list Process)) : option Outcome :=
  match scan with
  | None => Some Failed
  | Some processes =>
    let '(_, allProcs, childrenMap) := collect m processes in
    match aggregatePass fuel allProcs childrenMap with
    | None => None
    | Some st =>
      let q := qualifyingProcesses cfg (allProcesses st) in
      Some (Returned (sort_Slice (topLevel q) byCPUDescending))
    end
  end.

End Engine.

(** A concrete runtime, used to run the engine on examples: maps are
    enumerated in key order of their representation and slices are
    sorted by the insertion sort Go itself uses on short slices. *)
Definition rangeInOrder : ∀ A, nat → gmap Z A → list (Z * A) :=
  fun A _ m => map_to_list m.

(** One round of the inner loop of Go's [insertionSortLessFunc]: the new
    element moves left past every element it is less than. The sorted
    prefix is held back to front. *)
Fixpoint insertLeftwards {A} (less : A → A → bool) (x : A) (prefixRev : list A) : list A :=
  match prefixRev with
  | [] => [x]
  | y :: rest => if less x y then y :: insertLeftwards less x rest else x :: y :: rest
  end.

Definition insertionSort (l : list ProcessInfo) (less : ProcessInfo → ProcessInfo → bool)
  : list ProcessInfo :=
  rev (fold_left (fun prefixRev x => insertLeftwards less x prefixRev) l []).

(** ** The earlier revision of the engine *)

(** [GetFilteredProcesses] as [internal/monitor/process.go] has it: the
    qualifying set is taken from the raw samples, every child present is
    recorded under its parent, a parent of a qualifying child is pulled
    into the qualifying set, and the totals of a qualifying record are
    the flat sums over its entries. There is no recursion. The records
    are heap objects here, a pointer being an index into [heap], since
    [qualifyingProcesses] can keep a pointer that [allProcesses] has
    dropped. *)
Module Legacy.

Definition Pass1 : Type :=
  gmap Z ProcessInfo * list ProcessInfo * gmap Z nat * gmap Z nat * gmap Z (list Z).

(** First pass, one scanned process. *)
Definition collectStep (cfg : Config) (acc : Pass1) (p : Process) : Pass1 :=
  let '(m, heap, allProcesses, qualifyingProcesses, childrenMap) := acc in
  match getProcessInfo m p with
  | (None, m) => (m, heap, allProcesses, qualifyingProcesses, childrenMap)
  | (Some info, m) =>
    let ptr := length heap in
    (m, heap ++ [info], <[PID info := ptr]> allProcesses,
     (if qualifies cfg info then <[PID info := ptr]> qualifyingProcesses
      else qualifyingProcesses),
     (if PPID info =? 0 then childrenMap
      else <[PPID info := default [] (childrenMap !! PPID info) ++ [PID info]]> childrenMap))
  end.

(** Second pass, one child of the record [ptr] stored under [pid]. *)
Definition linkChild (allProcesses : gmap Z nat) (pid : Z) (ptr : nat)
    (acc : list ProcessInfo * gmap Z nat) (childPID : Z)
  : list ProcessInfo * gmap Z nat :=
  let '(heap, qualifyingProcesses) := acc in
  match allProcesses !! childPID with
  | None => acc
  | Some childPtr =>
    match heap !! childPtr, heap !! ptr with
    | Some childInfo, Some info =>
      let child := childEntry childInfo info in
      let heap := <[ptr := appendChild child info]> heap in
      match qualifyingProcesses !! childPID, qualifyingProcesses !! pid with
      | Some _, None => (heap, <[pid := ptr]> qualifyingProcesses)
      | _, _ => (heap, qualifyingProcesses)
      end
    | _, _ => acc
    end
  end.

Definition linkStep (allProcesses : gmap Z nat) (childrenMap : gmap Z (list Z))
    (acc : list ProcessInfo * gmap Z nat) (kv : Z * nat)
  : list ProcessInfo * gmap Z nat :=
  match childrenMap !! kv.1 with
  | Some childPIDs => fold_left (linkChild allProcesses kv.1 kv.2) childPIDs acc
  | None => acc
  end.

(** The flat totals of one record with entries. *)
Definition sumChildren (info : ProcessInfo) : ProcessInfo :=
  match Children info with
  | [] => info
  | _ =>
    let info := storeOriginals info in
    let totalCPU :=
      fold_left (fun acc c => (acc + ChildCPUPercent c)%float) (Children info) 0%float in
    let totalMemory :=
      fold_left (fun acc c => Go.uint64 (acc + ChildMemoryBytes c)) (Children info) 0 in
    let totalCPU := (totalCPU + ParentCPU info)%float in
    let totalMemory := Go.uint64 (totalMemory + ParentMemory info) in
    storeTotals totalCPU totalMemory info
  end.

Definition aggregateStep (heap : list ProcessInfo) (kv : Z * nat) : list ProcessInfo :=
  match heap !! kv.2 with
  | Some info => <[kv.2 := sumChildren info]> heap
  | None => heap
  end.

(** Third pass, one qualifying record. *)
Definition topLevelStep (qualifyingProcesses : gmap Z nat)
    (acc : list ProcessInfo * list nat) (kv : Z * nat) : list ProcessInfo * list nat :=
  let '(heap, filtered) := acc in
  match heap !! kv.2 with
  | Some info =>
    match qualifyingProcesses !! PPID info with
    | Some _ => acc
    | None =>
      let heap := match Children info with
                  | [] => <[kv.2 := refreshMemoryMB info]> heap
                  | _ => heap
                  end in
      (heap, filtered ++ [kv.2])
    end
  | None => acc
  end.

Section Engine.

Variable range : ∀ A, nat → gmap Z A → list (Z * A).
Variable sort_Slice : list ProcessInfo → (ProcessInfo → ProcessInfo → bool) → list ProcessInfo.

Definition rows (cfg : Config) (m : gmap Z ProcessInfo) (processes : list Process)
  : list ProcessInfo :=
  let '(_, heap, allProcesses, qualifyingProcesses, childrenMap) :=
    fold_left (collectStep cfg) processes (m, [], ∅, ∅, ∅) in
  let '(heap, qualifyingProcesses) :=
    fold_left (linkStep allProcesses childrenMap) (range _ 2%nat allProcesses)
      (heap, qualifyingProcesses) in
  let heap := fold_left aggregateStep (range _ 3%nat qualifyingProcesses) heap in
  let '(heap, filtered) :=
    fold_left (topLevelStep qualifyingProcesses) (range _ 4%nat qualifyingProcesses)
      (heap, []) in
  omap (fun ptr => heap !! ptr) filtered.

Definition GetFilteredProcesses (cfg : Config) (m : gmap Z ProcessInfo)
    (scan : option (list Process)) : Outcome :=
  match scan with
  | None => Failed
  | Some processes => Returned (sort_Slice (rows cfg m processes) byCPUDescending)
  end.

End Engine.

End Legacy.

(** * The monitor object, the configuration and the display *)

(** ** The configuration *)

(** Package [config]. A [*Config] is passed along by value here: [main]
    finishes setting it before anything reads it. *)
Module config.

Definition New : Config := mkConfig 5.0 (50 * 1024 * 1024) 1000000000 true.

Definition SetCPUThreshold (threshold : float) (c : Config) : Config :=
  mkConfig threshold (MemoryThreshold c) (RefreshRate c) (ShowThreads c).

Definition SetMemoryThreshold (threshold : Z) (c : Config) : Config :=
  mkConfig (CPUThreshold c) threshold (RefreshRate c) (ShowThreads c).

Definition SetRefreshRate (rate : Z) (c : Config) : Config :=
  mkConfig (CPUThreshold c) (MemoryThreshold c) rate (ShowThreads c).

Definition GetRefreshRate (c : Config) : Z := RefreshRate c.

End config.

(** The configuration [main] builds from the values of the flags
    [--cpu], [--memory] (a [uint64] count of megabytes) and
    [--refresh]. *)
Definition mainConfig (cpuThreshold : float) (memoryThreshold : Z) (refreshRate : Z)
  : Config :=
  let cfg := config.New in
  let cfg := config.SetCPUThreshold cpuThreshold cfg in
  let cfg := config.SetMemoryThreshold
               (Go.uint64 (Go.uint64 (memoryThreshold * 1024) * 1024)) cfg in
  config.SetRefreshRate refreshRate cfg.

(** ** The monitor object *)

(** [type ResourceLevel int] and its constants. *)
Definition ResourceLevel : Type := Z.
Definition Low : ResourceLevel := 0.
Definition Medium : ResourceLevel := 1.
Definition High : ResourceLevel := 2.

Definition GetResourceLevel (cpuPercent memoryMB : float) : ResourceLevel :=
  if Go.fge cpuPercent 50 || Go.fge memoryMB 500 then High
  else if Go.fge cpuPercent 20 || Go.fge memoryMB 200 then Medium
  else Low.

(** [ResourceLevel.String] *)
Definition ResourceLevel_String (rl : ResourceLevel) : string :=
  if rl =? Low then "Low"
  else if rl =? Medium then "Medium"
  else if rl =? High then "High"
  else "Unknown".

(** [Monitor]. The records [processes] points to are held in the map
    itself, under the convention of the engine: the record of a PID is
    the one object both [processes] and the [allProcesses] of the latest
    scan point to. *)
Record Monitor := mkMonitor {
  processes : gmap Z ProcessInfo;
  lastCPUTimes : gmap Z float;
  config : Config
}.

Definition New (config : Config) : Monitor := mkMonitor ∅ ∅ config.

Definition ToggleExpanded (pid : Z) (m : Monitor) : Monitor :=
  match processes m !! pid with
  | Some info =>
    mkMonitor (<[pid := set_Expanded (negb (Expanded info)) info]> (processes m))
      (lastCPUTimes m) (config m)
  | None => m
  end.

Section MonitorEngine.

Variable range : ∀ A, nat → gmap Z A → list (Z * A).
Variable sort_Slice : list ProcessInfo → (ProcessInfo → ProcessInfo → bool) → list ProcessInfo.

(** [GetFilteredProcesses] as a method: the rows it returns together
    with the monitor it leaves. The first pass has stored every fresh
    record in [processes]; those records are the ones the aggregation
    pass then writes to, so [processes] shows them as aggregated. A
    failed scan touches nothing. *)
Definition Monitor_GetFilteredProcesses (fuel : nat) (m : Monitor)
    (scan : option (list Process)) : option (Outcome * Monitor) :=
  match scan with
  | None => Some (Failed, m)
  | Some procs =>
    let '(table, allProcs, childrenMap) := collect (processes m) procs in
    match aggregatePass range fuel allProcs childrenMap with
    | None => None
    | Some st =>
      let q := qualifyingProcesses range (config m) (allProcesses st) in
      Some (Returned (sort_Slice (topLevel range q) byCPUDescending),
            mkMonitor (allProcesses st ∪ table) (lastCPUTimes m) (config m))
    end
  end.

End MonitorEngine.

(** ** The display *)

Module ui.

(** *** Colours and glyphs ([colors.go]) *)

(** [tcell.Color], as [tcell.NewRGBColor] builds it. *)
Inductive Color := NewRGBColor (r g b : Z).

Record ColorScheme := mkColorScheme {
  Background : Color;
  Text : Color;
  Header : Color;
  LowUsage : Color;
  MediumUsage : Color;
  HighUsage : Color;
  Selected : Color;
  Thread : Color;
  ChildProcess : Color;
  Border : Color;
  Accent : Color;
  Muted : Color;
  Success : Color;
  Warning : Color;
  Error : Color
}.

Definition NewColorScheme : ColorScheme := {|
  Background := NewRGBColor 15 15 25;
  Text := NewRGBColor 220 225 235;
  Header := NewRGBColor 100 200 255;
  LowUsage := NewRGBColor 80 200 120;
  MediumUsage := NewRGBColor 255 180 50;
  HighUsage := NewRGBColor 255 85 85;
  Selected := NewRGBColor 70 130 255;
  Thread := NewRGBColor 150 160 180;
  ChildProcess := NewRGBColor 120 200 200;
  Border := NewRGBColor 60 70 90;
  Accent := NewRGBColor 200 120 255;
  Muted := NewRGBColor 120 130 140;
  Success := NewRGBColor 50 255 120;
  Warning := NewRGBColor 255 200 50;
  Error := NewRGBColor 255 100 100
|}.

Definition GetProcessColor (cs : ColorScheme) (level : ResourceLevel) : Color :=
  if level =? Low then LowUsage cs
  else if level =? Medium then MediumUsage cs
  else if level =? High then HighUsage cs
  else Text cs.

(** [tcell.Style]: the foreground and the background it was given. *)
Record Style := mkStyle { fg : Color; bg : Color }.

Definition GetStyle (cs : ColorScheme) (color : Color) (selected : bool) : Style :=
  let style := mkStyle color (Background cs) in
  if selected then mkStyle (fg style) (Selected cs) else style.

Definition GetProgressBarColor (cs : ColorScheme) (percent : float) : Color :=
  if Go.fge percent 75 then HighUsage cs
  else if Go.fge percent 50 then MediumUsage cs
  else if Go.fge percent 25 then Warning cs
  else LowUsage cs.

(** The two cells of a bar, three bytes each in UTF-8. *)
Definition fullBlock : string := "█".
Definition lightShade : string := "░".

(** The loop of [CreateProgressBar], [n] rounds from index [i]. *)
Fixpoint barCells (filledWidth : Z) (i : Z) (n : nat) (bar : string) : string :=
  match n with
  | O => bar
  | S n =>
    barCells filledWidth (i + 1) n
      (bar +:+ (if i <? filledWidth then fullBlock else lightShade))
  end.

Definition CreateProgressBar (oob : float → Z) (percent : float) (width : Z) : string :=
  if width <? 2 then ""
  else
    let filledWidth :=
      Go.int_of_float64 oob (percent / 100.0 * Go.float64 width)%float in
    let filledWidth := if filledWidth >? width then width else filledWidth in
    barCells filledWidth 0 (Z.to_nat width) "".

Definition GetStatusIcon (cpuPercent : float) (isExpanded hasChildren : bool) : string :=
  if hasChildren then
    if isExpanded then "▼" else "▶"
  else if Go.fge cpuPercent 50 then "●"
  else if Go.fge cpuPercent 20 then "●"
  else if Go.fge cpuPercent 5 then "●"
  else "○".

(** *** Text on the screen *)

(** [truncateString]; [None] would be a slice out of range. *)
Definition truncateString (s : string) (maxLen : Z) : option string :=
  let maxLen := if maxLen <? 4 then 4 else maxLen in
  if Z.of_nat (Go.len s) <=? maxLen then Some s
  else (λ head, head +:+ "...") <$> Go.slice_to_checked s (maxLen - 3).

(** One call of [screen.SetContent(x, y, r, nil, style)]. *)
Record Cell := mkCell { cellX : Z; cellY : Z; cellRune : Z; cellStyle : Style }.

(** The loop of [drawText] over the runes from index [i] on: the calls
    of [SetContent] it makes, in order. *)
Fixpoint drawRunes (x y maxWidth : Z) (i : Z) (runes : list Z) (style : Style)
  : list Cell :=
  match runes with
  | [] => []
  | r :: runes =>
    if Go.int (x + i) >=? maxWidth then []
    else mkCell (Go.int (x + i)) y r style :: drawRunes x y maxWidth (i + 1) runes style
  end.

Definition drawText (x y maxWidth : Z) (text : string) (style : Style) : list Cell :=
  drawRunes x y maxWidth 0 (Go.runes text) style.

(** The status indicator of [renderHeader]: the choice of the text and
    the call that draws it. *)
Definition statusIndicator (cs : ColorScheme) (paused : bool) (width : Z) : list Cell :=
  let status := if paused then "⏸ PAUSED" else "✓ RUNNING" in
  let statusColor := if paused then Warning cs else Success cs in
  let statusX := Go.int (Go.int (width - Z.of_nat (Go.len status)) - 3) in
  drawText statusX 1 (Z.of_nat (Go.len status)) status (GetStyle cs statusColor false).

(** The megabytes [renderHeader] prints for the memory threshold. *)
Definition headerMemoryMB (cfg : Config) : Z := GetMemoryThreshold cfg / (1024 * 1024).

(** *** Cursor, scrolling and input ([input.go]) *)

(** A [*tcell.EventKey] by what [HandleInput] reads of it: the key, and
    the rune of a [KeyRune]. *)
Inductive EventKey :=
| KeyEscape | KeyCtrlC | KeyRune (r : Z) | KeyUp | KeyDown | KeyEnter
| KeyHome | KeyEnd | KeyOther.

(** The record a row points to. *)
Definition deref (mon : Monitor) (row : Z) : option ProcessInfo := processes mon !! row.

(** [Display], without its screen, colour scheme, configuration and
    system metrics. A row of [processes] is held as the PID of the
    record it points to, which the monitor's table holds under that
    PID. *)
Record Display := mkDisplay {
  monitor : Monitor;
  processes : list Z;
  selectedIndex : Z;
  scrollOffset : Z;
  paused : bool;
  forceRefresh : bool;
  running : bool
}.

Definition set_monitor (v : Monitor) (d : Display) : Display :=
  mkDisplay v (processes d) (selectedIndex d) (scrollOffset d) (paused d)
    (forceRefresh d) (running d).
Definition set_processes (v : list Z) (d : Display) : Display :=
  mkDisplay (monitor d) v (selectedIndex d) (scrollOffset d) (paused d)
    (forceRefresh d) (running d).
Definition set_selectedIndex (v : Z) (d : Display) : Display :=
  mkDisplay (monitor d) (processes d) v (scrollOffset d) (paused d)
    (forceRefresh d) (running d).
Definition set_scrollOffset (v : Z) (d : Display) : Display :=
  mkDisplay (monitor d) (processes d) (selectedIndex d) v (paused d)
    (forceRefresh d) (running d).
Definition set_paused (v : bool) (d : Display) : Display :=
  mkDisplay (monitor d) (processes d) (selectedIndex d) (scrollOffset d) v
    (forceRefresh d) (running d).
Definition set_forceRefresh (v : bool) (d : Display) : Display :=
  mkDisplay (monitor d) (processes d) (selectedIndex d) (scrollOffset d) (paused d)
    v (running d).
Definition set_running (v : bool) (d : Display) : Display :=
  mkDisplay (monitor d) (processes d) (selectedIndex d) (scrollOffset d) (paused d)
    (forceRefresh d) v.

Definition New (mon : Monitor) : Display := mkDisplay mon [] 0 0 false false true.

Definition Stop (d : Display) : Display := set_running false d.

Definition TogglePause (d : Display) : Display := set_paused (negb (paused d)) d.

Definition ForceRefresh (d : Display) : Display := set_forceRefresh true d.

(** [len(d.processes)] *)
Definition rowCount (d : Display) : Z := Z.of_nat (length (processes d)).

(** [adjustScrollOffset]. [screen] is [None] while [d.screen] is nil,
    else the terminal size [d.screen.Size()] reports at the call. *)
Definition adjustScrollOffset (screen : option (Z * Z)) (d : Display) : Display :=
  match screen with
  | None => d
  | Some (_, height) =>
    let maxRows := Go.int (height - 11) in
    let d :=
      if selectedIndex d <? scrollOffset d then set_scrollOffset (selectedIndex d) d
      else if selectedIndex d >=? Go.int (scrollOffset d + maxRows)
      then set_scrollOffset (Go.int (Go.int (selectedIndex d - maxRows) + 1)) d
      else d in
    if scrollOffset d <? 0 then set_scrollOffset 0 d else d
  end.

Definition MoveCursor (screen : option (Z * Z)) (delta : Z) (d : Display) : Display :=
  if rowCount d =? 0 then d
  else
    let newPos := Go.int (selectedIndex d + delta) in
    let newPos :=
      if newPos <? 0 then rowCount d - 1
      else if newPos >=? rowCount d then 0
      else newPos in
    adjustScrollOffset screen (set_selectedIndex newPos d).

Definition SetCursor (screen : option (Z * Z)) (pos : Z) (d : Display) : Display :=
  if rowCount d =? 0 then d
  else
    let d :=
      if pos <? 0 then set_selectedIndex (rowCount d - 1) d
      else if pos >=? rowCount d then set_selectedIndex (rowCount d - 1) d
      else set_selectedIndex pos d in
    adjustScrollOffset screen d.

(** [Display.ToggleExpanded]; [None] is an index out of range. The PID
    of the selected row is the pointer itself. *)
Definition ToggleExpanded (d : Display) : option Display :=
  if (rowCount d =? 0) || (selectedIndex d >=? rowCount d) then Some d
  else
    match Go.index (processes d) (selectedIndex d) with
    | None => None
    | Some selectedProcess =>
      Some (set_monitor (ToggleExpanded selectedProcess (monitor d)) d)
    end.

(** [HandleInput]: whether to go on, and the display after the key. *)
Definition HandleInput (screen : option (Z * Z)) (ev : EventKey) (d : Display)
  : option (bool * Display) :=
  match ev with
  | KeyEscape | KeyCtrlC => Some (false, d)
  | KeyRune r =>
    if (r =? 113) || (r =? 81) then Some (false, d)            (* 'q', 'Q' *)
    else if r =? 32 then Some (true, TogglePause d)            (* ' ' *)
    else if (r =? 114) || (r =? 82) then Some (true, ForceRefresh d)  (* 'r', 'R' *)
    else Some (true, d)
  | KeyUp => Some (true, MoveCursor screen (-1) d)
  | KeyDown => Some (true, MoveCursor screen 1 d)
  | KeyEnter => (λ d, (true, d)) <$> ToggleExpanded d
  | KeyHome => Some (true, SetCursor screen 0 d)
  | KeyEnd => Some (true, SetCursor screen (-1) d)
  | KeyOther => Some (true, d)
  end.

(** The records the rows point to, as [renderProcesses] reads them. *)
Definition rows (d : Display) : list ProcessInfo :=
  omap (deref (monitor d)) (processes d).

(** *** The process list ([renderProcesses]) *)

(** An argument of [fmt.Sprintf]. *)
Inductive Arg := ArgString (s : string) | ArgInt (z : Z) | ArgFloat (f : float).

(** One call [d.drawText(x, y, maxWidth, fmt.Sprintf(format, args...),
    style)]: the line is kept as the format and the arguments it is
    built from. *)
Record TextCall := mkTextCall {
  textX : Z;
  textY : Z;
  textMaxWidth : Z;
  textFormat : string;
  textArgs : list Arg;
  textStyle : Style
}.

(** The main line of a row. *)
Definition processLine (cs : ColorScheme) (selectedIndex width : Z) (i : Z)
    (proc : ProcessInfo) (currentY : Z) : option TextCall :=
  let isSelected := i =? selectedIndex in
  let childCount := Z.of_nat (length (Children proc)) in
  let statusIcon := GetStatusIcon (CPUPercent proc) (Expanded proc) (childCount >? 0) in
  let level := GetResourceLevel (CPUPercent proc) (MemoryMB proc) in
  let color := GetProcessColor cs level in
  let style := GetStyle cs color isSelected in
  let availableNameWidth := Go.int (width - 45) in
  let availableNameWidth := if availableNameWidth <? 20 then 20 else availableNameWidth in
  name ← truncateString (Name proc) availableNameWidth;
  Some (mkTextCall 3 currentY (Go.int (width - 6))
          "%s %-6d %6.1f%% %9.1fMB %5d %s"
          [ArgString statusIcon; ArgInt (PID proc); ArgFloat (CPUPercent proc);
           ArgFloat (MemoryMB proc); ArgInt childCount; ArgString name]
          style).

(** The line of an expanded row that shows the parent's own sample. *)
Definition parentLine (cs : ColorScheme) (width : Z) (proc : ProcessInfo) (currentY : Z)
  : option TextCall :=
  let parentPrefix := "    ├─●"%string in
  let parentStyle := GetStyle cs (Text cs) false in
  let availableParentNameWidth := Go.int (width - 50) in
  let availableParentNameWidth :=
    if availableParentNameWidth <? 15 then 15 else availableParentNameWidth in
  name ← truncateString (Name proc) (availableParentNameWidth - 9);
  Some (mkTextCall 3 currentY (Go.int (width - 6))
          "%s %-5d %6.1f%% %9.1fMB      %s (parent)"
          [ArgString parentPrefix; ArgInt (PID proc); ArgFloat (ParentCPU proc);
           ArgFloat (toMB (ParentMemory proc)); ArgString name]
          parentStyle).

(** The line of one entry of an expanded row. *)
Definition childLine (cs : ColorScheme) (width : Z) (child : ChildInfo) (currentY : Z)
  : option TextCall :=
  let prefix := (if IsThread child then "    ╠═" else "    ├─")%string in
  let childStyle :=
    if IsThread child then GetStyle cs (Thread cs) false
    else GetStyle cs (ChildProcess cs) false in
  let typeLabel := (if IsThread child then "thread" else "child")%string in
  let availableChildNameWidth := Go.int (width - 55) in
  let availableChildNameWidth :=
    if availableChildNameWidth <? 15 then 15 else availableChildNameWidth in
  name ← truncateString (ChildName child)
           (availableChildNameWidth - Z.of_nat (Go.len typeLabel) - 3);
  Some (mkTextCall 3 currentY (Go.int (width - 6))
          "%s %-5d %6.1f%% %9.1fMB      %s (%s)"
          [ArgString prefix; ArgInt (ChildPID child); ArgFloat (ChildCPUPercent child);
           ArgFloat (toMB (ChildMemoryBytes child)); ArgString name; ArgString typeLabel]
          childStyle).

(** The loop over [proc.Children]; [limit] is [startY + maxRows]. The
    result is the calls made and [currentY] after the loop. *)
Fixpoint renderChildren (cs : ColorScheme) (width limit : Z) (children : list ChildInfo)
    (currentY : Z) : option (list TextCall * Z) :=
  match children with
  | [] => Some ([], currentY)
  | child :: children =>
    if currentY >=? limit then Some ([], currentY)
    else
      call ← childLine cs width child currentY;
      '(calls, y) ← renderChildren cs width limit children (currentY + 1);
      Some (call :: calls, y)
  end.

(** The loop over the rows, from the row of index [i] on. *)
Fixpoint renderRows (cs : ColorScheme) (selectedIndex width limit : Z)
    (procs : list ProcessInfo) (i : Z) (currentY : Z) : option (list TextCall) :=
  match procs with
  | [] => Some []
  | proc :: procs =>
    if currentY >=? limit then Some []
    else
      call ← processLine cs selectedIndex width i proc currentY;
      let currentY := currentY + 1 in
      '(expanded, currentY) ←
        (if Expanded proc && (Z.of_nat (length (Children proc)) >? 0) then
           '(parent, currentY) ←
             (if currentY <? limit then
                call ← parentLine cs width proc currentY;
                Some ([call], currentY + 1)
              else Some ([], currentY));
           '(calls, currentY) ← renderChildren cs width limit (Children proc) currentY;
           Some (parent ++ calls, currentY)
         else Some ([], currentY));
      rest ← renderRows cs selectedIndex width limit procs (i + 1) currentY;
      Some (call :: expanded ++ rest)
  end.

(** [startY + maxRows] *)
Definition renderLimit (height : Z) : Z := Go.int (8 + Go.int (height - 11)).

(** [renderProcesses]: the calls of [drawText] it makes, in order;
    [None] is an index out of range. The rows are read through their
    pointers. *)
Definition renderProcesses (cs : ColorScheme) (d : Display) (width height : Z)
  : option (list TextCall) :=
  let startY := 8 in
  let limit := renderLimit height in
  if scrollOffset d <? 0 then
    if startY >=? limit then Some [] else None
  else
    renderRows cs (selectedIndex d) width limit
      (drop (Z.to_nat (scrollOffset d)) (rows d)) (scrollOffset d) startY.

Section Loops.

Variable range : ∀ A, nat → gmap Z A → list (Z * A).
Variable sort_Slice : list ProcessInfo → (ProcessInfo → ProcessInfo → bool) → list ProcessInfo.

(** [updateProcesses], given what [process.Processes()] yields at the
    call. [GetSystemMetrics] has no part in what is modelled. *)
Definition updateProcesses (fuel : nat) (screen : option (Z * Z))
    (scan : option (list Process)) (d : Display) : option Display :=
  match Monitor_GetFilteredProcesses range sort_Slice fuel (monitor d) scan with
  | None => None
  | Some (Failed, mon) => Some (set_monitor mon d)
  | Some (Returned filtered, mon) =>
    let d := set_processes (PID <$> filtered) (set_monitor mon d) in
    let d :=
      if selectedIndex d >=? rowCount d then set_selectedIndex (rowCount d - 1) d
      else d in
    let d := if selectedIndex d <? 0 then set_selectedIndex 0 d else d in
    Some (adjustScrollOffset screen d)
  end.

(** One tick of [updateLoop]. *)
Definition tick (fuel : nat) (screen : option (Z * Z)) (scan : option (list Process))
    (d : Display) : option Display :=
  if negb (paused d) || forceRefresh d then
    set_forceRefresh false <$> updateProcesses fuel screen scan d
  else Some d.

(** One key event of [inputLoop]. *)
Definition keyPressed (screen : option (Z * Z)) (ev : EventKey) (d : Display)
  : option Display :=
  match HandleInput screen ev d with
  | None => None
  | Some (true, d) => Some d
  | Some (false, d) => Some (Stop d)
  end.

(** What the two loops can do to a running display, one event at a
    time. *)
Inductive step : Display → Display → Prop :=
| step_key screen ev d d' :
    running d = true → keyPressed screen ev d = Some d' → step d d'
| step_tick fuel screen scan d d' :
    running d = true → tick fuel screen scan d = Some d' → step d d'.

End Loops.

End ui.

(** * Vocabulary of the statements *)

(** ** Names *)

Definition isSystemInitName (n : string) : Prop :=
  n = "systemd"%string ∨ n = "init"%string ∨ n = "launchd"%string.
Definition isPrefixOf (p s : string) : Prop := ∃ t, s = (p +:+ t)%string.
Definition isProperPrefixOf (p s : string) : Prop :=
  ∃ t, t ≠ ""%string ∧ s = (p +:+ t)%string.

(** ** Non-negative floats *)

(** A float64 that compares [>= 0]: a zero, a positive number or [+Inf]. *)
Definition nonnegSF (x : spec_float) : Prop :=
  match x with
  | S754_zero _ => True
  | S754_infinity s | S754_finite s _ _ => s = false
  | S754_nan => False
  end.

Definition nonneg (f : float) : Prop := (0 <=? f)%float = true.

(** ** The scan and its samples *)

(** The samples and the parent-to-children index the first pass builds. *)
Definition samplesOf (m : gmap Z ProcessInfo) (processes : list Process)
  : gmap Z ProcessInfo := (collect m processes).1.2.
Definition childrenMapOf (m : gmap Z ProcessInfo) (processes : list Process)
  : gmap Z (list Z) := (collect m processes).2.

(** [getProcessInfo] succeeds on [p]. *)
Definition retrievable (p : Process) : Prop :=
  is_Some (procName p) ∧ is_Some (procMemoryInfo p).

(** [retrievable], decided. *)
Definition retrievableb (p : Process) : bool :=
  match procName p, procMemoryInfo p with
  | Some _, Some _ => true
  | _, _ => false
  end.

(** The scan without the processes whose retrieval fails. *)
Definition retrievedOnly (processes : list Process) : list Process :=
  List.filter retrievableb processes.

(** [anc] is reached from [p] by following parent links through the
    samples. *)
Inductive isAncestor (s : gmap Z ProcessInfo) : Z → Z → Prop :=
| ancestor_parent p i : s !! p = Some i → isAncestor s (PPID i) p
| ancestor_step anc p i :
    s !! p = Some i → isAncestor s anc (PPID i) → isAncestor s anc p.

(** ** The aggregation store *)

(** [aggregated[p]] holds. *)
Definition marked (st : AggState) (p : Z) : Prop :=
  Go.index_bool (aggregated st) p = true.

(** What a completed call leaves alone: records that were already
    aggregated, records that are still not aggregated afterwards, and the
    set of keys. *)
Definition frame (st st' : AggState) : Prop :=
  (∀ p, marked st p → marked st' p ∧ allProcesses st' !! p = allProcesses st !! p) ∧
  (∀ p, ¬ marked st' p → allProcesses st' !! p = allProcesses st !! p) ∧
  (∀ p, is_Some (allProcesses st' !! p) ↔ is_Some (allProcesses st !! p)).

(** The same, while the record under [x] is being worked on. *)
Definition frameBut (x : Z) (st st' : AggState) : Prop :=
  (∀ p, marked st p → marked st' p ∧ allProcesses st' !! p = allProcesses st !! p) ∧
  (∀ p, p ≠ x → ¬ marked st' p → allProcesses st' !! p = allProcesses st !! p) ∧
  (∀ p, is_Some (allProcesses st' !! p) ↔ is_Some (allProcesses st !! p)).

(** A set [S] of records none of which can complete before [x] does:
    each is not aggregated, is present, and has a child in [S] or the
    child [x]. *)
Definition pending (childrenMap : gmap Z (list Z)) (S : Z → Prop) (x : Z)
    (st : AggState) : Prop :=
  ∀ s, S s →
    ¬ marked st s ∧ is_Some (allProcesses st !! s) ∧
    ∃ cs c, childrenMap !! s = Some cs ∧ c ∈ cs ∧ (S c ∨ c = x).

(** Nothing is being worked on between two top-level calls. *)
Definition idle : Z → Prop := fun _ => False.

(** Every CPU value of the store satisfies [P]. *)
Definition cpuAll (P : float → Prop) (st : AggState) : Prop :=
  ∀ p i, allProcesses st !! p = Some i → P (CPUPercent i).

(** ** What an aggregated record holds *)

(** The entry a parent records for the child stored under [c], if that
    child is present and related. *)
Definition relatedEntry (st : AggState) (parent : ProcessInfo) (c : Z) : option ChildInfo :=
  match allProcesses st !! c with
  | Some ci => if isRelatedToParent ci parent then Some (childEntry ci parent) else None
  | None => None
  end.

Definition relatedEntries (st : AggState) (parent : ProcessInfo) (cs : list Z)
  : list ChildInfo :=
  omap (relatedEntry st parent) cs.

(** The running sums of the loop: the child values are added one at a
    time, in order, starting from the parent's own sample. *)
Definition sumCPU (start : float) (entries : list ChildInfo) : float :=
  fold_left (fun acc e => (acc + ChildCPUPercent e)%float) entries start.

Definition sumMemory (start : Z) (entries : list ChildInfo) : Z :=
  fold_left (fun acc e => Go.uint64 (acc + ChildMemoryBytes e)) entries start.

(** The sum of the memory of the recorded entries, as an integer. *)
Definition totalChildMemory (es : list ChildInfo) : Z :=
  foldr (fun e acc => ChildMemoryBytes e + acc) 0 es.

(** The sum of the entries' CPU computed on its own, from zero, as a
    check of the conservation equation would compute it. *)
Definition totalChildCPU (es : list ChildInfo) : float :=
  fold_left (fun acc e => (acc + ChildCPUPercent e)%float) es 0%float.

(** The record an aggregated process ends up with, from its sample
    [info0] and the entries [es] it recorded. *)
Definition aggregatedRecord (info0 : ProcessInfo) (es : list ChildInfo) : ProcessInfo :=
  match es with
  | [] => refreshMemoryMB (storeOriginals info0)
  | _ => storeTotals (sumCPU (CPUPercent info0) es) (sumMemory (MemoryBytes info0) es)
           (set_Children (Children info0 ++ es) (storeOriginals info0))
  end.

(** The state of the record under [p] after it was aggregated. *)
Definition goodMarked (childrenMap : gmap Z (list Z)) (st : AggState) (p : Z)
    (info0 info : ProcessInfo) : Prop :=
  match childrenMap !! p with
  | None => info = refreshMemoryMB info0
  | Some cs =>
    info = aggregatedRecord info0 (relatedEntries st info0 cs) ∧
    (∀ c, c ∈ cs → is_Some (allProcesses st !! c) → marked st c)
  end.

(** The invariant of the aggregation pass over the samples [s0], outside
    the set [S] of records being worked on: an aggregated record is as
    [goodMarked] says, any other is still its sample. *)
Definition good (childrenMap : gmap Z (list Z)) (s0 : gmap Z ProcessInfo)
    (S : Z → Prop) (st : AggState) : Prop :=
  (∀ p, is_Some (allProcesses st !! p) → is_Some (s0 !! p)) ∧
  (∀ p info0, s0 !! p = Some info0 → ¬ S p →
     ∃ info, allProcesses st !! p = Some info ∧
       (marked st p → goodMarked childrenMap st p info0 info) ∧
       (¬ marked st p → info = info0)).

(** Two records that agree on what a parent reads from a child. *)
Definition sameSample (a b : ProcessInfo) : Prop :=
  PID a = PID b ∧ Name a = Name b ∧ CPUPercent a = CPUPercent b ∧
  MemoryBytes a = MemoryBytes b.

(** The invariant of the loop over the children of [x], whose sample is
    [info0]; [S'] is the set of records being worked on, [x] included,
    and [seen] the children already visited. *)
Definition loopInv (childrenMap : gmap Z (list Z)) (s0 : gmap Z ProcessInfo)
    (S' : Z → Prop) (x : Z) (info0 : ProcessInfo) (seen : list Z)
    (tc : float) (tm : Z) (h : bool) (s : AggState) : Prop :=
  (∀ q, S' q → ¬ marked s q ∧ is_Some (allProcesses s !! q)) ∧
  good childrenMap s0 S' s ∧
  allProcesses s !! x =
    Some (set_Children (Children info0 ++ relatedEntries s info0 seen)
            (storeOriginals info0)) ∧
  tc = sumCPU (CPUPercent info0) (relatedEntries s info0 seen) ∧
  tm = sumMemory (MemoryBytes info0) (relatedEntries s info0 seen) ∧
  h = match relatedEntries s info0 seen with [] => false | _ => true end ∧
  (∀ c, c ∈ seen → c ≠ x ∧ (is_Some (allProcesses s !! c) → marked s c)).

(** ** Exact values *)

(** The exact value of a finite [float64], as a pair (integer, binary
    exponent). *)
Definition exactValue (f : float) : option (Z * Z) :=
  match Prim2SF f with
  | S754_zero _ => Some (0, 0)
  | S754_finite s m e => Some (if s then Z.neg m else Z.pos m, e)
  | _ => None
  end.

(** [a = b + c + d] over exact values, compared after scaling by
    2^1100 (every finite binary64 exponent is above -1100). *)
Definition exactSumOfThree (a b c d : float) : bool :=
  match exactValue a, exactValue b, exactValue c, exactValue d with
  | Some (ma, ea), Some (mb, eb), Some (mc, ec), Some (md, ed) =>
    ma * 2 ^ (ea + 1100) =? mb * 2 ^ (eb + 1100) + mc * 2 ^ (ec + 1100) + md * 2 ^ (ed + 1100)
  | _, _, _, _ => false
  end.

(** ** The earlier revision against the later one *)

(** The first pass of the earlier revision against [collect], on a scan
    with distinct PIDs: the same children index, the samples behind the
    pointers, and the raw qualifying set. *)
Definition pass1Agrees (cfg : Config) (ps : list Process) (accL : Legacy.Pass1)
    (accN : gmap Z ProcessInfo * gmap Z ProcessInfo * gmap Z (list Z)) : Prop :=
  let '(mL, heap, all, qual, cmL) := accL in
  let '(mN, samples, cmN) := accN in
  mL = mN ∧ cmL = cmN ∧
  (∀ k, samples !! k = all !! k ≫= (fun ptr => heap !! ptr)) ∧
  (∀ k ptr, qual !! k = Some ptr ↔
            all !! k = Some ptr ∧ ∃ i, heap !! ptr = Some i ∧ qualifies cfg i = true) ∧
  (∀ k ptr, all !! k = Some ptr → (ptr < length heap)%nat) ∧
  (∀ ptr i, heap !! ptr = Some i → Children i = []) ∧
  (∀ k, is_Some (all !! k) → k ∈ Pid <$> ps).

(** The samples behind the PIDs listed under a parent, in order. *)
Definition childSamples (s : gmap Z ProcessInfo) (cs : list Z) : list ProcessInfo :=
  omap (fun c => s !! c) cs.

(** The entries the parent [info] records for the children [cis]. *)
Definition entriesOf (info : ProcessInfo) (cis : list ProcessInfo) : list ChildInfo :=
  (fun ci => childEntry ci info) <$> cis.

(** A family of the snapshot: a sample that is listed as a parent,
    with the samples of its children. *)
Definition isFamily (s : gmap Z ProcessInfo) (cm : gmap Z (list Z))
    (info : ProcessInfo) (cis : list ProcessInfo) : Prop :=
  s !! PID info = Some info ∧
  ∃ cs, cm !! PID info = Some cs ∧ cis = childSamples s cs.

(** The children of the family are leaves, each related to the parent. *)
Definition flatAndRelated (cm : gmap Z (list Z)) (info : ProcessInfo)
    (cis : list ProcessInfo) : Prop :=
  ∀ ci, ci ∈ cis → cm !! PID ci = None ∧ isRelatedToParent ci info = true.

(** Adding the parent's CPU after the children's, as the earlier
    revision does, gives the float64 that adding it first gives. *)
Definition sumOrderIrrelevant (info : ProcessInfo) (cis : list ProcessInfo) : Prop :=
  (totalChildCPU (entriesOf info cis) + CPUPercent info)%float
  = sumCPU (CPUPercent info) (entriesOf info cis).

(** The totals of the family reach a threshold exactly when the sample
    of one of its members does. *)
Definition qualifiesByMember (cfg : Config) (info : ProcessInfo)
    (cis : list ProcessInfo) : Prop :=
  qualifies cfg (aggregatedRecord info (entriesOf info cis)) = true ↔
  qualifies cfg info = true ∨ ∃ ci, ci ∈ cis ∧ qualifies cfg ci = true.

(** What a sample becomes: the aggregated record of its family, or
    itself with [MemoryMB] set when it is not listed as a parent. *)
Definition familyRecord (s : gmap Z ProcessInfo) (cm : gmap Z (list Z))
    (info : ProcessInfo) : ProcessInfo :=
  match cm !! PID info with
  | Some cs => aggregatedRecord info (entriesOf info (childSamples s cs))
  | None => refreshMemoryMB info
  end.

(** The height of a record in a snapshot whose families are one level
    deep; a listed parent that is not sampled counts as a root above. *)
Definition flatRank (s : gmap Z ProcessInfo) (cm : gmap Z (list Z)) (x : Z) : nat :=
  match cm !! x, s !! x with
  | None, _ => 0
  | Some _, Some _ => 1
  | Some _, None => 2
  end.

(** The record behind the pointer stored under [k]. *)
Definition recordAt (all : gmap Z nat) (h : list ProcessInfo) (k : Z) : option ProcessInfo :=
  all !! k ≫= (fun ptr => h !! ptr).

(** A sample after the second pass of the earlier revision: it lists
    an entry for each of its children. *)
Definition linked (s : gmap Z ProcessInfo) (cm : gmap Z (list Z)) (info : ProcessInfo)
  : ProcessInfo :=
  match cm !! PID info with
  | Some cs => set_Children (entriesOf info (childSamples s cs)) info
  | None => info
  end.

(** One of the children in [cs] reaches a threshold with its sample. *)
Definition childQualifies (cfg : Config) (s : gmap Z ProcessInfo) (cs : list Z) : Prop :=
  ∃ c ci, c ∈ cs ∧ s !! c = Some ci ∧ qualifies cfg ci = true.

(** The earlier revision pulls the parent [k] into the qualifying set. *)
Definition pulledIn (cfg : Config) (s : gmap Z ProcessInfo) (cm : gmap Z (list Z))
    (k : Z) : Prop :=
  ∃ cs, cm !! k = Some cs ∧ childQualifies cfg s cs.

(** The qualifying set of the earlier revision once the parents in
    [done] have been through the second pass. *)
Definition legacyQualifies (cfg : Config) (s : gmap Z ProcessInfo) (cm : gmap Z (list Z))
    (done : list Z) (k : Z) : Prop :=
  ∃ i, s !! k = Some i ∧ (qualifies cfg i = true ∨ (k ∈ done ∧ pulledIn cfg s cm k)).

(** The heap and the qualifying set once the parents in [done] have
    been through the second pass of the earlier revision. *)
Definition linkInv (cfg : Config) (all : gmap Z nat) (s : gmap Z ProcessInfo)
    (cm : gmap Z (list Z)) (done : list Z) (st : list ProcessInfo * gmap Z nat) : Prop :=
  (∀ k i, s !! k = Some i →
     recordAt all st.1 k = Some (if bool_decide (k ∈ done) then linked s cm i else i)) ∧
  (∀ k ptr, st.2 !! k = Some ptr ↔ all !! k = Some ptr ∧ legacyQualifies cfg s cm done k).

(** The same while the children of [k] are gone through, [seen] being
    those already visited. *)
Definition linkChildInv (cfg : Config) (all : gmap Z nat) (s : gmap Z ProcessInfo)
    (cm : gmap Z (list Z)) (done : list Z) (k : Z) (info : ProcessInfo) (seen : list Z)
    (st : list ProcessInfo * gmap Z nat) : Prop :=
  recordAt all st.1 k = Some (set_Children (entriesOf info (childSamples s seen)) info) ∧
  (∀ k' i, k' ≠ k → s !! k' = Some i →
     recordAt all st.1 k' = Some (if bool_decide (k' ∈ done) then linked s cm i else i)) ∧
  (∀ k' ptr, k' ≠ k →
     st.2 !! k' = Some ptr ↔ all !! k' = Some ptr ∧ legacyQualifies cfg s cm done k') ∧
  (∀ ptr, st.2 !! k = Some ptr ↔
     all !! k = Some ptr ∧ (qualifies cfg info = true ∨ childQualifies cfg s seen)).

(** [MemoryMB] as the third pass of the earlier revision leaves it. *)
Definition ensureMemoryMB (info : ProcessInfo) : ProcessInfo :=
  match Children info with
  | [] => refreshMemoryMB info
  | _ => info
  end.

(** ** Scenarios *)

Definition MB : Z := 1048576.

(** The defaults of [config.New]: 5% CPU, 50MB, one second. *)
Definition defaultConfig : Config := mkConfig 5.0%float (50 * MB) 1000000000 true.

(** The chrome scenario of the specification. *)
Definition chromeScenario : list Process :=
  [ mkProcess 1 (Some "chrome"%string) (Some 0) (Some 3.2%float) (Some (85 * MB));
    mkProcess 2 (Some "chrome-gpu"%string) (Some 1) (Some 2.3%float) (Some (45 * MB)) ].

(** Its aggregated store and the record of the parent in it. *)
Definition chromeState : AggState :=
  Eval vm_compute in
    default (mkAggState ∅ ∅)
      (aggregatePass rangeInOrder 2 (samplesOf ∅ chromeScenario)
         (childrenMapOf ∅ chromeScenario)).

Definition chromeParent : ProcessInfo :=
  mkProcessInfo 1 0 "chrome" 5.5%float (130 * MB) 130%float
    [mkChildInfo 2 "chrome-gpu" 2.3%float (45 * MB) true]
    false 3.2%float (85 * MB).

(** Three same-named processes, a parent with two children, with CPU
    samples 0.1, 0.2 and 0.3. *)
Definition threeOfAKind : list Process :=
  [ mkProcess 1 (Some "x"%string) (Some 0) (Some 0.1%float) (Some (85 * MB));
    mkProcess 2 (Some "x"%string) (Some 1) (Some 0.2%float) (Some (45 * MB));
    mkProcess 3 (Some "x"%string) (Some 1) (Some 0.3%float) (Some (45 * MB)) ].

(** Two processes that name each other as parent. *)
Definition twoCycle : list Process :=
  [ mkProcess 1 (Some "a"%string) (Some 2) (Some 3.2%float) (Some (85 * MB));
    mkProcess 2 (Some "b"%string) (Some 1) (Some 2.3%float) (Some (45 * MB)) ].

(** Grandparent, parent and child with unrelated names; only the
    grandparent and the child reach a threshold. *)
Definition threeGenerations : list Process :=
  [ mkProcess 1 (Some "a"%string) (Some 0) (Some 10%float) (Some MB);
    mkProcess 2 (Some "b"%string) (Some 1) (Some 0%float) (Some MB);
    mkProcess 3 (Some "c"%string) (Some 2) (Some 10%float) (Some MB) ].

(** A system root with two children of its own name, each above the
    CPU threshold. *)
Definition systemRootFamily : list Process :=
  [ mkProcess 1 (Some "systemd"%string) (Some 0) (Some 1%float) (Some MB);
    mkProcess 2 (Some "systemd"%string) (Some 1) (Some 10%float) (Some MB);
    mkProcess 3 (Some "systemd"%string) (Some 1) (Some 20%float) (Some MB) ].

(** Two rows above the thresholds, scanned in ascending order of CPU. *)
Definition twoRows : list Process :=
  [ mkProcess 7 (Some "low"%string) (Some 0) (Some 10%float) (Some MB);
    mkProcess 8 (Some "high"%string) (Some 0) (Some 90%float) (Some MB) ].

(** A parent above the CPU threshold with one unrelated child below
    both thresholds. *)
Definition unrelatedChild : list Process :=
  [ mkProcess 1 (Some "a"%string) (Some 0) (Some 10%float) (Some MB);
    mkProcess 2 (Some "b"%string) (Some 1) (Some 1%float) (Some MB) ].

(** Three generations of one name; the grandparent alone reaches a
    threshold. *)
Definition relatedChain : list Process :=
  [ mkProcess 1 (Some "x"%string) (Some 0) (Some 10%float) (Some MB);
    mkProcess 2 (Some "x"%string) (Some 1) (Some 1%float) (Some MB);
    mkProcess 3 (Some "x"%string) (Some 2) (Some 1%float) (Some MB) ].

(** A parent and a child of one name, each below both thresholds,
    whose CPU adds up to more than the CPU threshold. *)
Definition sumAboveThreshold : list Process :=
  [ mkProcess 1 (Some "x"%string) (Some 0) (Some 3%float) (Some MB);
    mkProcess 2 (Some "x"%string) (Some 1) (Some 3%float) (Some MB) ].

(** A parent and a child of one name whose memory adds up to 2^64. *)
Definition memoryWraps : list Process :=
  [ mkProcess 1 (Some "x"%string) (Some 0) (Some 0%float) (Some (2 ^ 63));
    mkProcess 2 (Some "x"%string) (Some 1) (Some 0%float) (Some (2 ^ 63)) ].

(** A scan that lists one PID twice, above the CPU threshold the first
    time and below both thresholds the second time. *)
Definition samePIDTwice : list Process :=
  [ mkProcess 1 (Some "x"%string) (Some 0) (Some 10%float) (Some MB);
    mkProcess 1 (Some "x"%string) (Some 0) (Some 1%float) (Some MB) ].

(** ** The monitor's table *)

(** The monitor's [processes] map as the first pass leaves it. *)
Definition tableOf (m : gmap Z ProcessInfo) (processes : list Process)
  : gmap Z ProcessInfo := (collect m processes).1.1.

(** The persisted expansion flag of a PID: [false] for an unknown one. *)
Definition expandedIn (table : gmap Z ProcessInfo) (pid : Z) : bool :=
  default false (Expanded <$> table !! pid).

(** What [ToggleExpanded] does to a record. *)
Definition toggled (info : ProcessInfo) : ProcessInfo :=
  set_Expanded (negb (Expanded info)) info.

(** ** The display *)

(** The state of a display between two events: the cursor is on a row
    (or at 0 when there is none), the scroll offset is not negative,
    and the rows are distinct records of the monitor's table. *)
Definition displayInv (d : ui.Display) : Prop :=
  0 <= ui.selectedIndex d ∧ 0 <= ui.scrollOffset d ∧
  (ui.processes d ≠ [] → ui.selectedIndex d < ui.rowCount d) ∧
  NoDup (ui.processes d) ∧
  (∀ p, p ∈ ui.processes d → ∃ i, processes (ui.monitor d) !! p = Some i ∧ PID i = p).

(** Strings one after the other. *)
Definition joined (parts : list string) : string := foldr String.append ""%string parts.

(** The cell of a bar at index [i]. *)
Definition cellAt (filledWidth i : Z) : string :=
  if i <? filledWidth then ui.fullBlock else ui.lightShade.

(** The screen lines a row takes when nothing cuts it short: its own
    line and, if it is expanded and has entries, the parent line and one
    line for each entry. *)
Definition rowHeight (proc : ProcessInfo) : Z :=
  if Expanded proc && (Z.of_nat (length (Children proc)) >? 0)
  then 2 + Z.of_nat (length (Children proc)) else 1.

Definition listingHeight (procs : list ProcessInfo) : Z :=
  foldr (λ proc acc, rowHeight proc + acc) 0 procs.

(** Calls at column 3 on consecutive lines from [y] on, above [limit]. *)
Definition stacked (limit y : Z) (calls : list ui.TextCall) : Prop :=
  ∀ j c, calls !! j = Some c →
    ui.textX c = 3 ∧ ui.textY c = y + Z.of_nat j ∧ ui.textY c < limit.

(** ** Scenarios of the monitor and the display *)

(** A monitor that has scanned the chrome scenario once, the row of
    the parent then having been expanded; the same monitor after a scan
    that finds the two processes of [twoRows] instead, and after a second
    scan of the chrome scenario. *)
Definition chromeMonitor : Monitor :=
  Eval vm_compute in
    ToggleExpanded 1
      (default (New defaultConfig)
         (snd <$> Monitor_GetFilteredProcesses rangeInOrder insertionSort 2
                    (New defaultConfig) (Some chromeScenario))).

Definition chromeMonitorThenTwoRows : Monitor :=
  Eval vm_compute in
    default chromeMonitor
      (snd <$> Monitor_GetFilteredProcesses rangeInOrder insertionSort 2
                 chromeMonitor (Some twoRows)).

Definition chromeMonitorRescanned : Monitor :=
  Eval vm_compute in
    default chromeMonitor
      (snd <$> Monitor_GetFilteredProcesses rangeInOrder insertionSort 2
                 chromeMonitor (Some chromeScenario)).

(** The row of the chrome parent, expanded. *)
Definition expandedChromeParent : ProcessInfo :=
  mkProcessInfo 1 0 "chrome" 5.5%float (130 * MB) 130%float
    [mkChildInfo 2 "chrome-gpu" 2.3%float (45 * MB) true]
    true 3.2%float (85 * MB).

(** A display on a terminal of 80 columns and 24 rows: as created,
    after a first refresh that finds the two rows of [twoRows], and after
    a first refresh that finds the chrome scenario followed by Enter. *)
Definition displayStart : ui.Display := ui.New (New defaultConfig).

Definition terminal : option (Z * Z) := Some (80, 24).

Definition displayTwoRows : ui.Display :=
  Eval vm_compute in
    default displayStart
      (ui.tick rangeInOrder insertionSort 2 terminal (Some twoRows) displayStart).

Definition displayChromeExpanded : ui.Display :=
  Eval vm_compute in
    let d := default displayStart
               (ui.tick rangeInOrder insertionSort 2 terminal (Some chromeScenario)
                  displayStart) in
    default d (snd <$> ui.HandleInput terminal ui.KeyEnter d).

(** * Lemmas and theorems *)

(** ** The relation classifier *)

Section ClassifierFacts.

Lemma slice_to_prefix (p s : string) :
  (Go.len p <= Go.len s)%nat ∧ Go.slice_to s (Go.len p) = p ↔ isPrefixOf p s.
Proof.
  unfold Go.len, Go.slice_to, isPrefixOf. revert s.
  induction p as [|a p IH]; intros s; simpl.
  - split; [intros _; exists s; reflexivity|intros _].
    split; [lia|]. destruct s; reflexivity.
  - destruct s as [|b s]; simpl.
    + split; [intros [Hl _]; lia|intros [t Ht]; discriminate].
    + split.
      * intros [Hl Hs]. injection Hs as -> Hs.
        destruct (proj1 (IH s)) as [t ->]; [split; [lia|assumption]|].
        exists t. reflexivity.
      * intros [t Ht]. injection Ht as -> ->.
        destruct (proj2 (IH (p +:+ t)%string)) as [Hl Hs]; [by exists t|].
        split; [lia|]. by rewrite Hs.
Qed.

Lemma length_app_string (s t : string) :
  String.length (s +:+ t) = (String.length s + String.length t)%nat.
Proof. induction s; simpl; [reflexivity|by rewrite IHs]. Qed.

Lemma slice_to_proper_prefix (p s : string) :
  (Go.len p < Go.len s)%nat ∧ Go.slice_to s (Go.len p) = p ↔ isProperPrefixOf p s.
Proof.
  split.
  - intros [Hl Hs].
    destruct (proj1 (slice_to_prefix p s)) as [t ->]; [split; [lia|done]|].
    exists t. split; [|done]. intros ->. unfold Go.len in Hl.
    rewrite length_app_string in Hl. simpl in Hl. lia.
  - intros (t & Hne & ->).
    destruct (proj2 (slice_to_prefix p (p +:+ t)%string)) as [_ Hs]; [by exists t|].
    split; [|done]. unfold Go.len. rewrite length_app_string.
    destruct t; [done|simpl; lia].
Qed.

Lemma systemParents_spec (n : string) :
  Go.index_bool systemParents n = true ↔ isSystemInitName n.
Proof.
  unfold Go.index_bool, systemParents, isSystemInitName.
  destruct (decide (n = "systemd"%string)) as [->|H1]; [by intuition|].
  rewrite lookup_insert_ne by done.
  destruct (decide (n = "init"%string)) as [->|H2].
  { rewrite lookup_insert_eq. by intuition. }
  rewrite lookup_insert_ne by done.
  destruct (decide (n = "launchd"%string)) as [->|H3].
  { rewrite lookup_insert_eq. by intuition. }
  rewrite lookup_insert_ne by done. rewrite lookup_empty. simpl.
  split; [done|]. intros [?|[?|?]]; done.
Qed.

Lemma isRelatedToParent_names a a' b b' :
  Name a = Name a' → Name b = Name b' →
  isRelatedToParent a b = isRelatedToParent a' b'.
Proof. unfold isRelatedToParent. by intros -> ->. Qed.

Lemma isThread_fields a a' b b' :
  Name a = Name a' → MemoryBytes a = MemoryBytes a' →
  Name b = Name b' → MemoryBytes b = MemoryBytes b' →
  isThread a b = isThread a' b'.
Proof. unfold isThread. by intros -> -> -> ->. Qed.

Lemma guarded_slice_true (strict : bool) (p s : string) :
  ((if strict then (Go.len p <? Go.len s)%nat else (Go.len p <=? Go.len s)%nat)
     && String.eqb (Go.slice_to s (Go.len p)) p = true) ↔
  (if strict then isProperPrefixOf p s else isPrefixOf p s).
Proof.
  rewrite andb_true_iff, String.eqb_eq. destruct strict.
  - rewrite Nat.ltb_lt. apply slice_to_proper_prefix.
  - rewrite Nat.leb_le. apply slice_to_prefix.
Qed.

Lemma append_empty_r (s : string) : (s +:+ "")%string = s.
Proof.
  induction s as [|a s IH]; [done|].
  change (String a (s +:+ "") = String a s). by f_equal.
Qed.

Lemma isPrefixOf_refl s : isPrefixOf s s.
Proof. exists ""%string. by rewrite append_empty_r. Qed.

Lemma isPrefixOf_antisym p s : isPrefixOf p s → isPrefixOf s p → s = p.
Proof.
  intros [t Ht] [u Hu].
  assert (String.length t = 0%nat) as Hlen.
  { apply (f_equal String.length) in Ht, Hu. rewrite length_app_string in Ht, Hu. lia. }
  destruct t; [|done]. by rewrite Ht, append_empty_r.
Qed.

Lemma not_system_parent n :
  ¬ isSystemInitName n → Go.index_bool systemParents n = false.
Proof.
  intros Hn. destruct (Go.index_bool systemParents n) eqn:H; [|done].
  by apply systemParents_spec in H.
Qed.

End ClassifierFacts.

(** C7: for a parent whose name is not a system-init name,
    [isRelatedToParent] holds exactly when the two names are equal or
    one is a prefix of the other, byte for byte; when both prefix
    directions hold at once the names are identical and the pair is
    related. *)
Theorem isRelatedToParent_name_matching child parent :
  ¬ isSystemInitName (Name parent) →
  (isRelatedToParent child parent = true ↔
     Name child = Name parent ∨
     isPrefixOf (Name parent) (Name child) ∨
     isPrefixOf (Name child) (Name parent)) ∧
  (isPrefixOf (Name parent) (Name child) → isPrefixOf (Name child) (Name parent) →
     Name child = Name parent ∧ isRelatedToParent child parent = true).
Proof.
  intros Hsys. unfold isRelatedToParent. rewrite (not_system_parent _ Hsys).
  pose proof (guarded_slice_true false (Name parent) (Name child)) as H1.
  pose proof (guarded_slice_true false (Name child) (Name parent)) as H2.
  simpl in H1, H2. split.
  - destruct (String.eqb_spec (Name child) (Name parent)) as [Heq|Hne]; [by intuition|].
    destruct (_ && _) eqn:E1 in |- *.
    { split; [|done]. intros _. right. left. by apply H1. }
    destruct (_ && _) eqn:E2 in |- *.
    { split; [|done]. intros _. right. right. by apply H2. }
    split; [done|]. intros [?|[Hp|Hp]]; [done| |].
    + apply H1 in Hp. congruence.
    + apply H2 in Hp. congruence.
  - intros Hpc Hcp. rewrite (isPrefixOf_antisym _ _ Hpc Hcp).
    by rewrite String.eqb_refl.
Qed.

Lemma isRelatedToParent_name_matching_witness :
  (isRelatedToParent (mkProcessInfo 2 1 "chrome-gpu" 0 0 0 [] false 0 0)
     (mkProcessInfo 1 0 "chrome" 0 0 0 [] false 0 0) = true ↔
     "chrome-gpu"%string = "chrome"%string ∨
     isPrefixOf "chrome" "chrome-gpu" ∨ isPrefixOf "chrome-gpu" "chrome") ∧
  (isPrefixOf "chrome" "chrome-gpu" → isPrefixOf "chrome-gpu" "chrome" →
     "chrome-gpu"%string = "chrome"%string ∧
     isRelatedToParent (mkProcessInfo 2 1 "chrome-gpu" 0 0 0 [] false 0 0)
       (mkProcessInfo 1 0 "chrome" 0 0 0 [] false 0 0) = true).
Proof.
  apply (isRelatedToParent_name_matching
           (mkProcessInfo 2 1 "chrome-gpu" 0 0 0 [] false 0 0)
           (mkProcessInfo 1 0 "chrome" 0 0 0 [] false 0 0)).
  simpl. intros [H|[H|H]]; discriminate H.
Defined.

(** C8: [isThread] holds exactly when the child's name equals the
    parent's, or has it as a proper prefix, or the parent's memory is
    positive and the float64 quotient of the two memory sizes is below
    0.1; it is a function of the names and memory sizes of the pair and
    of nothing else. *)
Theorem isThread_definition child parent :
  (isThread child parent = true ↔
     Name child = Name parent ∨
     isProperPrefixOf (Name parent) (Name child) ∨
     (0 < MemoryBytes parent ∧
      (Go.float64 (MemoryBytes child) / Go.float64 (MemoryBytes parent) <? 0.1)%float = true)) ∧
  (∀ child' parent',
     Name child' = Name child → MemoryBytes child' = MemoryBytes child →
     Name parent' = Name parent → MemoryBytes parent' = MemoryBytes parent →
     isThread child' parent' = isThread child parent).
Proof.
  split; [|intros; by apply isThread_fields].
  unfold isThread, memoryRatioBelowTenth.
  pose proof (guarded_slice_true true (Name parent) (Name child)) as H1. simpl in H1.
  destruct (String.eqb_spec (Name child) (Name parent)) as [Heq|Hne]; [by intuition|].
  destruct (_ && _) eqn:E1 in |- *.
  { split; [|done]. intros _. right. left. by apply H1. }
  destruct (_ && _) eqn:E2 in |- *.
  { split; [|done]. intros _. right. right.
    apply andb_true_iff in E2 as [Hpos Hlt]. split; [by apply Z.ltb_lt|done]. }
  split; [done|]. intros [?|[Hp|[Hpos Hlt]]]; [done| |].
  - apply H1 in Hp. congruence.
  - apply Z.ltb_lt in Hpos. rewrite Hpos, Hlt in E2. done.
Qed.

(** ** The aggregation store: basic facts *)

Section StoreFacts.

Lemma marked_dec st p : marked st p ∨ ¬ marked st p.
Proof. unfold marked. destruct (Go.index_bool _ _); [by left|by right]. Qed.

Lemma marked_update p f st q : marked (update p f st) q ↔ marked st q.
Proof. reflexivity. Qed.

Lemma marked_mark p st q : marked (mark p st) q ↔ q = p ∨ marked st q.
Proof.
  unfold marked, mark, Go.index_bool. simpl.
  destruct (decide (p = q)) as [->|Hne].
  - rewrite lookup_insert_eq. simpl. by intuition.
  - rewrite lookup_insert_ne by done. split; [by right|].
    by intros [->|?].
Qed.

Lemma lookup_update_eq p f st :
  allProcesses (update p f st) !! p = f <$> allProcesses st !! p.
Proof. unfold update. simpl. rewrite lookup_alter. by rewrite decide_True. Qed.

Lemma lookup_update_ne p f st q :
  p ≠ q → allProcesses (update p f st) !! q = allProcesses st !! q.
Proof. intros. unfold update. simpl. rewrite lookup_alter. by rewrite decide_False. Qed.

Lemma lookup_update_is_Some p f st q :
  is_Some (allProcesses (update p f st) !! q) ↔ is_Some (allProcesses st !! q).
Proof.
  destruct (decide (p = q)) as [->|Hne].
  - rewrite lookup_update_eq. apply fmap_is_Some.
  - by rewrite lookup_update_ne.
Qed.

Lemma lookup_mark p st : allProcesses (mark p st) = allProcesses st.
Proof. reflexivity. Qed.

End StoreFacts.

(** ** A proof rule for the loop over the children *)

Section LoopRule.

Context (self : Z → AggState → option AggState) (pid : Z).
Context (I : list Z → float → Z → bool → AggState → Prop).
Context (childPIDs : list Z).

(** One iteration re-establishes the invariant, whichever branch the
    body takes; [seen] is the part of the slice already visited. *)
Hypothesis step : ∀ seen c tc tm h st st1,
  c ∈ childPIDs → I seen tc tm h st → self c st = Some st1 →
  match allProcesses st1 !! c, allProcesses st1 !! pid with
  | Some ci, Some info =>
    if negb (isRelatedToParent ci info) then I (seen ++ [c]) tc tm h st1
    else I (seen ++ [c]) (tc + CPUPercent ci)%float (Go.uint64 (tm + MemoryBytes ci)) true
           (update pid (appendChild (childEntry ci info)) st1)
  | _, _ => I (seen ++ [c]) tc tm h st1
  end.

Lemma aggregateChildren_rule rest :
  ∀ seen tc tm h st tc' tm' h' st',
    rest ⊆ childPIDs → I seen tc tm h st →
    aggregateChildren self pid rest tc tm h st = Some (tc', tm', h', st') →
    I (seen ++ rest) tc' tm' h' st'.
Proof.
  induction rest as [|c rest IH]; intros seen tc tm h st tc' tm' h' st' Hsub HI Hrun.
  - simpl in Hrun. injection Hrun as <- <- <- <-. by rewrite app_nil_r.
  - simpl in Hrun.
    destruct (self c st) as [st1|] eqn:Hself; [|done].
    assert (Hc : c ∈ childPIDs) by (apply Hsub; left).
    assert (Hrest : rest ⊆ childPIDs) by (intros y Hy; apply Hsub; by right).
    pose proof (step seen c tc tm h st st1 Hc HI Hself) as Hstep.
    replace (seen ++ c :: rest) with ((seen ++ [c]) ++ rest)
      by (by rewrite <- app_assoc).
    destruct (allProcesses st1 !! c) as [ci|];
      [destruct (allProcesses st1 !! pid) as [info|]|].
    + destruct (negb (isRelatedToParent ci info)); eapply IH; eauto.
    + eapply IH; eauto.
    + eapply IH; eauto.
Qed.

End LoopRule.

(** ** Frame properties of [aggregateResources] *)

Section Frame.

Variable childrenMap : gmap Z (list Z).

Lemma aggregateResources_S fuel pid st :
  aggregateResources (S fuel) childrenMap pid st =
  if Go.index_bool (aggregated st) pid then Some st
  else
    match allProcesses st !! pid with
    | None => Some st
    | Some info =>
      match childrenMap !! pid with
      | None => Some (mark pid (update pid refreshMemoryMB st))
      | Some childPIDs =>
        match aggregateChildren (aggregateResources fuel childrenMap) pid childPIDs
                (CPUPercent info) (MemoryBytes info) false
                (update pid storeOriginals st) with
        | None => None
        | Some (totalCPU, totalMemory, hasRelatedChildren, st) =>
          Some (mark pid (if hasRelatedChildren
                          then update pid (storeTotals totalCPU totalMemory) st
                          else update pid refreshMemoryMB st))
        end
      end
    end.
Proof. reflexivity. Qed.

Lemma frame_refl st : frame st st.
Proof. unfold frame. by intuition. Qed.

Lemma frameBut_update x f st st' :
  ¬ marked st x → frameBut x st st' → frameBut x st (update x f st').
Proof.
  intros Hx (H1 & H2 & H3). split; [|split].
  - intros p Hp. destruct (H1 p Hp) as [Hm Hl]. split; [done|].
    rewrite lookup_update_ne; [done|]. intros ->. done.
  - intros p Hne Hp. rewrite lookup_update_ne by done. by apply H2.
  - intros p. rewrite lookup_update_is_Some. apply H3.
Qed.

Lemma frameBut_frame x st st1 st2 :
  frameBut x st st1 → frame st1 st2 → frameBut x st st2.
Proof.
  intros (H1 & H2 & H3) (G1 & G2 & G3). split; [|split].
  - intros p Hp. destruct (H1 p Hp) as [Hm Hl].
    destruct (G1 p Hm) as [Hm' Hl']. split; [done|congruence].
  - intros p Hne Hp.
    assert (¬ marked st1 p) as Hp1 by (intros Hm; by destruct (G1 p Hm)).
    rewrite (G2 p Hp). by apply H2.
  - intros p. rewrite G3. apply H3.
Qed.

Lemma frameBut_mark x st st' :
  ¬ marked st x → frameBut x st st' → frame st (mark x st').
Proof.
  intros Hx (H1 & H2 & H3). split; [|split].
  - intros p Hp. destruct (H1 p Hp). split; [|done].
    apply marked_mark. by right.
  - intros p Hp. rewrite lookup_mark. apply H2.
    + intros ->. apply Hp, marked_mark. by left.
    + intros Hm. apply Hp, marked_mark. by right.
  - intros p. rewrite lookup_mark. apply H3.
Qed.

Lemma aggregateResources_frame fuel :
  ∀ x st st', aggregateResources fuel childrenMap x st = Some st' → frame st st'.
Proof.
  induction fuel as [|fuel IH]; intros x st st' Hrun; [done|].
  rewrite aggregateResources_S in Hrun.
  destruct (Go.index_bool (aggregated st) x) eqn:Hm.
  { injection Hrun as <-. apply frame_refl. }
  assert (Hx : ¬ marked st x) by (unfold marked; congruence).
  destruct (allProcesses st !! x) as [info|] eqn:Hinfo.
  2: { injection Hrun as <-. apply frame_refl. }
  assert (Hrefl : frameBut x st st) by (unfold frameBut; by intuition).
  destruct (childrenMap !! x) as [cs|] eqn:Hcs.
  2: { injection Hrun as <-.
       apply frameBut_mark; [done|]. by apply frameBut_update. }
  destruct (aggregateChildren _ _ _ _ _ _ _) as [[[[tc tm] h] st1]|] eqn:Hloop; [|done].
  injection Hrun as <-.
  apply frameBut_mark; [done|].
  assert (frameBut x st st1) as Hfr.
  { eapply (aggregateChildren_rule _ x (fun _ _ _ _ s => frameBut x st s) cs)
      with (seen := []); [|done| |exact Hloop].
    - intros seen c tc0 tm0 h0 s s1 _ HI Hself.
      apply IH in Hself.
      pose proof (frameBut_frame _ _ _ _ HI Hself) as HI1.
      destruct (allProcesses s1 !! c); [|done].
      destruct (allProcesses s1 !! x); [|done].
      destruct (negb _); [done|]. by apply frameBut_update.
    - by apply frameBut_update. }
  destruct h; by apply frameBut_update.
Qed.

(** A completed call on a present record leaves it aggregated. *)
Lemma aggregateResources_marks fuel x st st' :
  aggregateResources fuel childrenMap x st = Some st' →
  is_Some (allProcesses st !! x) → marked st' x.
Proof.
  destruct fuel as [|fuel]; [done|]. rewrite aggregateResources_S.
  intros Hrun [info Hinfo].
  destruct (Go.index_bool (aggregated st) x) eqn:Hm.
  { by injection Hrun as <-. }
  rewrite Hinfo in Hrun.
  destruct (childrenMap !! x) as [cs|].
  - destruct (aggregateChildren _ _ _ _ _ _ _) as [[[[tc tm] h] st1]|]; [|done].
    injection Hrun as <-. apply marked_mark. by left.
  - injection Hrun as <-. apply marked_mark. by left.
Qed.

(** No record of a pending set is entered and completed: in particular
    a call on a record of a set closed under "has a child in the set"
    never completes. *)
Lemma aggregateResources_pending fuel :
  ∀ (S : Z → Prop) x st st',
    pending childrenMap S x st →
    aggregateResources fuel childrenMap x st = Some st' →
    ¬ S x ∧ ∀ s, S s → ¬ marked st' s.
Proof.
  induction fuel as [|fuel IH]; intros S x st st' Hpend Hrun; [done|].
  rewrite aggregateResources_S in Hrun.
  destruct (Go.index_bool (aggregated st) x) eqn:Hm.
  { injection Hrun as <-. split; [|intros s Hs; by apply Hpend].
    intros Hs. by apply (Hpend x Hs). }
  destruct (allProcesses st !! x) as [info|] eqn:Hinfo.
  2: { injection Hrun as <-. split; [|intros s Hs; by apply Hpend].
       intros Hs. destruct (Hpend x Hs) as (_ & [? Hsome] & _). congruence. }
  destruct (childrenMap !! x) as [cs|] eqn:Hcs.
  2: { injection Hrun as <-.
       assert (¬ S x) as HnS.
       { intros Hs. destruct (Hpend x Hs) as (_ & _ & cs & c & Hcs' & _). congruence. }
       split; [done|]. intros s Hs Hmk. apply marked_mark in Hmk as [->|Hmk]; [done|].
       by apply (Hpend s Hs). }
  destruct (aggregateChildren _ _ _ _ _ _ _) as [[[[tc tm] h] st1]|] eqn:Hloop; [|done].
  injection Hrun as <-.
  set (S' := fun s => S s ∨ s = x).
  assert ((∀ s, S' s → ¬ marked st1 s ∧ is_Some (allProcesses st1 !! s)) ∧
          (∀ c, c ∈ [] ++ cs → ¬ S' c)) as [Hun Hseen].
  { eapply (aggregateChildren_rule _ x
              (fun seen _ _ _ s =>
                 (∀ s0, S' s0 → ¬ marked s s0 ∧ is_Some (allProcesses s !! s0)) ∧
                 (∀ c, c ∈ seen → ¬ S' c)) cs)
      with (seen := []); [|done| |exact Hloop].
    - intros seen c tc0 tm0 h0 s s1 Hc [HI1 HI2] Hself.
      assert (pending childrenMap S' c s) as Hp.
      { intros s0 Hs0. destruct (HI1 s0 Hs0) as [Hu He]. split; [done|split; [done|]].
        destruct Hs0 as [Hs0| ->].
        - destruct (Hpend s0 Hs0) as (_ & _ & cs0 & c0 & Hcs0 & Hin & Hor).
          exists cs0, c0. split; [done|split; [done|]]. left. exact Hor.
        - exists cs, c. by intuition. }
      destruct (IH S' c s s1 Hp Hself) as [HnS Hun'].
      destruct (aggregateResources_frame _ _ _ _ Hself) as (_ & _ & Hdom).
      assert ((∀ s0, S' s0 → ¬ marked s1 s0 ∧ is_Some (allProcesses s1 !! s0)) ∧
              (∀ c0, c0 ∈ seen ++ [c] → ¬ S' c0)) as Hnext.
      { split.
        - intros s0 Hs0. split; [by apply Hun'|]. apply Hdom. by apply HI1.
        - intros c0 [Hin|Hin]%elem_of_app; [by apply HI2|].
          apply list_elem_of_singleton in Hin as ->. done. }
      destruct (allProcesses s1 !! c); [|done].
      destruct (allProcesses s1 !! x); [|done].
      destruct (negb _); [done|].
      destruct Hnext as [Hn1 Hn2]. split; [|done].
      intros s0 Hs0. rewrite marked_update, lookup_update_is_Some. by apply Hn1.
    - split; [|by intros c Hc%elem_of_nil].
      intros s0 Hs0. rewrite marked_update, lookup_update_is_Some.
      destruct Hs0 as [Hs0| ->].
      + destruct (Hpend s0 Hs0) as (? & ? & _). done.
      + split; [unfold marked; congruence|by eexists]. }
  simpl in Hseen.
  assert (¬ S x) as HnS.
  { intros Hs. destruct (Hpend x Hs) as (_ & _ & cs0 & c0 & Hcs0 & Hin & Hor).
    assert (cs0 = cs) as -> by congruence.
    apply (Hseen c0 Hin). exact Hor. }
  split; [done|].
  intros s Hs Hmk. apply marked_mark in Hmk as [->|Hmk]; [done|].
  assert (¬ marked st1 s) as Hu by (apply Hun; by left).
  apply Hu. by destruct h.
Qed.

End Frame.

(** ** What a completed aggregation computes *)

Section Entries.

Lemma relatedEntry_lookup st st' parent c :
  allProcesses st' !! c = allProcesses st !! c →
  relatedEntry st' parent c = relatedEntry st parent c.
Proof. unfold relatedEntry. by intros ->. Qed.

Lemma relatedEntry_update x f st parent c :
  (∀ i, sameSample (f i) i) →
  relatedEntry (update x f st) parent c = relatedEntry st parent c.
Proof.
  intros Hf. destruct (decide (x = c)) as [->|Hne].
  - unfold relatedEntry. rewrite lookup_update_eq.
    destruct (allProcesses st !! c) as [ci|]; [|done]. simpl.
    destruct (Hf ci) as (H1 & H2 & H3 & H4).
    rewrite (isRelatedToParent_names (f ci) ci parent parent) by done.
    destruct (isRelatedToParent ci parent); [|done].
    unfold childEntry. rewrite H1, H2, H3, H4.
    by rewrite (isThread_fields (f ci) ci parent parent).
  - apply relatedEntry_lookup. by apply lookup_update_ne.
Qed.

Lemma relatedEntries_ext st st' parent cs :
  (∀ c, c ∈ cs → relatedEntry st' parent c = relatedEntry st parent c) →
  relatedEntries st' parent cs = relatedEntries st parent cs.
Proof.
  unfold relatedEntries. induction cs as [|c cs IH]; intros H; [done|].
  assert (omap (relatedEntry st' parent) cs = omap (relatedEntry st parent) cs) as IH'.
  { apply IH. intros c' Hc'. apply H. by right. }
  simpl. rewrite H by left.
  destruct (relatedEntry st parent c); [f_equal|]; exact IH'.
Qed.

Lemma relatedEntries_snoc st parent cs c :
  relatedEntries st parent (cs ++ [c]) =
  relatedEntries st parent cs ++
    match relatedEntry st parent c with Some e => [e] | None => [] end.
Proof.
  unfold relatedEntries. rewrite omap_app. simpl.
  by destruct (relatedEntry st parent c).
Qed.

Lemma sumCPU_snoc start es e :
  sumCPU start (es ++ [e]) = (sumCPU start es + ChildCPUPercent e)%float.
Proof. unfold sumCPU. by rewrite fold_left_app. Qed.

Lemma sumMemory_snoc start es e :
  sumMemory start (es ++ [e]) = Go.uint64 (sumMemory start es + ChildMemoryBytes e).
Proof. unfold sumMemory. by rewrite fold_left_app. Qed.

Lemma sameSample_refreshMemoryMB i : sameSample (refreshMemoryMB i) i.
Proof. by repeat split. Qed.
Lemma sameSample_storeOriginals i : sameSample (storeOriginals i) i.
Proof. by repeat split. Qed.
Lemma sameSample_appendChild e i : sameSample (appendChild e i) i.
Proof. by repeat split. Qed.

Lemma set_Children_same i : set_Children (Children i) i = i.
Proof. by destruct i. Qed.

Lemma appendChild_set_Children e l i :
  appendChild e (set_Children l i) = set_Children (l ++ [e]) i.
Proof. reflexivity. Qed.

End Entries.

Section Invariant.

Variable childrenMap : gmap Z (list Z).
Variable s0 : gmap Z ProcessInfo.

Lemma goodMarked_transfer st st' p info0 info :
  goodMarked childrenMap st p info0 info →
  (∀ c, marked st c → marked st' c) →
  (∀ c, is_Some (allProcesses st' !! c) → is_Some (allProcesses st !! c)) →
  (∀ c, (is_Some (allProcesses st !! c) → marked st c) →
        relatedEntry st' info0 c = relatedEntry st info0 c) →
  goodMarked childrenMap st' p info0 info.
Proof.
  unfold goodMarked. destruct (childrenMap !! p) as [cs|]; [|done].
  intros [-> Hm] Hmono Hdom Hrel. split.
  - f_equal. symmetry. apply relatedEntries_ext. intros c Hc. apply Hrel. by apply Hm.
  - intros c Hc Hs. apply Hmono, Hm; [done|]. by apply Hdom.
Qed.

(** A write to a record being worked on, which keeps what parents read
    from it, preserves the invariant outside the records worked on. *)
Lemma good_update (S S' : Z → Prop) x f st :
  (∀ p, S p → S' p) → S' x → (∀ i, sameSample (f i) i) →
  good childrenMap s0 S st → good childrenMap s0 S' (update x f st).
Proof.
  intros Hsub Hx Hf [Hdom Hgood]. split.
  - intros p. rewrite lookup_update_is_Some. apply Hdom.
  - intros p info0 Hp HnS.
    assert (p ≠ x) as Hne by (intros ->; done).
    destruct (Hgood p info0 Hp) as (info & Hl & Hmk & Hun); [by auto|].
    exists info. rewrite lookup_update_ne by done. split; [done|]. split; [|done].
    intros Hm. eapply goodMarked_transfer; [by apply Hmk|done| |].
    + intros c. by rewrite lookup_update_is_Some.
    + intros c _. by apply relatedEntry_update.
Qed.

Lemma loopInv_step S' x info0 seen c tc tm h s s1 :
  S' x →
  loopInv childrenMap s0 S' x info0 seen tc tm h s →
  good childrenMap s0 S' s1 →
  ¬ S' c → (∀ q, S' q → ¬ marked s1 q) →
  frame s s1 →
  (is_Some (allProcesses s !! c) → marked s1 c) →
  match allProcesses s1 !! c, allProcesses s1 !! x with
  | Some ci, Some info =>
    if negb (isRelatedToParent ci info) then loopInv childrenMap s0 S' x info0 (seen ++ [c]) tc tm h s1
    else loopInv childrenMap s0 S' x info0 (seen ++ [c]) (tc + CPUPercent ci)%float
           (Go.uint64 (tm + MemoryBytes ci)) true
           (update x (appendChild (childEntry ci info)) s1)
  | _, _ => loopInv childrenMap s0 S' x info0 (seen ++ [c]) tc tm h s1
  end.
Proof.
  intros Hx (P1 & P2 & P3 & P4 & P5 & P6 & P7) Hgood HnS Hun (F1 & F2 & F3) Hmk.
  set (es := relatedEntries s info0 seen) in *.
  assert (relatedEntries s1 info0 seen = es) as Hes.
  { apply relatedEntries_ext. intros c' Hc'. apply relatedEntry_lookup.
    destruct (P7 c' Hc') as [_ Hm'].
    destruct (allProcesses s !! c') as [i|] eqn:Hl.
    - destruct (F1 c') as [_ ->]; [apply Hm'; by eexists|done].
    - destruct (allProcesses s1 !! c') as [i|] eqn:Hl1; [|done].
      assert (is_Some (allProcesses s !! c')) as [? ?] by (apply F3; by eexists).
      congruence. }
  assert (allProcesses s1 !! x = allProcesses s !! x) as HX by (apply F2; by apply Hun).
  assert (c ≠ x) as Hcx by (intros ->; done).
  assert (∀ q, S' q → ¬ marked s1 q ∧ is_Some (allProcesses s1 !! q)) as P1'.
  { intros q Hq. split; [by apply Hun|]. apply F3. by apply P1. }
  assert (∀ c', c' ∈ seen ++ [c] →
            c' ≠ x ∧ (is_Some (allProcesses s1 !! c') → marked s1 c')) as P7'.
  { intros c' [Hin|Hin]%elem_of_app.
    - destruct (P7 c' Hin) as [? Hm']. split; [done|]. intros Hs.
      apply F1, Hm'. by apply F3.
    - apply list_elem_of_singleton in Hin as ->. split; [done|].
      intros Hs. apply Hmk. by apply F3. }
  assert (∀ tail, relatedEntry s1 info0 c = tail →
            relatedEntries s1 info0 (seen ++ [c]) =
            es ++ match tail with Some e => [e] | None => [] end) as Hsnoc.
  { intros tail <-. by rewrite relatedEntries_snoc, Hes. }
  assert (relatedEntry s1 info0 c = None →
            loopInv childrenMap s0 S' x info0 (seen ++ [c]) tc tm h s1) as Hskip.
  { intros Hnone. unfold loopInv. rewrite (Hsnoc None Hnone), app_nil_r.
    rewrite HX, P3. repeat (split; [assumption || reflexivity|]). assumption. }
  destruct (allProcesses s1 !! c) as [ci|] eqn:Hci.
  2: { apply Hskip. unfold relatedEntry. by rewrite Hci. }
  rewrite HX, P3.
  set (infoX := set_Children (Children info0 ++ es) (storeOriginals info0)).
  assert (isRelatedToParent ci infoX = isRelatedToParent ci info0) as Hrel
    by (by apply isRelatedToParent_names).
  assert (childEntry ci infoX = childEntry ci info0) as Hent.
  { unfold childEntry. f_equal; by apply isThread_fields. }
  rewrite Hrel, Hent.
  destruct (isRelatedToParent ci info0) eqn:Hr; simpl.
  2: { apply Hskip. unfold relatedEntry. by rewrite Hci, Hr. }
  assert (relatedEntry s1 info0 c = Some (childEntry ci info0)) as Hsome
    by (unfold relatedEntry; by rewrite Hci, Hr).
  assert (relatedEntries (update x (appendChild (childEntry ci info0)) s1) info0
            (seen ++ [c]) = es ++ [childEntry ci info0]) as Hes2.
  { rewrite <- (Hsnoc _ Hsome). apply relatedEntries_ext. intros c' _.
    apply relatedEntry_update, sameSample_appendChild. }
  unfold loopInv. rewrite Hes2. split; [|split; [|split; [|split; [|split; [|split]]]]].
  - intros q Hq. rewrite marked_update, lookup_update_is_Some. by apply P1'.
  - eapply good_update; [|exact Hx|apply sameSample_appendChild|exact Hgood]. done.
  - rewrite lookup_update_eq, HX, P3. simpl. f_equal.
    rewrite appendChild_set_Children. by rewrite <- app_assoc.
  - rewrite sumCPU_snoc. by rewrite P4.
  - rewrite sumMemory_snoc. by rewrite P5.
  - by destruct es.
  - intros c' Hc'. rewrite marked_update, lookup_update_is_Some. by apply P7'.
Qed.

End Invariant.

Section Aggregation.

Variable childrenMap : gmap Z (list Z).
Variable s0 : gmap Z ProcessInfo.

Lemma pending_child (S : Z → Prop) x cs c st s :
  pending childrenMap S x st →
  childrenMap !! x = Some cs → c ∈ cs →
  (∀ q, S q ∨ q = x → ¬ marked s q ∧ is_Some (allProcesses s !! q)) →
  pending childrenMap (fun q => S q ∨ q = x) c s.
Proof.
  intros Hpend Hcs Hc Hs q Hq. destruct (Hs q Hq) as [Hu He].
  split; [done|split; [done|]]. destruct Hq as [Hq| ->].
  - destruct (Hpend q Hq) as (_ & _ & cs0 & c0 & Hcs0 & Hin & Hor).
    exists cs0, c0. split; [done|split; [done|]]. left. exact Hor.
  - exists cs, c. by intuition.
Qed.

Lemma aggregatedRecord_final info0 es tc tm :
  tc = sumCPU (CPUPercent info0) es → tm = sumMemory (MemoryBytes info0) es →
  (if match es with [] => false | _ => true end
   then storeTotals tc tm else refreshMemoryMB)
    (set_Children (Children info0 ++ es) (storeOriginals info0))
  = aggregatedRecord info0 es.
Proof.
  intros -> ->. destruct es as [|e es]; [|done].
  unfold aggregatedRecord. rewrite app_nil_r.
  change (Children info0) with (Children (storeOriginals info0)).
  by rewrite set_Children_same.
Qed.

(** The aggregation invariant is kept by every completed call. *)
Lemma aggregateResources_good fuel :
  ∀ (S : Z → Prop) x st st',
    pending childrenMap S x st → good childrenMap s0 S st →
    aggregateResources fuel childrenMap x st = Some st' →
    good childrenMap s0 S st'.
Proof.
  induction fuel as [|fuel IH]; intros S x st st' Hpend Hgood Hrun; [done|].
  destruct (aggregateResources_pending _ _ _ _ _ _ Hpend Hrun) as [HnS _].
  rewrite aggregateResources_S in Hrun.
  destruct (Go.index_bool (aggregated st) x) eqn:Hm.
  { by injection Hrun as <-. }
  assert (Hx : ¬ marked st x) by (unfold marked; congruence).
  destruct (allProcesses st !! x) as [info|] eqn:Hinfo.
  2: { by injection Hrun as <-. }
  destruct Hgood as [Hdom Hgood].
  destruct (Hdom x) as [info0 Hinfo0]; [by eexists|].
  destruct (Hgood x info0 Hinfo0 HnS) as (info' & Hinfo' & _ & Huntouched).
  assert (info = info0) as -> by (rewrite <- (Huntouched Hx); congruence).
  clear info' Hinfo' Huntouched.
  (* what is left to show once the record under [x] is final *)
  assert (∀ g s es,
    (∀ q, S q ∨ q = x → ¬ marked s q ∧ is_Some (allProcesses s !! q)) →
    good childrenMap s0 (fun q => S q ∨ q = x) s →
    g <$> allProcesses s !! x = Some es →
    goodMarked childrenMap (mark x (update x g s)) x info0 es →
    good childrenMap s0 S (mark x (update x g s))) as Hfinish.
  { intros g s es P1 [Gdom Ggood] Hes Hgm. split.
    - intros p. rewrite lookup_mark, lookup_update_is_Some. apply Gdom.
    - intros p i0 Hp HnSp. destruct (decide (p = x)) as [->|Hne].
      + assert (i0 = info0) as -> by congruence.
        exists es. rewrite lookup_mark, lookup_update_eq.
        split; [done|]. split; [done|]. intros Hnm. exfalso. apply Hnm, marked_mark. by left.
      + destruct (Ggood p i0 Hp) as (i & Hl & Hmk & Hun); [by intros [?|?]|].
        exists i. rewrite lookup_mark, lookup_update_ne by done.
        split; [done|]. split.
        * intros Hmp. apply marked_mark in Hmp as [?|Hmp]; [done|].
          rewrite marked_update in Hmp.
          eapply goodMarked_transfer; [by apply Hmk| | |].
          -- intros c Hc. apply marked_mark. by right.
          -- intros c. by rewrite lookup_mark, lookup_update_is_Some.
          -- intros c Hc. apply relatedEntry_lookup. rewrite lookup_mark.
             apply lookup_update_ne. intros <-.
             destruct (P1 x) as [Hux Hex]; [by right|]. by apply Hux, Hc.
        * intros Hnm. apply Hun. intros Hmp. apply Hnm, marked_mark. by right. }
  destruct (childrenMap !! x) as [cs|] eqn:Hcs.
  2: { injection Hrun as <-.
       apply (Hfinish refreshMemoryMB st (refreshMemoryMB info0)).
       - intros q [Hq| ->]; [|split; [done|by eexists]].
         destruct (Hpend q Hq) as (? & ? & _). done.
       - split; [done|]. intros p i0 Hp HnSp. apply Hgood; [done|]. by auto.
       - by rewrite Hinfo.
       - unfold goodMarked. by rewrite Hcs. }
  destruct (aggregateChildren _ _ _ _ _ _ _) as [[[[tc tm] h] st1]|] eqn:Hloop; [|done].
  injection Hrun as <-.
  set (S' := fun q => S q ∨ q = x).
  assert (loopInv childrenMap s0 S' x info0 ([] ++ cs) tc tm h st1) as Hinv.
  { eapply (aggregateChildren_rule _ x (loopInv childrenMap s0 S' x info0) cs)
      with (seen := []); [|done| |exact Hloop].
    - intros seen c tc0 tm0 h0 s s1 Hc HI Hself.
      assert (pending childrenMap S' c s) as Hp.
      { eapply pending_child; eauto. apply HI. }
      destruct (aggregateResources_pending _ _ _ _ _ _ Hp Hself) as [HnSc Hunm].
      apply loopInv_step with (s := s); try done.
      + by right.
      + eapply IH; [exact Hp| |exact Hself]. apply HI.
      + eapply aggregateResources_frame; eauto.
      + eapply aggregateResources_marks; eauto.
    - assert (∀ s, relatedEntries s info0 [] = []) as Hnil by done.
      unfold loopInv. rewrite !Hnil, app_nil_r.
      split; [|split; [|split; [|split; [|split; [|split]]]]]; try done.
      + intros q Hq. rewrite marked_update, lookup_update_is_Some.
        destruct Hq as [Hq| ->]; [|split; [done|by eexists]].
        destruct (Hpend q Hq) as (? & ? & _). done.
      + eapply good_update with (S := S); [by left|by right| |by split].
        apply sameSample_storeOriginals.
      + rewrite lookup_update_eq, Hinfo. simpl.
        change (Children info0) with (Children (storeOriginals info0)).
        by rewrite set_Children_same.
      + by intros c Hc%elem_of_nil. }
  simpl in Hinv. destruct Hinv as (P1 & P2 & P3 & P4 & P5 & P6 & P7).
  set (es := relatedEntries st1 info0 cs) in *.
  set (g := if h then storeTotals tc tm else refreshMemoryMB).
  replace (if h then update x (storeTotals tc tm) st1 else update x refreshMemoryMB st1)
    with (update x g st1) by (unfold g; by destruct h).
  apply (Hfinish g st1 (aggregatedRecord info0 es)); try done.
  - rewrite P3. simpl. f_equal. unfold g. rewrite P6.
    by apply aggregatedRecord_final.
  - unfold goodMarked. rewrite Hcs. split.
    + f_equal. symmetry. apply relatedEntries_ext. intros c Hc.
      apply relatedEntry_lookup. rewrite lookup_mark. apply lookup_update_ne.
      intros <-. by destruct (P7 x Hc).
    + intros c Hc. rewrite lookup_mark, lookup_update_is_Some.
      intros Hs. apply marked_mark. right. rewrite marked_update.
      by apply (P7 c Hc).
Qed.

End Aggregation.

(** ** The first two passes *)

Section Passes.

Lemma getProcessInfo_Some m p info m' :
  getProcessInfo m p = (Some info, m') →
  PID info = Pid p ∧ Children info = [] ∧
  procName p = Some (Name info) ∧
  procMemoryInfo p = Some (MemoryBytes info) ∧
  PPID info = default 0 (procPpid p) ∧
  CPUPercent info = default 0%float (procCPUPercent p).
Proof.
  unfold getProcessInfo.
  destruct (procName p) as [name|]; [|done].
  destruct (procMemoryInfo p) as [rss|]; [|done].
  intros [= <- _].
  destruct (m !! Pid p); destruct (procPpid p); destruct (procCPUPercent p); done.
Qed.

Lemma getProcessInfo_None m p m' :
  getProcessInfo m p = (None, m') ↔
  (procName p = None ∨ procMemoryInfo p = None) ∧ m' = m.
Proof.
  unfold getProcessInfo.
  destruct (procName p) as [name|]; [|by intuition congruence].
  destruct (procMemoryInfo p) as [rss|]; [|by intuition congruence].
  split; [done|]. intros [[?|?] _]; done.
Qed.

(** Every sample is stored under its own PID and has no entries yet. *)
Lemma collect_keys m processes p i :
  samplesOf m processes !! p = Some i → PID i = p ∧ Children i = [].
Proof.
  unfold samplesOf, collect.
  assert (∀ acc, (∀ p i, acc.1.2 !! p = Some i → PID i = p ∧ Children i = []) →
            ∀ p i, (fold_left collectStep processes acc).1.2 !! p = Some i →
                   PID i = p ∧ Children i = []) as Hgen.
  { induction processes as [|q qs IH]; intros acc Hacc; [done|].
    simpl. apply IH. destruct acc as [[m0 a0] c0]. unfold collectStep.
    destruct (getProcessInfo m0 q) as [[info|] m1] eqn:Hget; [|done].
    simpl. intros p' i'. destruct (decide (PID info = p')) as [<-|Hne].
    - rewrite lookup_insert_eq. intros [= <-].
      apply getProcessInfo_Some in Hget. by intuition.
    - rewrite lookup_insert_ne by done. apply Hacc. }
  apply Hgen. simpl. intros p' i'. by rewrite lookup_empty.
Qed.

Variable childrenMap : gmap Z (list Z).
Variable s0 : gmap Z ProcessInfo.

Lemma pending_idle x st : pending childrenMap idle x st.
Proof. by intros s Hs. Qed.

Lemma good_initial : good childrenMap s0 idle (mkAggState s0 ∅).
Proof.
  split; [done|]. intros p info0 Hp _. exists info0. split; [done|].
  split; [|done]. unfold marked, Go.index_bool. simpl. by rewrite lookup_empty.
Qed.

Lemma frame_trans st1 st2 st3 : frame st1 st2 → frame st2 st3 → frame st1 st3.
Proof.
  intros (H1 & H2 & H3) (G1 & G2 & G3). split; [|split].
  - intros p Hp. destruct (H1 p Hp) as [Hm Hl].
    destruct (G1 p Hm) as [Hm' Hl']. split; [done|congruence].
  - intros p Hp.
    assert (¬ marked st2 p) as Hp2 by (intros Hm; by destruct (G1 p Hm)).
    rewrite (G2 p Hp). by apply H2.
  - intros p. rewrite G3. apply H3.
Qed.

Lemma aggregateAll_good fuel pids :
  ∀ st st', good childrenMap s0 idle st →
    aggregateAll fuel childrenMap pids st = Some st' →
    good childrenMap s0 idle st' ∧ frame st st' ∧
    (∀ p, p ∈ pids → is_Some (allProcesses st !! p) → marked st' p).
Proof.
  induction pids as [|x pids IH]; intros st st' Hgood Hrun; simpl in Hrun.
  - injection Hrun as <-. split; [done|]. split; [apply frame_refl|].
    by intros p Hp%elem_of_nil.
  - destruct (aggregateResources fuel childrenMap x st) as [st1|] eqn:Hx; [|done].
    pose proof (aggregateResources_good _ _ _ _ _ _ _ (pending_idle x st) Hgood Hx) as Hg1.
    pose proof (aggregateResources_frame _ _ _ _ _ Hx) as Hf1.
    destruct (IH st1 st' Hg1 Hrun) as (Hg & Hf & Hm).
    split; [done|]. split; [by eapply frame_trans|].
    intros p [->|Hp]%elem_of_cons Hs.
    + apply Hf. eapply aggregateResources_marks; eauto.
    + apply Hm; [done|]. by apply Hf1.
Qed.

Lemma sumMemory_mod es : ∀ a,
  es ≠ [] → sumMemory a es = Go.uint64 (a + totalChildMemory es).
Proof.
  induction es as [|e es IH]; intros a Hne; [done|].
  unfold sumMemory. simpl. destruct es as [|e' es].
  - simpl. f_equal. lia.
  - fold (sumMemory (Go.uint64 (a + ChildMemoryBytes e)) (e' :: es)).
    rewrite IH by done. unfold Go.uint64.
    rewrite Zplus_mod_idemp_l. f_equal.
    change (totalChildMemory (e :: e' :: es))
      with (ChildMemoryBytes e + totalChildMemory (e' :: es)). lia.
Qed.

End Passes.

(** ** The aggregated store *)

Section AggregatedStore.

Variable range : ∀ A, nat → gmap Z A → list (Z * A).

Lemma aggregatePass_good fuel s0 childrenMap st :
  aggregatePass range fuel s0 childrenMap = Some st →
  good childrenMap s0 idle st.
Proof.
  unfold aggregatePass. intros Hrun.
  by destruct (aggregateAll_good childrenMap s0 fuel _ _ _
                 (good_initial childrenMap s0) Hrun).
Qed.

Lemma aggregatedRecord_fields i0 es :
  PID (aggregatedRecord i0 es) = PID i0 ∧
  PPID (aggregatedRecord i0 es) = PPID i0 ∧
  Name (aggregatedRecord i0 es) = Name i0 ∧
  ParentCPU (aggregatedRecord i0 es) = CPUPercent i0 ∧
  ParentMemory (aggregatedRecord i0 es) = MemoryBytes i0 ∧
  CPUPercent (aggregatedRecord i0 es) = sumCPU (CPUPercent i0) es ∧
  MemoryBytes (aggregatedRecord i0 es) = sumMemory (MemoryBytes i0) es ∧
  (Children i0 = [] → Children (aggregatedRecord i0 es) = es).
Proof.
  destruct es as [|e es]; simpl; repeat (split; [reflexivity|]); by intros ->.
Qed.

Lemma good_fields childrenMap s0 st p i :
  good childrenMap s0 idle st → allProcesses st !! p = Some i →
  ∃ i0, s0 !! p = Some i0 ∧ PID i = PID i0 ∧ PPID i = PPID i0 ∧ Name i = Name i0.
Proof.
  intros [Hdom Hgood] Hi. destruct (Hdom p) as [i0 Hi0]; [by eexists|].
  exists i0. split; [done|].
  destruct (Hgood p i0 Hi0) as (i' & Hi' & Hmk & Hun); [by intros []|].
  assert (i' = i) as -> by congruence.
  destruct (marked_dec st p) as [Hm|Hm].
  - specialize (Hmk Hm). unfold goodMarked in Hmk.
    destruct (childrenMap !! p) as [cs|].
    + destruct Hmk as [-> _]. by destruct (relatedEntries st i0 cs).
    + by subst.
  - by rewrite (Hun Hm).
Qed.

(** A record that lists entries was aggregated from a sample with
    children, and is the [aggregatedRecord] of that sample. *)
Lemma good_with_children childrenMap s0 st p i :
  (∀ q j, s0 !! q = Some j → PID j = q ∧ Children j = []) →
  good childrenMap s0 idle st → allProcesses st !! p = Some i →
  Children i ≠ [] →
  ∃ i0 cs, s0 !! p = Some i0 ∧ childrenMap !! p = Some cs ∧
    i = aggregatedRecord i0 (relatedEntries st i0 cs) ∧
    Children i = relatedEntries st i0 cs.
Proof.
  intros Hkeys [Hdom Hgood] Hi Hne. destruct (Hdom p) as [i0 Hi0]; [by eexists|].
  destruct (Hkeys p i0 Hi0) as [_ Hnil].
  destruct (Hgood p i0 Hi0) as (i' & Hi' & Hmk & Hun); [by intros []|].
  assert (i' = i) as -> by congruence.
  destruct (marked_dec st p) as [Hm|Hm].
  2: { rewrite (Hun Hm) in Hne. done. }
  specialize (Hmk Hm). unfold goodMarked in Hmk.
  destruct (childrenMap !! p) as [cs|].
  2: { subst i. done. }
  destruct Hmk as [-> _]. exists i0, cs. repeat (split; [done|]).
  by apply aggregatedRecord_fields.
Qed.

End AggregatedStore.

(** ** Conservation of totals *)

(** C1, as stated, fails: on three same-named processes with CPU 0.1,
    0.2 and 0.3 the parent's aggregated CPU is (0.1 + 0.2) + 0.3 in
    float64, which differs from its original CPU plus the sum of its two
    entries, 0.1 + (0.2 + 0.3), and from the exact sum of the three
    values. *)
Lemma conservation_not_exact :
  ∃ st info,
    aggregatePass rangeInOrder 2 (samplesOf ∅ threeOfAKind)
      (childrenMapOf ∅ threeOfAKind) = Some st ∧
    allProcesses st !! 1 = Some info ∧
    length (Children info) = 2%nat ∧
    (CPUPercent info =? ParentCPU info + totalChildCPU (Children info))%float = false ∧
    exactSumOfThree (CPUPercent info) (ParentCPU info) 0.2%float 0.3%float = false.
Proof.
  eexists _, _. split; [vm_compute; reflexivity|].
  split; [vm_compute; reflexivity|]. by vm_compute.
Qed.

(** C1 (amended): every record that lists at least one entry keeps its
    sample in [ParentCPU]/[ParentMemory]; its aggregated CPU is the
    float64 accumulation of the entries' CPU onto the original, one
    entry at a time in order; its aggregated memory is the original plus
    the sum of the entries' memory in uint64 arithmetic; and every entry
    carries the aggregated totals of a related child of the store, for
    which the same holds. *)
Theorem conservation_of_totals
    (range : ∀ A, nat → gmap Z A → list (Z * A)) fuel m processes st pid info :
  aggregatePass range fuel (samplesOf m processes) (childrenMapOf m processes) = Some st →
  allProcesses st !! pid = Some info →
  Children info ≠ [] →
  ∃ sample,
    samplesOf m processes !! pid = Some sample ∧
    ParentCPU info = CPUPercent sample ∧
    ParentMemory info = MemoryBytes sample ∧
    CPUPercent info = sumCPU (ParentCPU info) (Children info) ∧
    MemoryBytes info = Go.uint64 (ParentMemory info + totalChildMemory (Children info)) ∧
    ∀ e, e ∈ Children info →
      ∃ child, allProcesses st !! ChildPID e = Some child ∧
        isRelatedToParent child info = true ∧
        ChildCPUPercent e = CPUPercent child ∧
        ChildMemoryBytes e = MemoryBytes child.
Proof.
  intros Hrun Hi Hne. apply aggregatePass_good in Hrun.
  destruct (good_with_children _ _ _ _ _ (collect_keys m processes) Hrun Hi Hne)
    as (i0 & cs & Hi0 & Hcs & -> & HC).
  destruct (aggregatedRecord_fields i0 (relatedEntries st i0 cs))
    as (_ & _ & Hname & HpC & HpM & HcC & HcM & _).
  exists i0. rewrite HpC, HpM, HcC, HcM, HC. rewrite HC in Hne.
  repeat (split; [done|]). split; [by apply sumMemory_mod|].
  intros e (c & Hc & He)%list_elem_of_omap. unfold relatedEntry in He.
  destruct (allProcesses st !! c) as [ci|] eqn:Hci; [|done].
  destruct (isRelatedToParent ci i0) eqn:Hrel; [|done].
  injection He as <-. simpl.
  destruct (good_fields _ _ _ _ _ Hrun Hci) as (c0 & Hc0 & HP & _).
  destruct (collect_keys m processes c c0 Hc0) as [HP0 _].
  exists ci. rewrite HP, HP0. split; [done|]. split; [|done].
  by rewrite (isRelatedToParent_names ci ci _ i0).
Qed.

Lemma conservation_of_totals_witness :
  ∃ sample,
    samplesOf ∅ chromeScenario !! 1 = Some sample ∧
    ParentCPU chromeParent = CPUPercent sample ∧
    ParentMemory chromeParent = MemoryBytes sample ∧
    CPUPercent chromeParent = sumCPU (ParentCPU chromeParent) (Children chromeParent) ∧
    MemoryBytes chromeParent =
      Go.uint64 (ParentMemory chromeParent + totalChildMemory (Children chromeParent)) ∧
    ∀ e, e ∈ Children chromeParent →
      ∃ child, allProcesses chromeState !! ChildPID e = Some child ∧
        isRelatedToParent child chromeParent = true ∧
        ChildCPUPercent e = CPUPercent child ∧
        ChildMemoryBytes e = MemoryBytes child.
Proof.
  apply (conservation_of_totals rangeInOrder 2 ∅ chromeScenario chromeState 1 chromeParent);
    [vm_compute; reflexivity|vm_compute; reflexivity|discriminate].
Defined.

(** ** Cycles in the parent links *)

Section Cycles.

Lemma getProcessInfo_retrievable m p :
  retrievable p → ∃ info m', getProcessInfo m p = (Some info, m').
Proof.
  intros [[name Hn] [rss Hr]]. unfold getProcessInfo. rewrite Hn, Hr. by eexists _, _.
Qed.

(** A retrievable process of the scan is a key of the samples, and is
    listed among the children of its parent PID when that is not 0. *)
Lemma collect_member m processes p :
  p ∈ processes → retrievable p →
  is_Some (samplesOf m processes !! Pid p) ∧
  (default 0 (procPpid p) ≠ 0 →
   ∃ cs, childrenMapOf m processes !! default 0 (procPpid p) = Some cs ∧ Pid p ∈ cs).
Proof.
  intros Hin Hret. unfold samplesOf, childrenMapOf, collect.
  set (Q := fun acc : gmap Z ProcessInfo * gmap Z ProcessInfo * gmap Z (list Z) =>
              is_Some (acc.1.2 !! Pid p) ∧
              (default 0 (procPpid p) ≠ 0 →
               ∃ cs, acc.2 !! default 0 (procPpid p) = Some cs ∧ Pid p ∈ cs)).
  assert (∀ acc q, Q acc → Q (collectStep acc q)) as Hkeep.
  { intros [[m0 a0] c0] q [H1 H2]. unfold collectStep.
    destruct (getProcessInfo m0 q) as [[info|] m1]; [|done]. split; simpl.
    - destruct (decide (PID info = Pid p)) as [->|Hne].
      + rewrite lookup_insert_eq. by eexists.
      + by rewrite lookup_insert_ne.
    - intros Hnz. destruct (H2 Hnz) as (cs & Hcs & Hp). simpl in Hcs.
      destruct (PPID info =? 0); [by eexists|].
      destruct (decide (PPID info = default 0 (procPpid p))) as [->|Hne].
      + rewrite lookup_insert_eq, Hcs. eexists. split; [done|].
        simpl. apply elem_of_app. by left.
      + rewrite lookup_insert_ne by done. by eexists. }
  assert (∀ acc, Q (collectStep acc p)) as Hset.
  { intros [[m0 a0] c0]. unfold collectStep.
    destruct (getProcessInfo_retrievable m0 p Hret) as (info & m1 & Hget).
    rewrite Hget. apply getProcessInfo_Some in Hget as (HP & _ & _ & _ & HPP & _).
    split; simpl.
    - rewrite HP, lookup_insert_eq. by eexists.
    - rewrite HPP, HP. intros Hnz.
      destruct (Z.eqb_spec (default 0 (procPpid p)) 0) as [?|_]; [done|].
      rewrite lookup_insert_eq. eexists. split; [done|].
      apply elem_of_app. right. by left. }
  assert (∀ ps acc, Q acc ∨ p ∈ ps → Q (fold_left collectStep ps acc)) as Hgen.
  { induction ps as [|q ps IH]; intros acc [HQ|Hp]; simpl.
    - done.
    - by apply elem_of_nil in Hp.
    - apply IH. left. by apply Hkeep.
    - apply IH. apply elem_of_cons in Hp as [<-|Hp]; [left; apply Hset|by right]. }
  apply (Hgen processes). by right.
Qed.

(** While a set closed under "has a child in the set" contains a key
    of the list, the second pass does not complete. *)
Lemma aggregateAll_closed_set (childrenMap : gmap Z (list Z)) (S : Z → Prop) fuel pids :
  ∀ st, (∀ x, pending childrenMap S x st) →
    (∃ s, s ∈ pids ∧ S s) →
    aggregateAll fuel childrenMap pids st = None.
Proof.
  induction pids as [|x pids IH]; intros st Hpend (s & Hs & HS).
  - by apply elem_of_nil in Hs.
  - simpl. destruct (aggregateResources fuel childrenMap x st) as [st1|] eqn:Hx; [|done].
    destruct (aggregateResources_pending _ _ _ _ _ _ (Hpend x) Hx) as [HnS Hun].
    destruct (aggregateResources_frame _ _ _ _ _ Hx) as (_ & _ & Hdom).
    apply IH.
    + intros y q Hq. destruct (Hpend y q Hq) as (_ & He & Hch).
      split; [by apply Hun|]. split; [by apply Hdom|done].
    + exists s. split; [|done]. apply elem_of_cons in Hs as [->|Hs]; done.
Qed.

Variable range : ∀ A, nat → gmap Z A → list (Z * A).
Variable sort_Slice : list ProcessInfo → (ProcessInfo → ProcessInfo → bool) → list ProcessInfo.
Hypothesis range_perm : ∀ A site (m : gmap Z A), range A site m ≡ₚ map_to_list m.

Lemma range_keys {A} site (m : gmap Z A) k :
  k ∈ (range A site m).*1 ↔ is_Some (m !! k).
Proof.
  rewrite (range_perm A site m). rewrite list_elem_of_fmap. split.
  - intros ([k' v] & -> & Hin). apply elem_of_map_to_list in Hin. by eexists.
  - intros [v Hv]. exists (k, v). split; [done|]. by apply elem_of_map_to_list.
Qed.

(** C2 (what the code does): when two retrievable processes of the
    scan name each other as parent (or one names itself), with PIDs
    other than 0, the aggregation pass completes within no stack
    depth, so [GetFilteredProcesses] returns nothing at all. *)
Theorem cycle_exhausts_every_stack fuel cfg m processes a b :
  a ∈ processes → b ∈ processes → retrievable a → retrievable b →
  procPpid a = Some (Pid b) → procPpid b = Some (Pid a) →
  Pid a ≠ 0 → Pid b ≠ 0 →
  GetFilteredProcesses range sort_Slice fuel cfg m (Some processes) = None.
Proof.
  intros Ha Hb Hra Hrb Hpa Hpb Hza Hzb.
  destruct (collect_member m processes a Ha Hra) as [Hsa Hca].
  destruct (collect_member m processes b Hb Hrb) as [Hsb Hcb].
  rewrite Hpa in Hca. rewrite Hpb in Hcb. simpl in Hca, Hcb.
  destruct (Hca Hzb) as (csb & Hcsb & Hina).
  destruct (Hcb Hza) as (csa & Hcsa & Hinb).
  unfold GetFilteredProcesses, samplesOf, childrenMapOf in *.
  destruct (collect m processes) as [[m' all] cm]. simpl in *.
  unfold aggregatePass.
  rewrite (aggregateAll_closed_set cm (fun q => q = Pid a ∨ q = Pid b)); [done| |].
  - intros x q Hq. split.
    { unfold marked, Go.index_bool. simpl. by rewrite lookup_empty. }
    split; [by destruct Hq as [->| ->]|].
    destruct Hq as [->| ->].
    + exists csa, (Pid b). by intuition.
    + exists csb, (Pid a). by intuition.
  - exists (Pid a). split; [|by left]. by apply range_keys.
Qed.

End Cycles.

Lemma rangeInOrder_perm A site (m : gmap Z A) : rangeInOrder A site m ≡ₚ map_to_list m.
Proof. reflexivity. Qed.

Lemma cycle_exhausts_every_stack_witness :
  GetFilteredProcesses rangeInOrder insertionSort 1000 defaultConfig ∅ (Some twoCycle) = None.
Proof.
  apply (cycle_exhausts_every_stack rangeInOrder insertionSort rangeInOrder_perm
           1000 defaultConfig ∅ twoCycle
           (mkProcess 1 (Some "a"%string) (Some 2) (Some 3.2%float) (Some (85 * MB)))
           (mkProcess 2 (Some "b"%string) (Some 1) (Some 2.3%float) (Some (45 * MB))));
    try (vm_compute; reflexivity); try (simpl; lia).
  - by left.
  - right. by left.
  - split; by eexists.
  - split; by eexists.
Defined.

(** ** Termination on acyclic parent links *)

Section Termination.

Variable childrenMap : gmap Z (list Z).

(** A measure that decreases from every listed parent to its children:
    the parent links form no cycle. *)
Variable rank : Z → nat.
Hypothesis rank_decreases :
  ∀ p cs c, childrenMap !! p = Some cs → c ∈ cs → (rank c < rank p)%nat.

Lemma aggregateChildren_returns self pid cs :
  (∀ c st, c ∈ cs → is_Some (self c st)) →
  ∀ tc tm h st, is_Some (aggregateChildren self pid cs tc tm h st).
Proof.
  induction cs as [|c cs IH]; intros Hself tc tm h st; simpl; [by eexists|].
  destruct (Hself c st) as [st1 ->]; [by left|].
  assert (∀ c' st', c' ∈ cs → is_Some (self c' st')) as Hrest
    by (intros c' st' Hc'; apply Hself; by right).
  destruct (allProcesses st1 !! c); [|by apply IH].
  destruct (allProcesses st1 !! pid); [|by apply IH].
  destruct (negb _); by apply IH.
Qed.

(** A stack deeper than the rank of the record is enough. *)
Lemma aggregateResources_returns fuel :
  ∀ x st, (rank x < fuel)%nat → is_Some (aggregateResources fuel childrenMap x st).
Proof.
  induction fuel as [|fuel IH]; intros x st Hlt; [lia|].
  rewrite aggregateResources_S.
  destruct (Go.index_bool (aggregated st) x); [by eexists|].
  destruct (allProcesses st !! x) as [info|]; [|by eexists].
  destruct (childrenMap !! x) as [cs|] eqn:Hcs; [|by eexists].
  destruct (aggregateChildren_returns (aggregateResources fuel childrenMap) x cs)
    with (tc := CPUPercent info) (tm := MemoryBytes info) (h := false)
         (st := update x storeOriginals st) as [[[[tc tm] h] st1] ->]; [|by eexists].
  intros c st' Hc. apply IH. pose proof (rank_decreases x cs c Hcs Hc). lia.
Qed.

Lemma aggregateAll_returns fuel pids :
  (∀ x, x ∈ pids → (rank x < fuel)%nat) →
  ∀ st, is_Some (aggregateAll fuel childrenMap pids st).
Proof.
  induction pids as [|x pids IH]; intros Hlt st; simpl; [by eexists|].
  destruct (aggregateResources_returns fuel x st) as [st1 ->]; [apply Hlt; by left|].
  apply IH. intros y Hy. apply Hlt. by right.
Qed.

End Termination.

(** Every child listed in the index is the PID of a retrievable process
    of the scan that names the key as its parent. *)
Lemma collect_children m processes k cs c :
  childrenMapOf m processes !! k = Some cs → c ∈ cs →
  ∃ p, p ∈ processes ∧ retrievable p ∧ Pid p = c ∧ default 0 (procPpid p) = k ∧ k ≠ 0.
Proof.
  unfold childrenMapOf, collect. revert k cs c.
  induction processes as [|p ps IH] using rev_ind; intros k cs c Hcs Hc.
  - simpl in Hcs. by rewrite lookup_empty in Hcs.
  - rewrite fold_left_app in Hcs. simpl in Hcs.
    destruct (fold_left collectStep ps (m, ∅, ∅)) as [[m0 a0] c0]. simpl in IH.
    assert (∀ k cs c, c0 !! k = Some cs → c ∈ cs →
              ∃ q, q ∈ ps ++ [p] ∧ retrievable q ∧ Pid q = c ∧
                   default 0 (procPpid q) = k ∧ k ≠ 0) as Hold.
    { intros k' cs' c' Hk' Hc'. destruct (IH k' cs' c' Hk' Hc') as (q & Hq & Hr).
      exists q. split; [|done]. apply elem_of_app. by left. }
    unfold collectStep in Hcs.
    destruct (getProcessInfo m0 p) as [[info|] m1] eqn:Hget; simpl in Hcs; [|by eapply Hold].
    apply getProcessInfo_Some in Hget as (HP & _ & Hn & Hm & HPP & _).
    destruct (Z.eqb_spec (PPID info) 0) as [Hz|Hz]; [by eapply Hold|].
    destruct (decide (PPID info = k)) as [<-|Hne].
    + rewrite lookup_insert_eq in Hcs. injection Hcs as <-.
      apply elem_of_app in Hc as [Hc|Hc].
      * destruct (c0 !! PPID info) as [cs0|] eqn:Hcs0; [by eapply Hold|].
        by apply elem_of_nil in Hc.
      * apply list_elem_of_singleton in Hc as ->. exists p.
        split; [apply elem_of_app; right; by left|].
        split; [split; by eexists|]. by rewrite <- HPP.
    + rewrite lookup_insert_ne in Hcs by done. by eapply Hold.
Qed.

(** X22: when the parent links of the scan form no cycle, as a measure
    that decreases from every parent PID to the PID of its child shows,
    and the stack is deeper than every rank, the call returns its rows. *)
Theorem GetFilteredProcesses_returns
    (range : ∀ A, nat → gmap Z A → list (Z * A))
    (sort_Slice : list ProcessInfo → (ProcessInfo → ProcessInfo → bool) → list ProcessInfo)
    (rank : Z → nat) fuel cfg m processes :
  (∀ p, p ∈ processes → retrievable p → default 0 (procPpid p) ≠ 0 →
        (rank (Pid p) < rank (default 0%Z (procPpid p)))%nat) →
  (∀ x, (rank x < fuel)%nat) →
  ∃ filtered,
    GetFilteredProcesses range sort_Slice fuel cfg m (Some processes)
      = Some (Returned filtered).
Proof.
  intros Hrank Hfuel.
  assert (∀ k cs c, childrenMapOf m processes !! k = Some cs → c ∈ cs →
                    (rank c < rank k)%nat) as Hcm.
  { intros k cs c Hcs Hc.
    destruct (collect_children m processes k cs c Hcs Hc) as (p & Hp & Hr & <- & <- & Hnz).
    by apply Hrank. }
  unfold GetFilteredProcesses, childrenMapOf in *.
  destruct (collect m processes) as [[m' all] cm]. simpl in *.
  unfold aggregatePass.
  destruct (aggregateAll_returns cm rank Hcm fuel (range _ 2%nat all).*1)
    with (st := mkAggState all ∅) as [st ->]; [done|]. by eexists.
Qed.

(** A chain of three generations is aggregated within a stack of three
    frames. *)
Lemma GetFilteredProcesses_returns_witness :
  ∃ filtered,
    GetFilteredProcesses rangeInOrder insertionSort 3 defaultConfig ∅ (Some threeGenerations)
      = Some (Returned filtered).
Proof.
  apply (GetFilteredProcesses_returns rangeInOrder insertionSort
           (fun pid => match pid with 1 => 2%nat | 2 => 1%nat | _ => 0%nat end)).
  - intros p Hp _ Hnz.
    repeat (apply elem_of_cons in Hp as [->|Hp]); simpl in *; try lia.
    by apply elem_of_nil in Hp.
  - intros x. destruct x as [|[[]|[]|]|]; simpl; lia.
Defined.

(** ** float64 comparison and addition on non-negative values *)

Section FloatFacts.

Lemma nonneg_spec f : nonneg f ↔ nonnegSF (Prim2SF f).
Proof.
  unfold nonneg. rewrite leb_spec.
  change (Prim2SF 0) with (S754_zero false).
  destruct (Prim2SF f) as [s|[]| |[] m e]; simpl; unfold SFleb; simpl; by intuition.
Qed.

Lemma shr_1_nonneg mrs : 0 <= shr_m mrs → 0 <= shr_m (shr_1 mrs).
Proof.
  destruct mrs as [m r s]. simpl. destruct m as [|p|p]; [done| |lia].
  destruct p; simpl; lia.
Qed.

Lemma iter_pos_shr_1_nonneg p : ∀ mrs, 0 <= shr_m mrs → 0 <= shr_m (SpecFloat.iter_pos shr_1 p mrs).
Proof.
  induction p as [p IH|p IH|]; intros mrs H; simpl.
  - apply IH, IH. by apply shr_1_nonneg.
  - by apply IH, IH.
  - by apply shr_1_nonneg.
Qed.

Lemma shr_fexp_nonneg m e l :
  0 <= m → 0 <= shr_m (shr_fexp prec emax m e l).1.
Proof.
  intros Hm. unfold shr_fexp, shr.
  assert (0 <= shr_m (shr_record_of_loc m l)) as H0.
  { destruct l as [|[]]; simpl; lia. }
  destruct (_ - e); simpl; [done| |done]. by apply iter_pos_shr_1_nonneg.
Qed.

Lemma round_nearest_even_nonneg m l : 0 <= m → 0 <= round_nearest_even m l.
Proof.
  intros Hm. unfold round_nearest_even. destruct l as [|[]]; try lia.
  destruct (Z.even m); lia.
Qed.

Lemma binary_round_aux_nonneg m e l :
  0 <= m → nonnegSF (binary_round_aux prec emax false m e l).
Proof.
  intros Hm. unfold binary_round_aux.
  pose proof (shr_fexp_nonneg m e l Hm) as H1.
  destruct (shr_fexp prec emax m e l) as [mrs' e'] eqn:E1. simpl in H1.
  pose proof (shr_fexp_nonneg (round_nearest_even (shr_m mrs') (loc_of_shr_record mrs'))
                e' loc_Exact (round_nearest_even_nonneg _ _ H1)) as H2.
  destruct (shr_fexp prec emax _ e' loc_Exact) as [mrs'' e''] eqn:E2. simpl in H2.
  destruct (shr_m mrs'') as [|p|p]; [done| |lia].
  by destruct (e'' <=? emax - prec).
Qed.

Lemma SFadd_nonneg x y : nonnegSF x → nonnegSF y → nonnegSF (SF64add x y).
Proof.
  unfold SF64add.
  destruct x as [sx|sx| |sx mx ex], y as [sy|sy| |sy my ey]; simpl; try done;
    intros Hx Hy; subst; try done.
  - by destruct sx, sy.
  - unfold binary_normalize.
    destruct (shl_align mx ex (Z.min ex ey)) as [a ?], (shl_align my ey (Z.min ex ey)) as [b ?].
    simpl. unfold binary_round.
    destruct (shl_align _ _ _) as [mz ez]. by apply binary_round_aux_nonneg.
Qed.

Lemma add_nonneg x y : nonneg x → nonneg y → nonneg (x + y)%float.
Proof. rewrite !nonneg_spec, add_spec. apply SFadd_nonneg. Qed.

Lemma SFcompare_nonneg_cases x y :
  nonnegSF x → nonnegSF y → ∃ c, SFcompare x y = Some c ∧ SFcompare y x = Some (CompOpp c).
Proof.
  destruct x as [sx|sx| |sx mx ex], y as [sy|sy| |sy my ey]; simpl; try done;
    intros Hx Hy; subst; try (by eexists).
  rewrite (Z.compare_antisym ex ey).
  destruct (ex ?= ey); simpl; try (by eexists).
  exists (Pos.compare_cont Eq mx my). split; [done|]. f_equal.
  change (Pos.compare_cont Eq my mx) with (Pos.compare my mx).
  change (Pos.compare_cont Eq mx my) with (Pos.compare mx my).
  apply Pos.compare_antisym.
Qed.

(** On such values [<] is a strict weak ordering, total up to [=]. *)
Lemma ltb_irrefl x : nonneg x → (x <? x)%float = false.
Proof.
  rewrite nonneg_spec, ltb_spec. intros H. unfold SFltb.
  destruct (SFcompare_nonneg_cases _ _ H H) as (c & H1 & H2).
  rewrite H1. rewrite H1 in H2. injection H2 as H2. by destruct c.
Qed.

Lemma ltb_false_leb x y : nonneg x → nonneg y → (x <? y)%float = false → (y <=? x)%float = true.
Proof.
  rewrite !nonneg_spec, ltb_spec, leb_spec. intros Hx Hy. unfold SFltb, SFleb.
  destruct (SFcompare_nonneg_cases _ _ Hx Hy) as (c & -> & ->). by destruct c.
Qed.

Lemma SFltb_trans x y z :
  nonnegSF x → nonnegSF y → nonnegSF z →
  SFltb x y = true → SFltb y z = true → SFltb x z = true.
Proof.
  unfold SFltb.
  destruct x as [sx|sx| |sx mx ex], y as [sy|sy| |sy my ey], z as [sz|sz| |sz mz ez];
    simpl; try done; intros Hx Hy Hz; subst; try done.
  change (Pos.compare_cont Eq mx my) with (Pos.compare mx my).
  change (Pos.compare_cont Eq my mz) with (Pos.compare my mz).
  change (Pos.compare_cont Eq mx mz) with (Pos.compare mx mz).
  destruct (Z.compare_spec ex ey), (Z.compare_spec ey ez), (Z.compare_spec ex ez);
    subst; try done; try lia;
    destruct (Pos.compare_spec mx my), (Pos.compare_spec my mz), (Pos.compare_spec mx mz);
    subst; try done; try lia.
Qed.

Lemma SFltb_negtrans x y z :
  nonnegSF x → nonnegSF y → nonnegSF z →
  SFltb x y = false → SFltb y z = false → SFltb x z = false.
Proof.
  unfold SFltb.
  destruct x as [sx|sx| |sx mx ex], y as [sy|sy| |sy my ey], z as [sz|sz| |sz mz ez];
    simpl; try done; intros Hx Hy Hz; subst; try done.
  change (Pos.compare_cont Eq mx my) with (Pos.compare mx my).
  change (Pos.compare_cont Eq my mz) with (Pos.compare my mz).
  change (Pos.compare_cont Eq mx mz) with (Pos.compare mx mz).
  destruct (Z.compare_spec ex ey), (Z.compare_spec ey ez), (Z.compare_spec ex ez);
    subst; try done; try lia;
    destruct (Pos.compare_spec mx my), (Pos.compare_spec my mz), (Pos.compare_spec mx mz);
    subst; try done; try lia.
Qed.

End FloatFacts.

(** ** The CPU values of the store *)

Section CPUInvariant.

Variable childrenMap : gmap Z (list Z).
Variable P : float → Prop.
Hypothesis P_add : ∀ x y, P x → P y → P (x + y)%float.

Lemma cpuAll_update x f st :
  (∀ i, P (CPUPercent i) → P (CPUPercent (f i))) → cpuAll P st → cpuAll P (update x f st).
Proof.
  intros Hf Hst p i. destruct (decide (x = p)) as [->|Hne].
  - rewrite lookup_update_eq. destruct (allProcesses st !! p) as [j|] eqn:Hj; [|done].
    intros [= <-]. apply Hf. by eapply Hst.
  - rewrite lookup_update_ne by done. apply Hst.
Qed.

Lemma aggregateResources_cpuAll fuel :
  ∀ x st st', cpuAll P st →
    aggregateResources fuel childrenMap x st = Some st' → cpuAll P st'.
Proof.
  induction fuel as [|fuel IH]; intros x st st' Hst Hrun; [done|].
  rewrite aggregateResources_S in Hrun.
  destruct (Go.index_bool (aggregated st) x); [by injection Hrun as <-|].
  destruct (allProcesses st !! x) as [info|] eqn:Hinfo; [|by injection Hrun as <-].
  destruct (childrenMap !! x) as [cs|].
  2: { injection Hrun as <-. by apply cpuAll_update. }
  destruct (aggregateChildren _ _ _ _ _ _ _) as [[[[tc tm] h] st1]|] eqn:Hloop; [|done].
  injection Hrun as <-.
  assert (P tc ∧ cpuAll P st1) as [Htc Hst1].
  { eapply (aggregateChildren_rule _ x (fun _ tc _ _ s => P tc ∧ cpuAll P s) cs)
      with (seen := []); [|done| |exact Hloop].
    - intros seen c tc0 tm0 h0 s s1 _ [HP Hs] Hself.
      pose proof (IH _ _ _ Hs Hself) as Hs1.
      destruct (allProcesses s1 !! c) as [ci|] eqn:Hci; [|done].
      destruct (allProcesses s1 !! x); [|done].
      destruct (negb _); [done|]. split.
      + apply P_add; [done|]. by eapply Hs1.
      + by apply cpuAll_update.
    - split; [by eapply Hst|]. by apply cpuAll_update. }
  destruct h; by apply cpuAll_update.
Qed.

Lemma aggregateAll_cpuAll fuel pids :
  ∀ st st', cpuAll P st → aggregateAll fuel childrenMap pids st = Some st' → cpuAll P st'.
Proof.
  induction pids as [|x pids IH]; intros st st' Hst Hrun; simpl in Hrun.
  - by injection Hrun as <-.
  - destruct (aggregateResources fuel childrenMap x st) as [st1|] eqn:Hx; [|done].
    eapply IH; [|exact Hrun]. by eapply aggregateResources_cpuAll.
Qed.

End CPUInvariant.

(** ** The filter and the ranker *)

Section FilterFacts.

Lemma qualifies_spec cfg info :
  qualifies cfg info = true ↔
  Go.fge (CPUPercent info) (CPUThreshold cfg) = true ∨
  MemoryThreshold cfg <= MemoryBytes info.
Proof.
  unfold qualifies, GetCPUThreshold, GetMemoryThreshold.
  by rewrite orb_true_iff, Z.geb_le.
Qed.

Lemma qualify_fold cfg (l : list (Z * ProcessInfo)) :
  NoDup (l.*1) → (∀ k v, (k, v) ∈ l → PID v = k) →
  ∀ q0, (∀ k v, (k, v) ∈ l → q0 !! k = None) →
  ∀ p i, fold_left (qualifyStep cfg) l q0 !! p = Some i ↔
         q0 !! p = Some i ∨ ((p, i) ∈ l ∧ qualifies cfg i = true).
Proof.
  induction l as [|[k v] l IH]; intros Hnd Hkey q0 Hq0 p i; simpl.
  - split; [by left|]. intros [?|[Hin _]]; [done|]. by apply elem_of_nil in Hin.
  - simpl in Hnd. apply NoDup_cons in Hnd as [Hk Hnd].
    assert (PID v = k) as HPv by (apply Hkey; left).
    assert (∀ k' v', (k', v') ∈ l → k' ≠ k) as Hother.
    { intros k' v' Hin ->. apply Hk. apply list_elem_of_fmap. by exists (k, v'). }
    rewrite IH; [|done| |].
    + unfold qualifyStep. simpl. rewrite HPv.
      assert (q0 !! k = None) as Hk0 by (eapply Hq0; left).
      destruct (qualifies cfg v) eqn:Hv.
      * destruct (decide (k = p)) as [->|Hne].
        -- rewrite lookup_insert_eq. split.
           ++ intros [[= <-]|[Hin Hq]]; right; (split; [|done]); [left|by right].
           ++ intros [?|[Hin Hq]]; [congruence|].
              apply elem_of_cons in Hin as [[= <-]|Hin]; [by left|]. right. done.
        -- rewrite lookup_insert_ne by done. split.
           ++ intros [?|[Hin Hq]]; [by left|]. right. split; [by right|done].
           ++ intros [?|[Hin Hq]]; [by left|].
              apply elem_of_cons in Hin as [[= -> ->]|Hin]; [done|]. right. done.
      * split.
        -- intros [?|[Hin Hq]]; [by left|]. right. split; [by right|done].
        -- intros [?|[Hin Hq]]; [by left|].
           apply elem_of_cons in Hin as [[= -> ->]|Hin]; [congruence|]. right. done.
    + intros k' v' Hin. apply Hkey. by right.
    + intros k' v' Hin. unfold qualifyStep. simpl.
      destruct (qualifies cfg v); [|eapply Hq0; by right].
      rewrite HPv, lookup_insert_ne; [eapply Hq0; by right|].
      intros <-. by eapply Hother.
Qed.

Lemma topLevel_fold q (l : list (Z * ProcessInfo)) :
  ∀ acc i, i ∈ fold_left (topLevelStep q) l acc ↔
           i ∈ acc ∨ ∃ k, (k, i) ∈ l ∧ q !! PPID i = None.
Proof.
  induction l as [|[k v] l IH]; intros acc i; simpl.
  - split; [by left|]. intros [?|(k & Hin & _)]; [done|]. by apply elem_of_nil in Hin.
  - rewrite IH. unfold topLevelStep. simpl.
    destruct (q !! PPID v) as [j|] eqn:Hj.
    + split.
      * intros [?|(k' & Hin & Hn)]; [by left|]. right. exists k'. split; [by right|done].
      * intros [?|(k' & Hin & Hn)]; [by left|].
        apply elem_of_cons in Hin as [[= -> ->]|Hin]; [congruence|]. right. by exists k'.
    + rewrite elem_of_app, list_elem_of_singleton. split.
      * intros [[?| ->]|(k' & Hin & Hn)]; [by left| |].
        -- right. exists k. split; [by left|done].
        -- right. exists k'. split; [by right|done].
      * intros [?|(k' & Hin & Hn)]; [by left; left|].
        apply elem_of_cons in Hin as [[= -> ->]|Hin]; [by left; right|]. right. by exists k'.
Qed.

Variable range : ∀ A, nat → gmap Z A → list (Z * A).
Variable sort_Slice : list ProcessInfo → (ProcessInfo → ProcessInfo → bool) → list ProcessInfo.
Hypothesis range_perm : ∀ A site (m : gmap Z A), range A site m ≡ₚ map_to_list m.
Hypothesis sort_perm : ∀ l less, sort_Slice l less ≡ₚ l.

Lemma range_elem {A} site (m : gmap Z A) k v :
  (k, v) ∈ range A site m ↔ m !! k = Some v.
Proof. rewrite (range_perm A site m). apply elem_of_map_to_list. Qed.

Lemma range_NoDup {A} site (m : gmap Z A) : NoDup (range A site m).*1.
Proof. rewrite (range_perm A site m). apply NoDup_fst_map_to_list. Qed.

(** The qualifying set: the records of the store that reach a
    threshold. *)
Lemma qualifyingProcesses_lookup cfg (all : gmap Z ProcessInfo) p i :
  (∀ q j, all !! q = Some j → PID j = q) →
  qualifyingProcesses range cfg all !! p = Some i ↔
  all !! p = Some i ∧ qualifies cfg i = true.
Proof.
  intros Hkey. unfold qualifyingProcesses.
  rewrite qualify_fold.
  - rewrite lookup_empty, range_elem. split; [by intros [?|?]|by right].
  - apply range_NoDup.
  - intros k v Hin%range_elem. by apply Hkey.
  - intros k v _. apply lookup_empty.
Qed.

(** The top-level rows: the qualifying records whose parent PID is not
    a key of the qualifying set. *)
Lemma topLevel_elem (q : gmap Z ProcessInfo) i :
  i ∈ topLevel range q ↔ ∃ k, q !! k = Some i ∧ q !! PPID i = None.
Proof.
  unfold topLevel. rewrite topLevel_fold. split.
  - intros [Hin|(k & Hin & Hn)]; [by apply elem_of_nil in Hin|].
    exists k. by rewrite <- range_elem.
  - intros (k & Hk & Hn). right. exists k. by rewrite range_elem.
Qed.

Lemma GetFilteredProcesses_Returned fuel cfg m processes filtered :
  GetFilteredProcesses range sort_Slice fuel cfg m (Some processes) = Some (Returned filtered) →
  ∃ st,
    aggregatePass range fuel (samplesOf m processes) (childrenMapOf m processes) = Some st ∧
    filtered = sort_Slice (topLevel range (qualifyingProcesses range cfg (allProcesses st)))
                 byCPUDescending.
Proof.
  unfold GetFilteredProcesses, samplesOf, childrenMapOf.
  destruct (collect m processes) as [[m' all] cm]. simpl.
  destruct (aggregatePass range fuel all cm) as [st|]; [|done].
  intros [= <-]. by exists st.
Qed.

Lemma store_keys fuel m processes st p i :
  aggregatePass range fuel (samplesOf m processes) (childrenMapOf m processes) = Some st →
  allProcesses st !! p = Some i → PID i = p.
Proof.
  intros Hrun%aggregatePass_good Hi.
  destruct (good_fields _ _ _ _ _ Hrun Hi) as (i0 & Hi0 & -> & _).
  by destruct (collect_keys m processes p i0 Hi0).
Qed.

Lemma returned_elem fuel cfg m processes st filtered i :
  aggregatePass range fuel (samplesOf m processes) (childrenMapOf m processes) = Some st →
  filtered = sort_Slice (topLevel range (qualifyingProcesses range cfg (allProcesses st)))
               byCPUDescending →
  i ∈ filtered ↔
  qualifyingProcesses range cfg (allProcesses st) !! PID i = Some i ∧
  qualifyingProcesses range cfg (allProcesses st) !! PPID i = None.
Proof.
  intros Hrun ->. rewrite (sort_perm _ _), topLevel_elem. split.
  - intros (k & Hk & Hn). split; [|done].
    pose proof Hk as Hk'. apply qualifyingProcesses_lookup in Hk' as [Hi _].
    + by rewrite (store_keys _ _ _ _ _ _ Hrun Hi).
    + intros q j. by apply (store_keys fuel m processes st).
  - intros [Hk Hn]. by exists (PID i).
Qed.

End FilterFacts.

(** ** The concrete runtime meets the contracts *)

Section ConcreteRuntime.

Lemma insertLeftwards_perm {A} (less : A → A → bool) x l :
  insertLeftwards less x l ≡ₚ x :: l.
Proof.
  induction l as [|y l IH]; simpl; [done|].
  destruct (less x y); [|done]. rewrite IH. apply Permutation_swap.
Qed.

Lemma insertionSort_perm l less : insertionSort l less ≡ₚ l.
Proof.
  unfold insertionSort. rewrite <- Permutation_rev.
  assert (∀ acc, fold_left (fun prefixRev x => insertLeftwards less x prefixRev) l acc
                 ≡ₚ acc ++ l) as Hgen.
  { induction l as [|x l IH]; intros acc; simpl; [by rewrite app_nil_r|].
    rewrite IH, insertLeftwards_perm. simpl. apply Permutation_middle. }
  apply (Hgen []).
Qed.

End ConcreteRuntime.

(** ** Threshold qualification, double counting, system roots *)

Section FilterTheorems.

Variable range : ∀ A, nat → gmap Z A → list (Z * A).
Variable sort_Slice : list ProcessInfo → (ProcessInfo → ProcessInfo → bool) → list ProcessInfo.
Hypothesis range_perm : ∀ A site (m : gmap Z A), range A site m ≡ₚ map_to_list m.
Hypothesis sort_perm : ∀ l less, sort_Slice l less ≡ₚ l.

(** C5: after the aggregation pass, a record is in the qualifying set
    exactly when its aggregated CPU is at least the CPU threshold or its
    aggregated memory is at least the memory threshold; every returned
    row is drawn from that set. *)
Theorem threshold_qualification fuel cfg m processes st :
  aggregatePass range fuel (samplesOf m processes) (childrenMapOf m processes) = Some st →
  (∀ pid info,
     qualifyingProcesses range cfg (allProcesses st) !! pid = Some info ↔
     allProcesses st !! pid = Some info ∧
     (Go.fge (CPUPercent info) (CPUThreshold cfg) = true ∨
      MemoryThreshold cfg <= MemoryBytes info)) ∧
  (∀ filtered info,
     GetFilteredProcesses range sort_Slice fuel cfg m (Some processes)
       = Some (Returned filtered) →
     info ∈ filtered →
     qualifyingProcesses range cfg (allProcesses st) !! PID info = Some info).
Proof.
  intros Hrun. split.
  - intros pid info. rewrite <- qualifies_spec.
    apply qualifyingProcesses_lookup; [done|].
    intros q j. by apply (store_keys range fuel m processes st).
  - intros filtered info Hret Hin.
    destruct (GetFilteredProcesses_Returned _ _ _ _ _ _ _ Hret) as (st' & Hrun' & Hf).
    assert (st' = st) as -> by congruence.
    by apply (returned_elem range sort_Slice range_perm sort_perm _ _ _ _ _ _ _ Hrun Hf).
Qed.

(** C3 (amended): the returned rows are exactly the qualifying records
    whose parent PID is not a key of the qualifying set, so no returned
    row is the direct parent of another returned row. *)
Theorem no_parent_among_returned fuel cfg m processes filtered :
  GetFilteredProcesses range sort_Slice fuel cfg m (Some processes)
    = Some (Returned filtered) →
  ∃ st,
    aggregatePass range fuel (samplesOf m processes) (childrenMapOf m processes) = Some st ∧
    (∀ a, a ∈ filtered ↔
       qualifyingProcesses range cfg (allProcesses st) !! PID a = Some a ∧
       qualifyingProcesses range cfg (allProcesses st) !! PPID a = None) ∧
    (∀ a b, a ∈ filtered → b ∈ filtered → PPID a ≠ PID b).
Proof.
  intros Hret.
  destruct (GetFilteredProcesses_Returned _ _ _ _ _ _ _ Hret) as (st & Hrun & Hf).
  exists st. split; [done|].
  pose proof (fun a => returned_elem range sort_Slice range_perm sort_perm
                         fuel cfg m processes st filtered a Hrun Hf) as He.
  split; [done|]. intros a b [_ Ha]%He [Hb _]%He Heq. congruence.
Qed.

(** C4: a parent with a system-init name is related to no child,
    whatever the child's name; in the aggregated store such a record
    lists no entry and keeps the CPU and memory of its own sample; and
    it is returned only if its own sample reaches a threshold. *)
Theorem system_root_exclusion :
  (∀ child parent,
     isSystemInitName (Name parent) → isRelatedToParent child parent = false) ∧
  (∀ fuel m processes st pid info,
     aggregatePass range fuel (samplesOf m processes) (childrenMapOf m processes) = Some st →
     allProcesses st !! pid = Some info →
     isSystemInitName (Name info) →
     ∃ sample,
       samplesOf m processes !! pid = Some sample ∧
       Children info = [] ∧
       CPUPercent info = CPUPercent sample ∧
       MemoryBytes info = MemoryBytes sample) ∧
  (∀ fuel cfg m processes filtered info,
     GetFilteredProcesses range sort_Slice fuel cfg m (Some processes)
       = Some (Returned filtered) →
     info ∈ filtered →
     isSystemInitName (Name info) →
     ∃ sample,
       samplesOf m processes !! PID info = Some sample ∧
       Children info = [] ∧
       qualifies cfg sample = true).
Proof.
  assert (∀ child parent,
    isSystemInitName (Name parent) → isRelatedToParent child parent = false) as Hrel.
  { intros child parent Hsys%systemParents_spec. unfold isRelatedToParent. by rewrite Hsys. }
  assert (∀ fuel m processes st pid info,
    aggregatePass range fuel (samplesOf m processes) (childrenMapOf m processes) = Some st →
    allProcesses st !! pid = Some info →
    isSystemInitName (Name info) →
    ∃ sample,
      samplesOf m processes !! pid = Some sample ∧
      Children info = [] ∧
      CPUPercent info = CPUPercent sample ∧
      MemoryBytes info = MemoryBytes sample) as Hstore.
  { intros fuel m processes st pid info Hrun%aggregatePass_good Hi Hsys.
    destruct (good_fields _ _ _ _ _ Hrun Hi) as (i0 & Hi0 & _ & _ & Hname).
    destruct (collect_keys m processes pid i0 Hi0) as [_ Hnil].
    exists i0. split; [done|].
    destruct Hrun as [_ Hgood].
    destruct (Hgood pid i0 Hi0) as (i' & Hi' & Hmk & Hun); [by intros []|].
    assert (i' = info) as -> by congruence.
    destruct (marked_dec st pid) as [Hm|Hm].
    2: { by rewrite (Hun Hm). }
    specialize (Hmk Hm). unfold goodMarked in Hmk.
    destruct (childrenMapOf m processes !! pid) as [cs|].
    2: { subst info. simpl. by rewrite Hnil. }
    destruct Hmk as [Hinfo _].
    assert (relatedEntries st i0 cs = []) as Hes.
    { unfold relatedEntries. clear Hinfo. induction cs as [|c cs IH]; [done|].
      simpl. unfold relatedEntry at 1.
      destruct (allProcesses st !! c) as [ci|]; [|done].
      rewrite Hrel; [done|]. by rewrite <- Hname. }
    rewrite Hes in Hinfo. subst info. simpl. by rewrite Hnil. }
  split; [done|]. split; [done|].
  intros fuel cfg m processes filtered info Hret Hin Hsys.
  destruct (GetFilteredProcesses_Returned _ _ _ _ _ _ _ Hret) as (st & Hrun & Hf).
  apply (returned_elem range sort_Slice range_perm sort_perm _ _ _ _ _ _ _ Hrun Hf)
    in Hin as [Hq _].
  apply qualifyingProcesses_lookup in Hq as [Hi Hq]; [|done|].
  2: { intros q j. by apply (store_keys range fuel m processes st). }
  destruct (Hstore _ _ _ _ _ _ Hrun Hi Hsys) as (sample & Hs & Hnil & Hc & Hm).
  exists sample. repeat (split; [done|]).
  unfold qualifies in *. by rewrite <- Hc, <- Hm.
Qed.

End FilterTheorems.

Lemma threshold_qualification_witness :
  (∀ pid info,
     qualifyingProcesses rangeInOrder defaultConfig (allProcesses chromeState) !! pid
       = Some info ↔
     allProcesses chromeState !! pid = Some info ∧
     (Go.fge (CPUPercent info) (CPUThreshold defaultConfig) = true ∨
      MemoryThreshold defaultConfig <= MemoryBytes info)) ∧
  (∀ filtered info,
     GetFilteredProcesses rangeInOrder insertionSort 2 defaultConfig ∅ (Some chromeScenario)
       = Some (Returned filtered) →
     info ∈ filtered →
     qualifyingProcesses rangeInOrder defaultConfig (allProcesses chromeState) !! PID info
       = Some info).
Proof.
  apply (threshold_qualification rangeInOrder insertionSort rangeInOrder_perm
           insertionSort_perm 2 defaultConfig ∅ chromeScenario chromeState).
  vm_compute. reflexivity.
Defined.

(** C3, as stated, fails: with a grandparent and a grandchild that
    qualify and a parent between them that does not, both the grandchild
    and its ancestor are returned. *)
Lemma ancestor_and_descendant_returned :
  ∃ filtered a b,
    GetFilteredProcesses rangeInOrder insertionSort 3 defaultConfig ∅ (Some threeGenerations)
      = Some (Returned filtered) ∧
    a ∈ filtered ∧ b ∈ filtered ∧
    isAncestor (samplesOf ∅ threeGenerations) (PID a) (PID b).
Proof.
  eexists _, (mkProcessInfo 1 0 "a" 10 MB 1 [] false 10 MB),
          (mkProcessInfo 3 2 "c" 10 MB 1 [] false 0 0).
  split; [vm_compute; reflexivity|].
  split; [right; by left|]. split; [by left|].
  apply (ancestor_step _ 1 3 (mkProcessInfo 3 2 "c" 10 MB 0 [] false 0 0));
    [vm_compute; reflexivity|].
  apply (ancestor_parent _ 2 (mkProcessInfo 2 1 "b" 0 MB 0 [] false 0 0)).
  vm_compute. reflexivity.
Qed.

Lemma no_parent_among_returned_witness :
  ∃ st,
    aggregatePass rangeInOrder 3 (samplesOf ∅ threeGenerations)
      (childrenMapOf ∅ threeGenerations) = Some st ∧
    (∀ a, a ∈ [mkProcessInfo 3 2 "c" 10 MB 1 [] false 0 0;
               mkProcessInfo 1 0 "a" 10 MB 1 [] false 10 MB] ↔
       qualifyingProcesses rangeInOrder defaultConfig (allProcesses st) !! PID a = Some a ∧
       qualifyingProcesses rangeInOrder defaultConfig (allProcesses st) !! PPID a = None) ∧
    (∀ a b, a ∈ [mkProcessInfo 3 2 "c" 10 MB 1 [] false 0 0;
                 mkProcessInfo 1 0 "a" 10 MB 1 [] false 10 MB] →
            b ∈ [mkProcessInfo 3 2 "c" 10 MB 1 [] false 0 0;
                 mkProcessInfo 1 0 "a" 10 MB 1 [] false 10 MB] →
            PPID a ≠ PID b).
Proof.
  apply (no_parent_among_returned rangeInOrder insertionSort rangeInOrder_perm
           insertionSort_perm 3 defaultConfig ∅ threeGenerations).
  vm_compute. reflexivity.
Defined.

Lemma system_root_exclusion_witness :
  (isRelatedToParent (mkProcessInfo 2 1 "systemd" 10 MB 0 [] false 0 0)
     (mkProcessInfo 1 0 "systemd" 1 MB 0 [] false 0 0) = false) ∧
  (∃ sample,
     samplesOf ∅ systemRootFamily !! 1 = Some sample ∧
     Children (mkProcessInfo 1 0 "systemd" 1 MB 1 [] false 1 MB) = [] ∧
     CPUPercent (mkProcessInfo 1 0 "systemd" 1 MB 1 [] false 1 MB) = CPUPercent sample ∧
     MemoryBytes (mkProcessInfo 1 0 "systemd" 1 MB 1 [] false 1 MB) = MemoryBytes sample) ∧
  GetFilteredProcesses rangeInOrder insertionSort 2 defaultConfig ∅ (Some systemRootFamily)
    = Some (Returned [mkProcessInfo 3 1 "systemd" 20 MB 1 [] false 0 0;
                      mkProcessInfo 2 1 "systemd" 10 MB 1 [] false 0 0]).
Proof.
  destruct (system_root_exclusion rangeInOrder insertionSort rangeInOrder_perm
              insertionSort_perm) as (H1 & H2 & _).
  split; [apply H1; simpl; by left|].
  split; [|vm_compute; reflexivity].
  apply (H2 2%nat ∅ systemRootFamily
           (default (mkAggState ∅ ∅)
              (aggregatePass rangeInOrder 2 (samplesOf ∅ systemRootFamily)
                 (childrenMapOf ∅ systemRootFamily))) 1);
    [vm_compute; reflexivity|vm_compute; reflexivity|simpl; by left].
Defined.

(** ** Ranking *)

Section Sorting.

Context {A : Type} (less : A → A → bool).

Lemma SliceIsSorted_cons a b l :
  SliceIsSorted less (a :: b :: l) = negb (less b a) && SliceIsSorted less (b :: l).
Proof. reflexivity. Qed.

Lemma SliceIsSorted_adjacent l :
  SliceIsSorted less l = true →
  ∀ i a b, l !! i = Some a → l !! S i = Some b → less b a = false.
Proof.
  induction l as [|x l IH]; intros Hs i a b Ha Hb; [done|].
  destruct l as [|y l]; [done|].
  rewrite SliceIsSorted_cons in Hs. apply andb_true_iff in Hs as [Hxy Hs].
  destruct i as [|i]; simpl in Ha, Hb.
  - injection Ha as <-. injection Hb as <-. by apply negb_true_iff.
  - by apply (IH Hs i).
Qed.

Lemma SliceIsSorted_snoc l b :
  SliceIsSorted less (l ++ [b]) = true ↔
  SliceIsSorted less l = true ∧ (∀ a, last l = Some a → less b a = false).
Proof.
  induction l as [|x l IH]; simpl.
  - split; [done|by intros _].
  - destruct l as [|y l].
    + simpl. rewrite andb_true_r, negb_true_iff. split.
      * intros H. split; [done|]. by intros a [= <-].
      * intros [_ H]. by apply H.
    + change ((y :: l) ++ [b]) with (y :: l ++ [b]) in *.
      change (last (x :: y :: l)) with (last (y :: l)).
      rewrite !andb_true_iff, IH. tauto.
Qed.

Lemma last_rev (l : list A) : last (rev l) = head l.
Proof. destruct l as [|x l]; [done|]. simpl. by rewrite last_snoc. Qed.

Lemma head_insertLeftwards x l :
  head (insertLeftwards less x l) =
  match l with
  | [] => Some x
  | y :: _ => if less x y then Some y else Some x
  end.
Proof. destruct l as [|y l]; [done|]. simpl. by destruct (less x y). Qed.

(** One insertion keeps the prefix sorted, provided [less] is
    asymmetric on the elements involved. *)
Lemma insertLeftwards_sorted x l :
  (∀ y, y ∈ l → less x y = true → less y x = false) →
  SliceIsSorted less (rev l) = true →
  SliceIsSorted less (rev (insertLeftwards less x l)) = true.
Proof.
  induction l as [|y l IH]; intros Has Hs; [done|].
  simpl. destruct (less x y) eqn:Hxy.
  - simpl in *. apply SliceIsSorted_snoc in Hs as [Hs Hlast].
    apply SliceIsSorted_snoc. split.
    + apply IH; [|done]. intros z Hz. apply Has. by right.
    + intros a. rewrite last_rev, head_insertLeftwards.
      destruct l as [|z l].
      * intros [= <-]. apply Has; [by left|done].
      * destruct (less x z).
        -- intros [= <-]. apply Hlast. simpl. by rewrite last_snoc.
        -- intros [= <-]. apply Has; [by left|done].
  - change (rev (x :: y :: l)) with (rev (y :: l) ++ [x]).
    apply SliceIsSorted_snoc. split; [done|].
    intros a. rewrite last_rev. by intros [= <-].
Qed.

End Sorting.

Lemma insertionSort_sorted l less :
  strictWeakOrder less l → SliceIsSorted less (insertionSort l less) = true.
Proof.
  intros (Hirr & Htr & _). unfold insertionSort.
  assert (∀ x y, x ∈ l → y ∈ l → less x y = true → less y x = false) as Has.
  { intros x y Hx Hy Hxy. destruct (less y x) eqn:Hyx; [|done].
    rewrite <- (Hirr x Hx). symmetry. by apply (Htr x y x). }
  assert (∀ todo acc, todo ⊆ l → acc ⊆ l → SliceIsSorted less (rev acc) = true →
            SliceIsSorted less
              (rev (fold_left (fun prefixRev x => insertLeftwards less x prefixRev) todo acc))
            = true) as Hgen.
  { induction todo as [|x todo IH]; intros acc Htodo Hacc Hs; [done|].
    simpl. apply IH.
    - intros z Hz. apply Htodo. by right.
    - intros z Hz. rewrite (insertLeftwards_perm less x acc) in Hz.
      apply elem_of_cons in Hz as [->|Hz]; [apply Htodo; by left|by apply Hacc].
    - apply insertLeftwards_sorted; [|done].
      intros y Hy. apply Has; [apply Htodo; by left|by apply Hacc]. }
  apply Hgen; [done| |done]. by intros z Hz%elem_of_nil.
Qed.

Section Ranking.

Lemma ltb_trans x y z :
  nonneg x → nonneg y → nonneg z →
  (x <? y)%float = true → (y <? z)%float = true → (x <? z)%float = true.
Proof. rewrite !nonneg_spec, !ltb_spec. apply SFltb_trans. Qed.

Lemma ltb_negtrans x y z :
  nonneg x → nonneg y → nonneg z →
  (x <? y)%float = false → (y <? z)%float = false → (x <? z)%float = false.
Proof. rewrite !nonneg_spec, !ltb_spec. apply SFltb_negtrans. Qed.

(** On records with non-negative CPU, the comparison handed to
    [sort.Slice] is a strict weak ordering. *)
Lemma byCPUDescending_strictWeakOrder l :
  (∀ i, i ∈ l → nonneg (CPUPercent i)) → strictWeakOrder byCPUDescending l.
Proof.
  intros Hl. unfold byCPUDescending, Go.fgt. split; [|split].
  - intros a Ha. apply ltb_irrefl. by apply Hl.
  - intros a b c Ha Hb Hc Hab Hbc. apply (ltb_trans _ (CPUPercent b)); auto.
  - intros a b c Ha Hb Hc Hab Hbc. apply (ltb_negtrans _ (CPUPercent b)); auto.
Qed.

(** The samples carry the CPU values of the scan. *)
Lemma collect_cpu (P : float → Prop) m processes :
  P 0%float →
  (∀ p c, p ∈ processes → procCPUPercent p = Some c → P c) →
  ∀ k i, samplesOf m processes !! k = Some i → P (CPUPercent i).
Proof.
  intros H0 Hscan. unfold samplesOf, collect.
  assert (∀ ps acc, ps ⊆ processes →
            (∀ k i, acc.1.2 !! k = Some i → P (CPUPercent i)) →
            ∀ k i, (fold_left collectStep ps acc).1.2 !! k = Some i → P (CPUPercent i))
    as Hgen.
  { induction ps as [|q ps IH]; intros acc Hsub Hacc; [done|].
    simpl. apply IH; [intros z Hz; apply Hsub; by right|].
    destruct acc as [[m0 a0] c0]. unfold collectStep.
    destruct (getProcessInfo m0 q) as [[info|] m1] eqn:Hget; [|done].
    simpl. intros k i. destruct (decide (PID info = k)) as [<-|Hne].
    - rewrite lookup_insert_eq. intros [= <-].
      apply getProcessInfo_Some in Hget as (_ & _ & _ & _ & _ & ->).
      destruct (procCPUPercent q) as [c|] eqn:Hc; [|done].
      apply (Hscan q); [apply Hsub; by left|done].
    - rewrite lookup_insert_ne by done. apply Hacc. }
  apply Hgen; [done|]. simpl. intros k i. by rewrite lookup_empty.
Qed.

Variable range : ∀ A, nat → gmap Z A → list (Z * A).
Variable sort_Slice : list ProcessInfo → (ProcessInfo → ProcessInfo → bool) → list ProcessInfo.
Hypothesis range_perm : ∀ A site (m : gmap Z A), range A site m ≡ₚ map_to_list m.
Hypothesis sort_perm : ∀ l less, sort_Slice l less ≡ₚ l.
Hypothesis sort_sorted : ∀ l less,
  strictWeakOrder less l → SliceIsSorted less (sort_Slice l less) = true.

(** C10: on a scan whose CPU samples are non-negative numbers, every
    returned row has an aggregated CPU at least that of the row after
    it. *)
Theorem ranking_order fuel cfg m processes filtered :
  (∀ p c, p ∈ processes → procCPUPercent p = Some c → nonneg c) →
  GetFilteredProcesses range sort_Slice fuel cfg m (Some processes)
    = Some (Returned filtered) →
  ∀ i a b, filtered !! i = Some a → filtered !! S i = Some b →
    Go.fge (CPUPercent a) (CPUPercent b) = true.
Proof.
  intros Hscan Hret.
  destruct (GetFilteredProcesses_Returned _ _ _ _ _ _ _ Hret) as (st & Hrun & Hf).
  assert (cpuAll nonneg st) as Hcpu.
  { unfold aggregatePass in Hrun.
    eapply (aggregateAll_cpuAll _ nonneg add_nonneg); [|exact Hrun].
    intros k j. simpl. by apply collect_cpu. }
  assert (∀ j, j ∈ filtered → nonneg (CPUPercent j)) as Hnn.
  { intros j Hj.
    apply (returned_elem range sort_Slice range_perm sort_perm _ _ _ _ _ _ _ Hrun Hf)
      in Hj as [Hq _].
    apply qualifyingProcesses_lookup in Hq as [Hj _]; [by eapply Hcpu|done|].
    intros q k. by apply (store_keys range fuel m processes st). }
  assert (SliceIsSorted byCPUDescending filtered = true) as Hsorted.
  { rewrite Hf. apply sort_sorted, byCPUDescending_strictWeakOrder.
    intros j Hj. apply Hnn. rewrite Hf. by rewrite (sort_perm _ _). }
  intros i a b Ha Hb.
  pose proof (SliceIsSorted_adjacent _ _ Hsorted i a b Ha Hb) as Hlt.
  unfold byCPUDescending, Go.fgt in Hlt. unfold Go.fge.
  apply ltb_false_leb; [| |done]; apply Hnn; by eapply list_elem_of_lookup_2.
Qed.

End Ranking.

Lemma ranking_order_witness :
  Go.fge (CPUPercent (mkProcessInfo 8 0 "high" 90 MB 1 [] false 0 0))
         (CPUPercent (mkProcessInfo 7 0 "low" 10 MB 1 [] false 0 0)) = true.
Proof.
  apply (ranking_order rangeInOrder insertionSort rangeInOrder_perm insertionSort_perm
           insertionSort_sorted 1 defaultConfig ∅ twoRows
           [mkProcessInfo 8 0 "high" 90 MB 1 [] false 0 0;
            mkProcessInfo 7 0 "low" 10 MB 1 [] false 0 0]) with (i := 0%nat).
  - intros p c Hp Hc. repeat (apply elem_of_cons in Hp as [->|Hp]);
      [injection Hc as <-; vm_compute; reflexivity..|by apply elem_of_nil in Hp].
  - vm_compute. reflexivity.
  - reflexivity.
  - reflexivity.
Defined.

(** ** Errors *)

Section Errors.

Lemma retrievableb_spec p : retrievableb p = true ↔ retrievable p.
Proof.
  unfold retrievableb, retrievable.
  destruct (procName p), (procMemoryInfo p); split; try done;
    try (intros _; split; by eexists); intros [[? ?] [? ?]]; done.
Qed.

Lemma collectStep_unretrievable acc p : ¬ retrievable p → collectStep acc p = acc.
Proof.
  intros Hp. destruct acc as [[m a] c]. unfold collectStep.
  destruct (getProcessInfo m p) as [[info|] m'] eqn:Hget.
  - exfalso. apply Hp. apply getProcessInfo_Some in Hget as (_ & _ & Hn & Hm & _).
    split; by eexists.
  - apply getProcessInfo_None in Hget as [_ ->]. done.
Qed.

End Errors.

(** C9: [GetFilteredProcesses] returns the error exactly when the scan
    itself fails. The retrieval of one process fails exactly when its
    name or its memory information cannot be read (a parent PID or CPU
    value that cannot be read is replaced by zero and the process is
    kept); such a failure leaves the monitor's map alone, and the call
    behaves as if the process were not part of the scan. *)
Theorem error_taxonomy
    (range : ∀ A, nat → gmap Z A → list (Z * A))
    (sort_Slice : list ProcessInfo → (ProcessInfo → ProcessInfo → bool) → list ProcessInfo)
    fuel cfg m :
  (∀ scan, GetFilteredProcesses range sort_Slice fuel cfg m scan = Some Failed ↔ scan = None) ∧
  (∀ p, (getProcessInfo m p).1 = None ↔ procName p = None ∨ procMemoryInfo p = None) ∧
  (∀ p, (getProcessInfo m p).1 = None → (getProcessInfo m p).2 = m) ∧
  (∀ processes,
     GetFilteredProcesses range sort_Slice fuel cfg m (Some processes) =
     GetFilteredProcesses range sort_Slice fuel cfg m (Some (retrievedOnly processes))).
Proof.
  split; [|split; [|split]].
  - intros [processes|]; [|done]. split; [|done]. unfold GetFilteredProcesses.
    destruct (collect m processes) as [[m' all] cm].
    by destruct (aggregatePass range fuel all cm).
  - intros p. destruct (getProcessInfo m p) as [o m'] eqn:Hget. simpl. split.
    + intros ->. by apply getProcessInfo_None in Hget as [? _].
    + intros Hor. destruct o as [info|]; [|done].
      apply getProcessInfo_Some in Hget as (_ & _ & Hn & Hm & _).
      destruct Hor; congruence.
  - intros p. destruct (getProcessInfo m p) as [o m'] eqn:Hget. simpl.
    intros ->. by apply getProcessInfo_None in Hget as [_ ->].
  - intros processes. unfold GetFilteredProcesses.
    assert (collect m (retrievedOnly processes) = collect m processes) as ->; [|done].
    unfold collect, retrievedOnly. generalize (m, ∅ : gmap Z ProcessInfo, ∅ : gmap Z (list Z)).
    induction processes as [|p ps IH]; intros acc; [done|]. simpl.
    destruct (retrievableb p) eqn:Hp; simpl.
    + apply IH.
    + rewrite (collectStep_unretrievable acc p); [apply IH|].
      rewrite <- retrievableb_spec. congruence.
Qed.

(** ** The two revisions compared *)

Section CollectSources.

(** Every key of the samples and of the children index comes from a
    retrievable process of the scan. *)
Lemma collect_sources m processes :
  (∀ k, is_Some (samplesOf m processes !! k) →
        ∃ p, p ∈ processes ∧ retrievable p ∧ Pid p = k) ∧
  (∀ k, is_Some (childrenMapOf m processes !! k) →
        ∃ p, p ∈ processes ∧ retrievable p ∧ default 0 (procPpid p) = k ∧ k ≠ 0).
Proof.
  unfold samplesOf, childrenMapOf, collect.
  set (Q := fun (ps : list Process)
                (acc : gmap Z ProcessInfo * gmap Z ProcessInfo * gmap Z (list Z)) =>
    (∀ k, is_Some (acc.1.2 !! k) → ∃ p, p ∈ ps ∧ retrievable p ∧ Pid p = k) ∧
    (∀ k, is_Some (acc.2 !! k) →
          ∃ p, p ∈ ps ∧ retrievable p ∧ default 0 (procPpid p) = k ∧ k ≠ 0)).
  assert (Q processes (fold_left collectStep processes (m, ∅, ∅))) as HQ; [|exact HQ].
  induction processes as [|p ps IH] using rev_ind.
  - split; intros k [? Hk]; simpl in Hk; by rewrite lookup_empty in Hk.
  - rewrite fold_left_app. simpl.
    destruct (fold_left collectStep ps (m, ∅, ∅)) as [[m0 a0] c0].
    destruct IH as [IH1 IH2]. simpl in IH1, IH2.
    assert (∀ (R : Process → Prop), (∃ q, q ∈ ps ∧ R q) → ∃ q, q ∈ ps ++ [p] ∧ R q) as Hweak.
    { intros R (q & Hq & HR). exists q. split; [|done]. apply elem_of_app. by left. }
    unfold collectStep.
    destruct (getProcessInfo m0 p) as [[info|] m1] eqn:Hget.
    2: { split; intros k Hk; simpl in Hk; apply Hweak; [by apply IH1|by apply IH2]. }
    pose proof Hget as Hget'.
    apply getProcessInfo_Some in Hget' as (HP & _ & Hn & Hm & HPP & _).
    assert (retrievable p) as Hret by (split; by eexists).
    assert (p ∈ ps ++ [p]) as Hp by (apply elem_of_app; right; by left).
    split; intros k Hk; simpl in Hk.
    + destruct (decide (PID info = k)) as [<-|Hne].
      * exists p. by rewrite HP.
      * rewrite lookup_insert_ne in Hk by done. apply Hweak. by apply IH1.
    + destruct (Z.eqb_spec (PPID info) 0) as [Hz|Hz]; [apply Hweak; by apply IH2|].
      destruct (decide (PPID info = k)) as [<-|Hne].
      * exists p. by rewrite <- HPP.
      * rewrite lookup_insert_ne in Hk by done. apply Hweak. by apply IH2.
Qed.

End CollectSources.

Section FlatFamilies.

Variable range : ∀ A, nat → gmap Z A → list (Z * A).
Hypothesis range_perm : ∀ A site (m : gmap Z A), range A site m ≡ₚ map_to_list m.

Variable s : gmap Z ProcessInfo.
Variable cm : gmap Z (list Z).
Hypothesis Hkeys : ∀ k i, s !! k = Some i → PID i = k ∧ Children i = [].
Hypothesis Hpresent : ∀ k cs c, cm !! k = Some cs → c ∈ cs → is_Some (s !! c).
Hypothesis Hflat : ∀ info cis, isFamily s cm info cis → flatAndRelated cm info cis.

Lemma elem_of_childSamples cs ci :
  ci ∈ childSamples s cs ↔ ∃ c, c ∈ cs ∧ s !! c = Some ci.
Proof. unfold childSamples. apply list_elem_of_omap. Qed.

Lemma family_child k i cs c ci :
  s !! k = Some i → cm !! k = Some cs → c ∈ cs → s !! c = Some ci →
  cm !! c = None ∧ isRelatedToParent ci i = true.
Proof.
  intros Hi Hcs Hc Hci. destruct (Hkeys k i Hi) as [<- _].
  destruct (Hkeys c ci Hci) as [<- _].
  apply (Hflat i (childSamples s cs)).
  - split; [done|]. by exists cs.
  - apply elem_of_childSamples. by exists (PID ci).
Qed.

Lemma flatRank_decreases p cs c :
  cm !! p = Some cs → c ∈ cs → (flatRank s cm c < flatRank s cm p)%nat.
Proof.
  intros Hcs Hc. destruct (Hpresent p cs c Hcs Hc) as [ci Hci].
  unfold flatRank. rewrite Hcs, Hci.
  destruct (s !! p) as [i|] eqn:Hi.
  - destruct (family_child p i cs c ci Hi Hcs Hc Hci) as [-> _]. lia.
  - destruct (cm !! c); lia.
Qed.

(** The entries the later revision records in a family are the entries
    of the children's samples. *)
Lemma relatedEntries_flat st k i cs :
  s !! k = Some i → cm !! k = Some cs →
  (∀ c ci, c ∈ cs → s !! c = Some ci → allProcesses st !! c = Some (refreshMemoryMB ci)) →
  (∀ c, s !! c = None → allProcesses st !! c = None) →
  relatedEntries st i cs = entriesOf i (childSamples s cs).
Proof.
  intros Hi Hcs Hst Hnone. unfold relatedEntries, entriesOf, childSamples.
  assert (∀ c, c ∈ cs → relatedEntry st i c = (fun ci => childEntry ci i) <$> s !! c) as Hent.
  { intros c Hc. unfold relatedEntry. destruct (s !! c) as [ci|] eqn:Hci.
    - rewrite (Hst c ci Hc Hci).
      destruct (family_child k i cs c ci Hi Hcs Hc Hci) as [_ Hrel].
      rewrite (isRelatedToParent_names (refreshMemoryMB ci) ci i i) by done.
      by rewrite Hrel.
    - by rewrite (Hnone c Hci). }
  clear Hcs Hst. induction cs as [|c cs IH]; [done|]. simpl.
  rewrite Hent by left.
  assert (omap (relatedEntry st i) cs
          = (fun ci => childEntry ci i) <$> omap (fun c => s !! c) cs) as IH'.
  { apply IH. intros c' Hc'. apply Hent. by right. }
  destruct (s !! c) as [ci|]; simpl; [f_equal|]; exact IH'.
Qed.

(** The aggregation pass of the later revision on such a snapshot: two
    stack frames are enough, and every sample ends as its
    [familyRecord]. *)
Lemma aggregatePass_families fuel :
  ∃ st, aggregatePass range (S (S fuel)) s cm = Some st ∧
        ∀ k, allProcesses st !! k = familyRecord s cm <$> s !! k.
Proof.
  unfold aggregatePass.
  destruct (aggregateAll_returns cm (flatRank s cm) flatRank_decreases (S (S fuel))
              (range _ 2%nat s).*1) with (st := mkAggState s ∅) as [st Hrun].
  { intros x [i Hi]%(range_keys range range_perm). unfold flatRank. rewrite Hi.
    destruct (cm !! x); lia. }
  exists st. split; [done|].
  destruct (aggregateAll_good cm s _ _ _ _ (good_initial cm s) Hrun)
    as ([Hdom Hgood] & _ & Hmarked).
  assert (∀ k i, s !! k = Some i → marked st k) as Hall.
  { intros k i Hi. apply Hmarked; [|by eexists].
    apply (range_keys range range_perm). by eexists. }
  assert (∀ c, s !! c = None → allProcesses st !! c = None) as Hnone.
  { intros c Hc. destruct (allProcesses st !! c) as [j|] eqn:Hj; [|done].
    destruct (Hdom c) as [? ?]; [by eexists|congruence]. }
  assert (∀ c ci, s !! c = Some ci → cm !! c = None →
                  allProcesses st !! c = Some (refreshMemoryMB ci)) as Hleafrec.
  { intros c ci Hci Hcm. destruct (Hgood c ci Hci) as (j & Hj & Hmk & _); [by intros []|].
    specialize (Hmk (Hall c ci Hci)). unfold goodMarked in Hmk. rewrite Hcm in Hmk.
    by subst. }
  intros k. destruct (s !! k) as [i|] eqn:Hi; [|by apply Hnone]. simpl.
  destruct (Hkeys k i Hi) as [HP _]. unfold familyRecord. rewrite HP.
  destruct (cm !! k) as [cs|] eqn:Hcs; [|by apply Hleafrec].
  destruct (Hgood k i Hi) as (j & Hj & Hmk & _); [by intros []|].
  specialize (Hmk (Hall k i Hi)). unfold goodMarked in Hmk. rewrite Hcs in Hmk.
  destruct Hmk as [-> _]. rewrite Hj. do 2 f_equal.
  apply (relatedEntries_flat st k i cs Hi Hcs); [|done].
  intros c ci Hc Hci. apply Hleafrec; [done|].
  by destruct (family_child k i cs c ci Hi Hcs Hc Hci).
Qed.

End FlatFamilies.

Section LegacyFacts.

Variable cfg : Config.

Lemma legacy_collect m processes :
  NoDup (Pid <$> processes) →
  pass1Agrees cfg processes
    (fold_left (Legacy.collectStep cfg) processes (m, [], ∅, ∅, ∅))
    (collect m processes).
Proof.
  unfold collect. induction processes as [|p ps IH] using rev_ind; intros Hnd.
  - simpl. split; [done|]. split; [done|]. split; [|split; [|split; [|split]]].
    + intros k. by rewrite !lookup_empty.
    + intros k ptr. rewrite !lookup_empty. split; [done|by intros [? _]].
    + intros k ptr. by rewrite lookup_empty.
    + by intros ptr i.
    + intros k [? Hk]. by rewrite lookup_empty in Hk.
  - rewrite fmap_app in Hnd. apply NoDup_app in Hnd as (Hnd & Hfresh & _).
    specialize (IH Hnd). rewrite !fold_left_app. simpl.
    destruct (fold_left (Legacy.collectStep cfg) ps _) as [[[[mL heap] all] qual] cmL].
    destruct (fold_left collectStep ps _) as [[mN samples] cmN].
    destruct IH as (-> & -> & J2 & J3 & J5 & J6 & J4).
    unfold Legacy.collectStep, collectStep.
    destruct (getProcessInfo mN p) as [[info|] m1] eqn:Hget.
    2: { do 6 (split; [done|]). intros k Hk. rewrite fmap_app, elem_of_app.
         left. by apply J4. }
    pose proof Hget as Hget'.
    apply getProcessInfo_Some in Hget' as (HP & Hnil & _).
    assert (all !! PID info = None) as Hnew.
    { destruct (all !! PID info) as [ptr|] eqn:Hptr; [|done]. exfalso.
      apply (Hfresh (Pid p)); [|simpl; by left].
      rewrite <- HP. apply J4. by eexists. }
    assert (qual !! PID info = None) as Hnewq.
    { destruct (qual !! PID info) as [ptr|] eqn:Hptr; [|done].
      apply J3 in Hptr as [Hptr _]. congruence. }
    assert (∀ ptr, (ptr < length heap)%nat → (heap ++ [info]) !! ptr = heap !! ptr) as Hold.
    { intros ptr Hlt. by apply lookup_app_l. }
    assert ((heap ++ [info]) !! length heap = Some info) as Hlast.
    { rewrite lookup_app_r by lia. by rewrite Nat.sub_diag. }
    split; [done|]. split; [done|]. split; [|split; [|split; [|split]]].
    + intros k. destruct (decide (PID info = k)) as [<-|Hne].
      * rewrite !lookup_insert_eq. simpl. by rewrite Hlast.
      * rewrite !lookup_insert_ne by done. rewrite J2.
        destruct (all !! k) as [ptr|] eqn:Hptr; [|done]. simpl.
        symmetry. apply Hold. by eapply J5.
    + intros k ptr. destruct (decide (PID info = k)) as [<-|Hne].
      * rewrite lookup_insert_eq. destruct (qualifies cfg info) eqn:Hq.
        -- rewrite lookup_insert_eq. split.
           ++ intros [= <-]. split; [done|]. by exists info.
           ++ by intros [? _].
        -- rewrite Hnewq. split; [done|].
           intros [[= <-] (i & Hi & Hqi)]. rewrite Hlast in Hi. congruence.
      * rewrite lookup_insert_ne by done.
        assert (qual !! k = Some ptr ↔
                all !! k = Some ptr ∧
                ∃ i, (heap ++ [info]) !! ptr = Some i ∧ qualifies cfg i = true) as Hk.
        { rewrite J3. split; intros [Hptr (i & Hi & Hqi)]; (split; [done|]); exists i;
            (split; [|done]); [rewrite Hold|rewrite Hold in Hi]; try done;
            by eapply J5. }
        destruct (qualifies cfg info); [|done]. by rewrite lookup_insert_ne.
    + intros k ptr. rewrite length_app. simpl.
      destruct (decide (PID info = k)) as [<-|Hne].
      * rewrite lookup_insert_eq. intros [= <-]. lia.
      * rewrite lookup_insert_ne by done. intros Hptr%J5. lia.
    + intros ptr i [Hi|[_ Hi]]%lookup_app_Some; [by eapply J6|].
      destruct (ptr - length heap)%nat; [|done]. simpl in Hi. congruence.
    + intros k. rewrite fmap_app, elem_of_app.
      destruct (decide (PID info = k)) as [<-|Hne].
      * intros _. right. rewrite HP. simpl. by left.
      * rewrite lookup_insert_ne by done. intros Hk. left. by apply J4.
Qed.

End LegacyFacts.

(** ** The passes of the earlier revision *)

Section LegacyPasses.

Variable cfg : Config.
Variable heap : list ProcessInfo.
Variable all : gmap Z nat.
Variable s : gmap Z ProcessInfo.
Variable cm : gmap Z (list Z).
Hypothesis J2 : ∀ k, s !! k = all !! k ≫= (fun ptr => heap !! ptr).
Hypothesis J5 : ∀ k ptr, all !! k = Some ptr → (ptr < length heap)%nat.
Hypothesis Hkeys : ∀ k i, s !! k = Some i → PID i = k ∧ Children i = [].
Hypothesis Hleaf : ∀ k i cs c, s !! k = Some i → cm !! k = Some cs → c ∈ cs → cm !! c = None.

Lemma all_inj k1 k2 ptr : all !! k1 = Some ptr → all !! k2 = Some ptr → k1 = k2.
Proof.
  intros H1 H2. destruct (lookup_lt_is_Some_2 heap ptr (J5 k1 ptr H1)) as [i Hi].
  assert (s !! k1 = Some i) as Hs1 by (by rewrite J2, H1).
  assert (s !! k2 = Some i) as Hs2 by (by rewrite J2, H2).
  destruct (Hkeys k1 i Hs1) as [<- _]. by destruct (Hkeys k2 i Hs2) as [<- _].
Qed.

Lemma all_sampled k ptr : all !! k = Some ptr → is_Some (s !! k).
Proof.
  intros Hk. rewrite J2, Hk. simpl. apply lookup_lt_is_Some_2. by eapply J5.
Qed.

Lemma sampled_all k i : s !! k = Some i → ∃ ptr, all !! k = Some ptr ∧ heap !! ptr = Some i.
Proof.
  intros Hi. rewrite J2 in Hi. destruct (all !! k) as [ptr|]; [|done]. by exists ptr.
Qed.

Lemma recordAt_insert h k ptr v k' :
  all !! k = Some ptr → (ptr < length h)%nat →
  recordAt all (<[ptr := v]> h) k' = if decide (k' = k) then Some v else recordAt all h k'.
Proof.
  intros Hk Hlt. unfold recordAt. destruct (decide (k' = k)) as [->|Hne].
  - rewrite Hk. simpl. by apply list_lookup_insert_eq.
  - destruct (all !! k') as [ptr'|] eqn:Hk'; [|done]. simpl.
    apply list_lookup_insert_ne. intros <-. apply Hne. by eapply all_inj.
Qed.

Lemma recordAt_lookup h k ptr : all !! k = Some ptr → recordAt all h k = h !! ptr.
Proof. unfold recordAt. by intros ->. Qed.

Lemma childSamples_snoc seen c :
  childSamples s (seen ++ [c]) =
  childSamples s seen ++ match s !! c with Some ci => [ci] | None => [] end.
Proof. unfold childSamples. rewrite omap_app. simpl. by destruct (s !! c). Qed.

Lemma childQualifies_snoc seen c :
  childQualifies cfg s (seen ++ [c]) ↔
  childQualifies cfg s seen ∨ ∃ ci, s !! c = Some ci ∧ qualifies cfg ci = true.
Proof.
  unfold childQualifies. split.
  - intros (c' & ci & [Hc| ->%list_elem_of_singleton]%elem_of_app & Hci & Hq).
    + left. by exists c', ci.
    + right. by exists ci.
  - intros [(c' & ci & Hc & Hci & Hq)|(ci & Hci & Hq)].
    + exists c', ci. split; [|done]. apply elem_of_app. by left.
    + exists c, ci. split; [|done]. apply elem_of_app. right. by left.
Qed.

(** A leaf is never pulled into the qualifying set. *)
Lemma legacyQualifies_leaf done c ci :
  s !! c = Some ci → cm !! c = None →
  legacyQualifies cfg s cm done c ↔ qualifies cfg ci = true.
Proof.
  intros Hci Hcm. unfold legacyQualifies. split.
  - intros (i & Hi & [Hq|(_ & cs & Hcs & _)]); congruence.
  - intros Hq. exists ci. split; [done|by left].
Qed.

Lemma linked_leaf i : cm !! PID i = None → linked s cm i = i.
Proof. unfold linked. by intros ->. Qed.

(** The inner loop of the second pass over the children of [k]. *)
Lemma legacy_linkChildren done k ptr info rest :
  s !! k = Some info → all !! k = Some ptr →
  (∀ c, c ∈ rest → cm !! c = None) → is_Some (cm !! k) →
  ∀ seen st,
    linkChildInv cfg all s cm done k info seen st →
    linkChildInv cfg all s cm done k info (seen ++ rest)
      (fold_left (Legacy.linkChild all k ptr) rest st).
Proof.
  intros Hinfo Hptr Hleaves [cs0 Hcs0].
  induction rest as [|c rest IH]; intros seen st Hinv; simpl.
  { by rewrite app_nil_r. }
  assert (∀ c', c' ∈ rest → cm !! c' = None) as Hrest
    by (intros c' Hc'; apply Hleaves; by right).
  assert (cm !! c = None) as Hc by (apply Hleaves; by left).
  assert (c ≠ k) as Hck by (intros ->; congruence).
  replace (seen ++ c :: rest) with ((seen ++ [c]) ++ rest) by (by rewrite <- app_assoc).
  apply (IH Hrest). clear IH.
  destruct st as [h q]. destruct Hinv as (Hk & Hothers & Hq & Hqk). simpl in *.
  unfold Legacy.linkChild.
  destruct (all !! c) as [cptr|] eqn:Hcptr.
  2: { assert (s !! c = None) as Hsc by (by rewrite J2, Hcptr).
       split; [|split; [|split]]; simpl.
       - by rewrite childSamples_snoc, Hsc, app_nil_r.
       - done.
       - done.
       - intros ptr'. rewrite Hqk, childQualifies_snoc.
         split; intros [? [?|Hor]]; (split; [done|]); [by left|by right; left|by left|].
         destruct Hor as [?|(ci & Hci & _)]; [by right|congruence]. }
  destruct (all_sampled c cptr Hcptr) as [ci Hci].
  assert (h !! cptr = Some ci) as Hhc.
  { rewrite <- (recordAt_lookup h c cptr Hcptr), (Hothers c ci Hck Hci).
    destruct (Hkeys c ci Hci) as [HP _].
    rewrite linked_leaf by (by rewrite HP). by destruct (bool_decide _). }
  rewrite Hhc. rewrite (recordAt_lookup h k ptr Hptr) in Hk. rewrite Hk.
  assert ((ptr < length h)%nat) as Hlt by (eapply lookup_lt_Some; eauto).
  assert (childEntry ci (set_Children (entriesOf info (childSamples s seen)) info)
          = childEntry ci info) as Hentry.
  { reflexivity. }
  assert (is_Some (q !! c) ↔ qualifies cfg ci = true) as Hqc.
  { rewrite <- (legacyQualifies_leaf done c ci Hci Hc). split.
    - intros [p Hp]. by apply Hq in Hp as [_ ?].
    - intros HL. exists cptr. by apply Hq. }
  assert (∀ (q' : gmap Z nat),
    (∀ k', k' ≠ k → q' !! k' = q !! k') →
    (∀ ptr', q' !! k = Some ptr' ↔
       all !! k = Some ptr' ∧
       (qualifies cfg info = true ∨ childQualifies cfg s (seen ++ [c]))) →
    linkChildInv cfg all s cm done k info (seen ++ [c])
      (<[ptr := appendChild
                  (childEntry ci (set_Children (entriesOf info (childSamples s seen)) info))
                  (set_Children (entriesOf info (childSamples s seen)) info)]> h, q'))
    as Hfinish.
  { intros q' Hq'others Hq'k. split; [|split; [|split]]; simpl.
    - rewrite (recordAt_insert h k ptr _ k Hptr Hlt). rewrite decide_True by done.
      rewrite Hentry, appendChild_set_Children, childSamples_snoc, Hci.
      unfold entriesOf. by rewrite fmap_app.
    - intros k' i Hne Hi. rewrite (recordAt_insert h k ptr _ k' Hptr Hlt).
      rewrite decide_False by done. by apply Hothers.
    - intros k' ptr' Hne. rewrite (Hq'others k' Hne). by apply Hq.
    - done. }
  assert (qualifies cfg ci = true →
          ∀ ptr', ptr' = ptr ↔
            all !! k = Some ptr' ∧
            (qualifies cfg info = true ∨ childQualifies cfg s (seen ++ [c]))) as Hpulled.
  { intros Hcq ptr'. split.
    - intros ->. split; [done|]. right. apply childQualifies_snoc. right. by exists ci.
    - intros [Hp _]. congruence. }
  assert (qualifies cfg ci ≠ true →
          ∀ ptr', q !! k = Some ptr' ↔
            all !! k = Some ptr' ∧
            (qualifies cfg info = true ∨ childQualifies cfg s (seen ++ [c]))) as Hsame.
  { intros Hcq ptr'. rewrite Hqk, childQualifies_snoc.
    split; intros [? [?|Hor]]; (split; [done|]); [by left|by right; left|by left|].
    destruct Hor as [?|(ci' & Hci' & Hq')]; [by right|]. congruence. }
  destruct (q !! c) as [qc|] eqn:Hqcv.
  - assert (qualifies cfg ci = true) as Hcq by (apply Hqc; by eexists).
    destruct (q !! k) as [qk|] eqn:Hqkv.
    + apply Hfinish; [done|]. intros ptr'. rewrite Hqkv.
      destruct (proj1 (Hqk qk) eq_refl) as [Hqk1 _].
      assert (qk = ptr) as -> by congruence.
      rewrite <- (Hpulled Hcq ptr'). split; [by intros [= <-]|by intros ->].
    + apply Hfinish.
      * intros k' Hne. by rewrite lookup_insert_ne.
      * intros ptr'. rewrite lookup_insert_eq.
        rewrite <- (Hpulled Hcq ptr'). split; [by intros [= <-]|by intros ->].
  - assert (qualifies cfg ci ≠ true) as Hcq by (intros Hcq%Hqc; by destruct Hcq).
    specialize (Hsame Hcq).
    by apply Hfinish.
Qed.


Lemma linkInv_skip done k st :
  cm !! k = None → linkInv cfg all s cm done st → linkInv cfg all s cm (done ++ [k]) st.
Proof.
  intros Hcm [Hrec Hq]. split.
  - intros k' i Hi. rewrite (Hrec k' i Hi).
    destruct (decide (k' = k)) as [->|Hne].
    + destruct (Hkeys k i Hi) as [HP _].
      rewrite linked_leaf by (by rewrite HP). by do 2 destruct (bool_decide _).
    + do 2 case_bool_decide; try done.
      * exfalso. rewrite elem_of_app, list_elem_of_singleton in *. tauto.
      * exfalso. rewrite elem_of_app, list_elem_of_singleton in *. tauto.
  - intros k' ptr'. rewrite Hq. unfold legacyQualifies.
    split; intros [Hp (i & Hi & Hor)]; (split; [done|]); exists i; (split; [done|]);
      destruct Hor as [?|[Hd Hpull]]; try (by left); right; (split; [|done]).
    + apply elem_of_app. by left.
    + apply elem_of_app in Hd as [?| ->%list_elem_of_singleton]; [done|].
      destruct Hpull as (cs & Hcs & _). congruence.
Qed.

Lemma linkChildInv_start done k info st :
  s !! k = Some info → k ∉ done →
  linkInv cfg all s cm done st → linkChildInv cfg all s cm done k info [] st.
Proof.
  intros Hinfo Hnd [Hrec Hq]. destruct (Hkeys k info Hinfo) as [_ Hnil].
  split; [|split; [|split]].
  - rewrite (Hrec k info Hinfo). rewrite bool_decide_eq_false_2 by done.
    simpl. by rewrite <- Hnil, set_Children_same.
  - intros k' i _ Hi. by apply Hrec.
  - intros k' ptr' _. apply Hq.
  - intros ptr'. rewrite Hq. unfold legacyQualifies, childQualifies. split.
    + intros [Hp (i & Hi & [?|[? _]])]; [|done]. split; [done|]. left. congruence.
    + intros [Hp [?|(c & ci & Hc%elem_of_nil & _)]]; [|done].
      split; [done|]. exists info. split; [done|by left].
Qed.

Lemma linkInv_finish done k info cs st :
  s !! k = Some info → cm !! k = Some cs →
  linkChildInv cfg all s cm done k info cs st → linkInv cfg all s cm (done ++ [k]) st.
Proof.
  intros Hinfo Hcs (Hk & Hothers & Hq & Hqk). destruct (Hkeys k info Hinfo) as [HP _].
  split.
  - intros k' i Hi. destruct (decide (k' = k)) as [->|Hne].
    + assert (i = info) as -> by congruence. rewrite Hk.
      rewrite bool_decide_eq_true_2 by (apply elem_of_app; right; by left).
      unfold linked. by rewrite HP, Hcs.
    + rewrite (Hothers k' i Hne Hi).
      do 2 case_bool_decide; try done;
        exfalso; rewrite elem_of_app, list_elem_of_singleton in *; tauto.
  - intros k' ptr'. destruct (decide (k' = k)) as [->|Hne].
    + rewrite Hqk. unfold legacyQualifies, pulledIn. split.
      * intros [Hp Hor]. split; [done|]. exists info. split; [done|].
        destruct Hor as [?|Hc]; [by left|]. right.
        split; [apply elem_of_app; right; by left|]. by exists cs.
      * intros [Hp (i & Hi & Hor)]. split; [done|].
        assert (i = info) as -> by congruence.
        destruct Hor as [?|[_ (cs' & Hcs' & Hc)]]; [by left|]. right. congruence.
    + rewrite (Hq k' ptr' Hne). unfold legacyQualifies.
      split; intros [Hp (i & Hi & Hor)]; (split; [done|]); exists i; (split; [done|]);
        destruct Hor as [?|[Hd Hpull]]; try (by left); right; (split; [|done]).
      * apply elem_of_app. by left.
      * apply elem_of_app in Hd as [?| ->%list_elem_of_singleton]; done.
Qed.

(** The second pass of the earlier revision. *)
Lemma legacy_link (l : list (Z * nat)) :
  NoDup l.*1 → (∀ k ptr, (k, ptr) ∈ l → all !! k = Some ptr) →
  ∀ done st, (∀ k, k ∈ l.*1 → k ∉ done) →
    linkInv cfg all s cm done st →
    linkInv cfg all s cm (done ++ l.*1) (fold_left (Legacy.linkStep all cm) l st).
Proof.
  induction l as [|[k ptr] l IH]; intros Hnd Hall done st Hfresh Hinv.
  { simpl. by rewrite app_nil_r. }
  rewrite fmap_cons in *. cbn [fold_left fst] in *.
  apply NoDup_cons in Hnd as [Hk Hnd].
  replace (done ++ k :: l.*1) with ((done ++ [k]) ++ l.*1) by (by rewrite <- app_assoc).
  assert (∀ k' ptr', (k', ptr') ∈ l → all !! k' = Some ptr') as Hall'
    by (intros k' ptr' Hin; apply Hall; by right).
  assert (all !! k = Some ptr) as Hptr by (apply Hall; left).
  assert (k ∉ done) as Hkd by (apply Hfresh; left).
  apply (IH Hnd Hall').
  { intros k' Hk' [Hd| ->%list_elem_of_singleton]%elem_of_app; [|done].
    apply (Hfresh k'); [by right|done]. }
  unfold Legacy.linkStep. simpl.
  destruct (cm !! k) as [cs|] eqn:Hcs; [|by apply linkInv_skip].
  destruct (all_sampled k ptr Hptr) as [info Hinfo].
  apply (linkInv_finish done k info cs _ Hinfo Hcs).
  apply (legacy_linkChildren done k ptr info cs Hinfo Hptr) with (seen := []).
  - intros c Hc. by apply (Hleaf k info cs c).
  - by eexists.
  - by apply linkChildInv_start.
Qed.

(** The totals pass of the earlier revision. *)
Lemma legacy_aggregate (l : list (Z * nat)) :
  NoDup l.*1 → (∀ k ptr, (k, ptr) ∈ l → all !! k = Some ptr) →
  ∀ h k, recordAt all (fold_left Legacy.aggregateStep l h) k
         = (if bool_decide (k ∈ l.*1) then Legacy.sumChildren else id) <$> recordAt all h k.
Proof.
  induction l as [|[k0 ptr] l IH]; intros Hnd Hall h k.
  { simpl. by destruct (recordAt all h k). }
  rewrite fmap_cons in *. cbn [fold_left fst] in *.
  apply NoDup_cons in Hnd as [Hk0 Hnd].
  assert (∀ k' ptr', (k', ptr') ∈ l → all !! k' = Some ptr') as Hall'
    by (intros k' ptr' Hin; apply Hall; by right).
  assert (all !! k0 = Some ptr) as Hptr by (apply Hall; left).
  rewrite (IH Hnd Hall'). unfold Legacy.aggregateStep. simpl.
  destruct (h !! ptr) as [info|] eqn:Hinfo.
  - assert ((ptr < length h)%nat) as Hlt by (eapply lookup_lt_Some; eauto).
    rewrite (recordAt_insert h k0 ptr _ k Hptr Hlt).
    destruct (decide (k = k0)) as [->|Hne].
    + rewrite (recordAt_lookup h k0 ptr Hptr), Hinfo. simpl.
      rewrite bool_decide_eq_false_2 by done.
      rewrite bool_decide_eq_true_2 by left. done.
    + destruct (recordAt all h k) as [i|]; [|done]. simpl.
      do 2 case_bool_decide; try done; exfalso; rewrite elem_of_cons in *; tauto.
  - destruct (decide (k = k0)) as [->|Hne].
    + by rewrite (recordAt_lookup h k0 ptr Hptr), Hinfo.
    + destruct (recordAt all h k) as [i|]; [|done]. simpl.
      do 2 case_bool_decide; try done; exfalso; rewrite elem_of_cons in *; tauto.
Qed.

End LegacyPasses.

Section LegacyThirdPass.

Lemma ensureMemoryMB_idem i : ensureMemoryMB (ensureMemoryMB i) = ensureMemoryMB i.
Proof. unfold ensureMemoryMB. destruct i as [? ? ? ? ? ? [|c cs] ? ? ?]; reflexivity. Qed.

Lemma ensureMemoryMB_PPID i : PPID (ensureMemoryMB i) = PPID i.
Proof. unfold ensureMemoryMB. by destruct (Children i). Qed.

(** The third pass of the earlier revision: the pointers kept are
    those whose record has no qualifying parent, and the records behind
    them have [MemoryMB] set. *)
Lemma legacy_thirdPass (qual : gmap Z nat) (heap : list ProcessInfo) (l : list (Z * nat)) :
  ∀ h f,
    (∀ ptr, h !! ptr = heap !! ptr ∨ h !! ptr = ensureMemoryMB <$> heap !! ptr) →
    (∀ ptr, ptr ∈ f → h !! ptr = ensureMemoryMB <$> heap !! ptr) →
    let '(h', f') := fold_left (Legacy.topLevelStep qual) l (h, f) in
    (∀ ptr, ptr ∈ f' → h' !! ptr = ensureMemoryMB <$> heap !! ptr) ∧
    (∀ ptr, ptr ∈ f' ↔
       ptr ∈ f ∨ ∃ k i, (k, ptr) ∈ l ∧ heap !! ptr = Some i ∧ qual !! PPID i = None).
Proof.
  induction l as [|[k ptr] l IH]; intros h f Hh Hf; simpl.
  - split; [done|]. intros ptr. split; [by left|].
    intros [?|(k & i & Hin & _)]; [done|]. by apply elem_of_nil in Hin.
  - destruct (h !! ptr) as [i|] eqn:Hi.
    2: { specialize (IH h f Hh Hf).
         destruct (fold_left _ l (h, f)) as [h' f']. destruct IH as [IH1 IH2].
         split; [done|]. intros p0. rewrite IH2. split.
         - intros [?|(k0 & i0 & Hin & Hr)]; [by left|]. right. exists k0, i0.
           split; [by right|done].
         - intros [?|(k0 & i0 & Hin & Hi0 & Hq)]; [by left|].
           apply elem_of_cons in Hin as [[= -> ->]|Hin]; [|right; by exists k0, i0].
           destruct (Hh ptr) as [Heq|Heq]; rewrite Hi0 in Heq; simpl in Heq; congruence. }
    assert (∃ i0, heap !! ptr = Some i0 ∧ PPID i = PPID i0 ∧
                  ensureMemoryMB i = ensureMemoryMB i0) as (i0 & Hi0 & HPP & Hr).
    { destruct (Hh ptr) as [Heq|Heq]; rewrite Hi in Heq;
        destruct (heap !! ptr) as [i0|] eqn:Hi0; try done; simpl in Heq;
        injection Heq as ->; exists i0; (split; [done|]).
      - done.
      - by rewrite ensureMemoryMB_PPID, ensureMemoryMB_idem. }
    rewrite HPP. destruct (qual !! PPID i0) as [j|] eqn:Hq.
    + specialize (IH h f Hh Hf).
      destruct (fold_left _ l (h, f)) as [h' f']. destruct IH as [IH1 IH2].
      split; [done|]. intros p0. rewrite IH2. split.
      * intros [?|(k0 & i1 & Hin & Hr')]; [by left|]. right. exists k0, i1.
        split; [by right|done].
      * intros [?|(k0 & i1 & Hin & Hi1 & Hq1)]; [by left|].
        apply elem_of_cons in Hin as [[= -> ->]|Hin]; [|right; by exists k0, i1].
        congruence.
    + assert ((ptr < length h)%nat) as Hlt by (eapply lookup_lt_Some; eauto).
      set (h1 := match Children i with
                 | [] => <[ptr := refreshMemoryMB i]> h
                 | _ => h
                 end).
      assert (h1 !! ptr = Some (ensureMemoryMB i0) ∧
              ∀ p0, p0 ≠ ptr → h1 !! p0 = h !! p0) as [Hh1 Hh1'].
      { rewrite <- Hr. unfold h1, ensureMemoryMB. destruct (Children i).
        - split; [by apply list_lookup_insert_eq|].
          intros p0 Hne. by apply list_lookup_insert_ne.
        - done. }
      specialize (IH h1 (f ++ [ptr])).
      destruct (fold_left _ l _) as [h' f']. destruct IH as [IH1 IH2].
      * intros p0. destruct (decide (p0 = ptr)) as [->|Hne].
        -- right. by rewrite Hh1, Hi0.
        -- rewrite (Hh1' p0 Hne). apply Hh.
      * intros p0 [Hin|Hin]%elem_of_app.
        -- destruct (decide (p0 = ptr)) as [->|Hne].
           ++ by rewrite Hh1, Hi0.
           ++ rewrite (Hh1' p0 Hne). by apply Hf.
        -- apply list_elem_of_singleton in Hin as ->. by rewrite Hh1, Hi0.
      * split; [done|]. intros p0. rewrite IH2, elem_of_app, list_elem_of_singleton. split.
        -- intros [[?| ->]|(k0 & i1 & Hin & Hr')]; [by left| |].
           ++ right. exists k, i0. split; [by left|done].
           ++ right. exists k0, i1. split; [by right|done].
        -- intros [?|(k0 & i1 & Hin & Hi1 & Hq1)]; [by left; left|].
           apply elem_of_cons in Hin as [[= -> ->]|Hin]; [by left; right|].
           right. by exists k0, i1.
Qed.

End LegacyThirdPass.

(** ** float64 sums in either order *)

Section FloatSums.

Lemma SFadd_comm prec emax x y : SFadd prec emax x y = SFadd prec emax y x.
Proof.
  destruct x as [sx|sx| |sx mx ex], y as [sy|sy| |sy my ey]; try reflexivity.
  - simpl. destruct sx, sy; reflexivity.
  - simpl. destruct sx, sy; reflexivity.
  - unfold SFadd. rewrite (Z.min_comm ey ex). f_equal. apply Z.add_comm.
Qed.

Lemma float_add_comm (x y : float) : (x + y)%float = (y + x)%float.
Proof. apply Prim2SF_inj. rewrite !add_spec. apply SFadd_comm. Qed.

Lemma float_add_zero_l (c : float) : Prim2SF c ≠ S754_zero true → (0 + c)%float = c.
Proof.
  intros Hc. apply Prim2SF_inj. rewrite add_spec.
  change (Prim2SF 0) with (S754_zero false).
  destruct (Prim2SF c) as [[]| | |]; try reflexivity. done.
Qed.

(** With one child, whose CPU sample is not the negative zero, the
    order of the sum is irrelevant. *)
Lemma sumOrderIrrelevant_one_child info ci :
  Prim2SF (CPUPercent ci) ≠ S754_zero true → sumOrderIrrelevant info [ci].
Proof.
  intros Hc. unfold sumOrderIrrelevant, totalChildCPU, sumCPU. simpl.
  rewrite (float_add_zero_l _ Hc). apply float_add_comm.
Qed.

End FloatSums.

(** ** The record of a family in both revisions *)

Section FamilyRecords.

Variable cfg : Config.
Variable s : gmap Z ProcessInfo.
Variable cm : gmap Z (list Z).
Hypothesis Hkeys : ∀ k i, s !! k = Some i → PID i = k ∧ Children i = [].
Hypothesis Hne : ∀ k cs, cm !! k = Some cs → childSamples s cs ≠ [].

Lemma sumChildren_PPID i : PPID (Legacy.sumChildren i) = PPID i.
Proof. unfold Legacy.sumChildren. by destruct (Children i). Qed.

Lemma linked_PPID i : PPID (linked s cm i) = PPID i.
Proof. unfold linked. by destruct (cm !! PID i). Qed.

Lemma familyRecord_PPID i : PPID (familyRecord s cm i) = PPID i.
Proof.
  unfold familyRecord. destruct (cm !! PID i); [|done]. apply aggregatedRecord_fields.
Qed.

(** On a family whose sum does not depend on the order, the record of
    the earlier revision is the [familyRecord]. *)
Lemma legacy_record i :
  s !! PID i = Some i →
  (∀ cs, cm !! PID i = Some cs → sumOrderIrrelevant i (childSamples s cs)) →
  ensureMemoryMB (Legacy.sumChildren (linked s cm i)) = familyRecord s cm i.
Proof.
  intros Hi Hsum. destruct (Hkeys _ _ Hi) as [_ Hnil].
  unfold linked, familyRecord. destruct (cm !! PID i) as [cs|] eqn:Hcs.
  2: { unfold Legacy.sumChildren. rewrite Hnil. unfold ensureMemoryMB. by rewrite Hnil. }
  specialize (Hsum cs eq_refl). unfold sumOrderIrrelevant in Hsum.
  pose proof (Hne _ _ Hcs) as Hcis.
  assert (entriesOf i (childSamples s cs) ≠ []) as Hes.
  { unfold entriesOf. by destruct (childSamples s cs). }
  destruct (entriesOf i (childSamples s cs)) as [|e es] eqn:Hees; [done|].
  change (ensureMemoryMB (Legacy.sumChildren (set_Children (e :: es) i)))
    with (storeTotals (totalChildCPU (e :: es) + CPUPercent i)%float
            (Go.uint64 (sumMemory 0 (e :: es) + MemoryBytes i))
            (storeOriginals (set_Children (e :: es) i))).
  change (aggregatedRecord i (e :: es))
    with (storeTotals (sumCPU (CPUPercent i) (e :: es)) (sumMemory (MemoryBytes i) (e :: es))
            (set_Children (Children i ++ e :: es) (storeOriginals i))).
  rewrite Hnil, Hsum. cbn [app].
  rewrite (sumMemory_mod (e :: es) 0) by done.
  rewrite (sumMemory_mod (e :: es) (MemoryBytes i)) by done.
  assert (Go.uint64 (Go.uint64 (0 + totalChildMemory (e :: es)) + MemoryBytes i)
          = Go.uint64 (MemoryBytes i + totalChildMemory (e :: es))) as ->; [|done].
  unfold Go.uint64. rewrite Zplus_mod_idemp_l. f_equal. lia.
Qed.

(** A family's record reaches a threshold when a member does, if the
    family qualifies by a member. *)
Lemma familyRecord_qualifies k i :
  s !! k = Some i →
  (∀ cs, cm !! k = Some cs → qualifiesByMember cfg i (childSamples s cs)) →
  qualifies cfg (familyRecord s cm i) = true ↔
  qualifies cfg i = true ∨ pulledIn cfg s cm k.
Proof.
  intros Hi Hq. destruct (Hkeys _ _ Hi) as [HP _]. unfold familyRecord, pulledIn.
  rewrite HP. destruct (cm !! k) as [cs|] eqn:Hcs.
  - pose proof (Hq cs eq_refl) as Hm. unfold qualifiesByMember in Hm. rewrite Hm.
    split; (intros [?|Hc]; [by left|right]).
    + destruct Hc as (ci & (c & Hc & Hci)%list_elem_of_omap & Hqc).
      exists cs. split; [done|]. by exists c, ci.
    + destruct Hc as (cs' & [= <-] & c & ci & Hc & Hci & Hqc).
      exists ci. split; [|done]. apply list_elem_of_omap. by exists c.
  - split; [by left|]. by intros [?|(cs & ? & _)].
Qed.

End FamilyRecords.

(** C6, as stated, fails, in six ways. For a qualifying parent with
    one unrelated child, the earlier revision records the child and adds
    its usage to the parent, the later one does neither. In a chain of
    three related generations the earlier revision adds the child's own
    sample to the grandparent, the later one the child's total. With
    two related children the earlier revision adds the parent's CPU
    last, the later one first, and the two float64 sums differ. A
    family whose members are all below the thresholds, but whose total
    is not, is returned by the later revision only. A family whose
    memory total wraps around is returned as the parent by the earlier
    revision and as the child by the later one. When a scan lists a
    PID twice, the earlier revision keeps the first record in its
    qualifying set and returns it, the later one sees the second
    only. *)
Lemma revisions_differ :
  (∃ a b,
     Legacy.GetFilteredProcesses rangeInOrder insertionSort defaultConfig ∅
       (Some unrelatedChild) = Returned [a] ∧
     GetFilteredProcesses rangeInOrder insertionSort 2 defaultConfig ∅
       (Some unrelatedChild) = Some (Returned [b]) ∧
     CPUPercent a = 11%float ∧ CPUPercent b = 10%float ∧
     length (Children a) = 1%nat ∧ Children b = []) ∧
  (∃ a b,
     Legacy.GetFilteredProcesses rangeInOrder insertionSort defaultConfig ∅
       (Some relatedChain) = Returned [a] ∧
     GetFilteredProcesses rangeInOrder insertionSort 3 defaultConfig ∅
       (Some relatedChain) = Some (Returned [b]) ∧
     CPUPercent a = 11%float ∧ CPUPercent b = 12%float ∧
     ChildCPUPercent <$> Children a = [1%float] ∧
     ChildCPUPercent <$> Children b = [2%float]) ∧
  (∃ a b,
     Legacy.GetFilteredProcesses rangeInOrder insertionSort defaultConfig ∅
       (Some threeOfAKind) = Returned [a] ∧
     GetFilteredProcesses rangeInOrder insertionSort 2 defaultConfig ∅
       (Some threeOfAKind) = Some (Returned [b]) ∧
     CPUPercent a = (0.2 + 0.3 + 0.1)%float ∧ CPUPercent b = (0.1 + 0.2 + 0.3)%float ∧
     (CPUPercent a <? CPUPercent b)%float = true ∧
     Children a = Children b) ∧
  (∃ b,
     Legacy.GetFilteredProcesses rangeInOrder insertionSort defaultConfig ∅
       (Some sumAboveThreshold) = Returned [] ∧
     GetFilteredProcesses rangeInOrder insertionSort 2 defaultConfig ∅
       (Some sumAboveThreshold) = Some (Returned [b]) ∧
     PID b = 1 ∧ CPUPercent b = 6%float) ∧
  (∃ a b,
     Legacy.GetFilteredProcesses rangeInOrder insertionSort defaultConfig ∅
       (Some memoryWraps) = Returned [a] ∧
     GetFilteredProcesses rangeInOrder insertionSort 2 defaultConfig ∅
       (Some memoryWraps) = Some (Returned [b]) ∧
     PID a = 1 ∧ MemoryBytes a = 0 ∧ PID b = 2 ∧ MemoryBytes b = 2 ^ 63) ∧
  (∃ a,
     Legacy.GetFilteredProcesses rangeInOrder insertionSort defaultConfig ∅
       (Some samePIDTwice) = Returned [a] ∧
     GetFilteredProcesses rangeInOrder insertionSort 2 defaultConfig ∅
       (Some samePIDTwice) = Some (Returned []) ∧
     CPUPercent a = 10%float).
Proof.
  split; [|split; [|split; [|split; [|split]]]].
  - eexists _, _. split; [vm_compute; reflexivity|].
    split; [vm_compute; reflexivity|]. by vm_compute.
  - eexists _, _. split; [vm_compute; reflexivity|].
    split; [vm_compute; reflexivity|]. by vm_compute.
  - eexists _, _. split; [vm_compute; reflexivity|].
    split; [vm_compute; reflexivity|]. by vm_compute.
  - eexists. split; [vm_compute; reflexivity|].
    split; [vm_compute; reflexivity|]. by vm_compute.
  - eexists _, _. split; [vm_compute; reflexivity|].
    split; [vm_compute; reflexivity|]. by vm_compute.
  - eexists. split; [vm_compute; reflexivity|].
    split; [vm_compute; reflexivity|]. by vm_compute.
Qed.

Section Revisions.

Variable range : ∀ A, nat → gmap Z A → list (Z * A).
Variable sort_Slice : list ProcessInfo → (ProcessInfo → ProcessInfo → bool) → list ProcessInfo.
Hypothesis range_perm : ∀ A site (m : gmap Z A), range A site m ≡ₚ map_to_list m.
Hypothesis sort_perm : ∀ l less, sort_Slice l less ≡ₚ l.

Lemma children_sampled m processes k cs c :
  childrenMapOf m processes !! k = Some cs → c ∈ cs →
  is_Some (samplesOf m processes !! c).
Proof.
  intros Hcs Hc.
  destruct (collect_children m processes k cs c Hcs Hc) as (p & Hp & Hr & <- & _).
  by destruct (collect_member m processes p Hp Hr).
Qed.

Lemma childSamples_nonempty m processes k cs :
  childrenMapOf m processes !! k = Some cs →
  childSamples (samplesOf m processes) cs ≠ [].
Proof.
  intros Hcs. destruct (collect_sources m processes) as [_ H2].
  destruct (H2 k) as (p & Hp & Hr & Hpp & Hnz); [by eexists|].
  destruct (collect_member m processes p Hp Hr) as [[ci Hci] Hin].
  destruct Hin as (cs' & Hcs' & Hpin); [by rewrite Hpp|].
  rewrite Hpp, Hcs in Hcs'. injection Hcs' as <-.
  intros Hnil. assert (ci ∈ childSamples (samplesOf m processes) cs) as Hin.
  { apply list_elem_of_omap. by exists (Pid p). }
  rewrite Hnil in Hin. by apply elem_of_nil in Hin.
Qed.

(** The rows of the earlier revision on a scan with distinct PIDs
    whose listed children are leaves. *)
Lemma legacy_rows cfg m processes x :
  NoDup (Pid <$> processes) →
  (∀ k i cs c, samplesOf m processes !! k = Some i →
     childrenMapOf m processes !! k = Some cs → c ∈ cs →
     childrenMapOf m processes !! c = None) →
  x ∈ Legacy.rows range cfg m processes ↔
  ∃ i, samplesOf m processes !! PID i = Some i ∧
       (qualifies cfg i = true ∨
        pulledIn cfg (samplesOf m processes) (childrenMapOf m processes) (PID i)) ∧
       (∀ j, samplesOf m processes !! PPID i = Some j →
          ¬ (qualifies cfg j = true ∨
             pulledIn cfg (samplesOf m processes) (childrenMapOf m processes) (PPID i))) ∧
       x = ensureMemoryMB
             (Legacy.sumChildren
                (linked (samplesOf m processes) (childrenMapOf m processes) i)).
Proof.
  intros Hnd Hleaf. unfold Legacy.rows.
  pose proof (legacy_collect cfg m processes Hnd) as HJ.
  pose proof (collect_keys m processes) as Hkeys.
  unfold samplesOf, childrenMapOf in *.
  destruct (fold_left (Legacy.collectStep cfg) processes _)
    as [[[[mL heap] all] qual] cmL].
  destruct (collect m processes) as [[mN s] cm]. simpl in *.
  destruct HJ as (_ & -> & J2 & J3 & J5 & J6 & _).
  (* the second pass *)
  pose proof (legacy_link cfg heap all s cm J2 J5 Hkeys Hleaf (range _ 2%nat all)
                (range_NoDup range range_perm 2%nat all)
                (fun k ptr Hin => proj1 (range_elem range range_perm 2%nat all k ptr) Hin)
                [] (heap, qual)) as Hlink.
  destruct (fold_left (Legacy.linkStep all cm) _ (heap, qual)) as [h1 q1].
  destruct Hlink as [Hrec Hq1].
  { intros k _ Hk. by apply elem_of_nil in Hk. }
  { split; simpl.
    - intros k i Hi. unfold recordAt. by rewrite <- J2.
    - intros k ptr. rewrite J3. unfold legacyQualifies.
      split; intros [Hptr (i & Hi & Hor)]; (split; [done|]).
      + exists i. split; [by rewrite J2, Hptr|by left].
      + exists i. rewrite J2, Hptr in Hi. split; [done|].
        destruct Hor as [?|[Hin _]]; [done|]. by apply elem_of_nil in Hin. }
  simpl in Hrec, Hq1.
  assert (∀ k i, s !! k = Some i → recordAt all h1 k = Some (linked s cm i)) as Hrec1.
  { intros k i Hi. rewrite (Hrec k i Hi). rewrite bool_decide_eq_true_2; [done|].
    simpl. apply (range_keys range range_perm).
    destruct (sampled_all heap all s J2 k i Hi) as (ptr & Hptr & _). by eexists. }
  assert (∀ k ptr, q1 !! k = Some ptr ↔
            all !! k = Some ptr ∧
            ∃ i, s !! k = Some i ∧ (qualifies cfg i = true ∨ pulledIn cfg s cm k)) as Hq.
  { intros k ptr. rewrite Hq1. unfold legacyQualifies.
    split; intros [Hptr (i & Hi & Hor)]; (split; [done|]); exists i; (split; [done|]);
      destruct Hor as [?|Hp]; try (by left); right; [by destruct Hp|].
    split; [|done]. simpl. apply (range_keys range range_perm). by eexists. }
  clear Hrec Hq1.
  (* the totals *)
  pose proof (legacy_aggregate heap all s J2 J5 Hkeys (range _ 3%nat q1)
                (range_NoDup range range_perm 3%nat q1)) as Hagg.
  specialize (Hagg (fun k ptr Hin =>
    proj1 (proj1 (Hq k ptr) (proj1 (range_elem range range_perm 3%nat q1 k ptr) Hin))) h1).
  set (h2 := fold_left Legacy.aggregateStep (range _ 3%nat q1) h1) in *.
  assert (∀ k ptr i, q1 !! k = Some ptr → s !! k = Some i →
            h2 !! ptr = Some (Legacy.sumChildren (linked s cm i))) as Hh2.
  { intros k ptr i Hk Hi. pose proof (proj1 (Hq k ptr) Hk) as [Hptr _].
    rewrite <- (recordAt_lookup all h2 k ptr Hptr), Hagg, (Hrec1 k i Hi).
    rewrite bool_decide_eq_true_2; [done|].
    apply (range_keys range range_perm). by eexists. }
  (* the third pass *)
  pose proof (legacy_thirdPass q1 h2 (range _ 4%nat q1) h2 []) as Htop.
  destruct (fold_left (Legacy.topLevelStep q1) _ (h2, [])) as [h' f'].
  destruct Htop as [Hh Hf]; [by left|by intros ptr Hptr%elem_of_nil|].
  rewrite list_elem_of_omap. split.
  - intros (ptr & Hptr & Hx). pose proof (Hh ptr Hptr) as Hr.
    apply Hf in Hptr as [Hptr|(k & i & Hin & Hi & Hpar)]; [by apply elem_of_nil in Hptr|].
    apply (range_elem range range_perm) in Hin.
    destruct (proj1 (Hq k ptr) Hin) as (Hall & i0 & Hi0 & Hor).
    rewrite (Hh2 k ptr i0 Hin Hi0) in Hi. injection Hi as <-.
    rewrite sumChildren_PPID, linked_PPID in Hpar.
    destruct (Hkeys k i0 Hi0) as [<- _].
    exists i0. split; [done|]. split; [done|]. split.
    + intros j Hj Horj.
      destruct (sampled_all heap all s J2 _ j Hj) as (pp & Hpp & _).
      assert (q1 !! PPID i0 = Some pp) as Hc; [|congruence].
      apply Hq. split; [done|]. by exists j.
    + rewrite Hr, (Hh2 _ ptr i0 Hin Hi0) in Hx. simpl in Hx. congruence.
  - intros (i & Hi & Hor & Hpar & ->).
    destruct (sampled_all heap all s J2 _ i Hi) as (ptr & Hptr & _).
    assert (q1 !! PID i = Some ptr) as Hqi.
    { apply Hq. split; [done|]. by exists i. }
    assert (ptr ∈ f') as Hin.
    { apply Hf. right. exists (PID i), (Legacy.sumChildren (linked s cm i)).
      split; [by apply (range_elem range range_perm)|]. split; [by eapply Hh2|].
      rewrite sumChildren_PPID, linked_PPID.
      destruct (q1 !! PPID i) as [pp|] eqn:Hpp; [|done].
      destruct (proj1 (Hq _ _) Hpp) as (_ & j & Hj & Horj). by destruct (Hpar j Hj). }
    exists ptr. split; [done|]. rewrite (Hh ptr Hin), (Hh2 _ ptr i Hqi Hi). done.
Qed.

(** C6 (amended): on a scan with distinct PIDs in which, for every
    sampled parent, the children are leaves related to it, the float64
    sum of the family's CPU does not depend on whether the parent is
    added first or last, and the family's totals reach a threshold
    exactly when the sample of one of its members does, the two
    revisions return the same set of rows, the later one within a call
    stack of two frames: each row is the aggregated record of a family,
    with its totals and its entries, or a sample without children. *)
Theorem revisions_agree_on_flat_families fuel cfg m processes :
  NoDup (Pid <$> processes) →
  (∀ info cis,
     isFamily (samplesOf m processes) (childrenMapOf m processes) info cis →
     flatAndRelated (childrenMapOf m processes) info cis ∧
     sumOrderIrrelevant info cis ∧
     qualifiesByMember cfg info cis) →
  ∃ legacyRows newRows,
    Legacy.GetFilteredProcesses range sort_Slice cfg m (Some processes)
      = Returned legacyRows ∧
    GetFilteredProcesses range sort_Slice (S (S fuel)) cfg m (Some processes)
      = Some (Returned newRows) ∧
    (∀ x, x ∈ legacyRows ↔ x ∈ newRows) ∧
    (∀ x, x ∈ newRows →
       ∃ info, samplesOf m processes !! PID x = Some info ∧
         x = familyRecord (samplesOf m processes) (childrenMapOf m processes) info).
Proof.
  intros Hnd Hfam.
  pose proof (collect_keys m processes) as Hkeys.
  pose proof (children_sampled m processes) as Hpresent.
  pose proof (childSamples_nonempty m processes) as Hne.
  set (s := samplesOf m processes) in *. set (cm := childrenMapOf m processes) in *.
  assert (∀ info cis, isFamily s cm info cis → flatAndRelated cm info cis) as Hflat
    by (intros info cis Hf; by destruct (Hfam info cis Hf)).
  assert (∀ k i cs, s !! k = Some i → cm !! k = Some cs →
            isFamily s cm i (childSamples s cs)) as Hisfam.
  { intros k i cs Hi Hcs. destruct (Hkeys k i Hi) as [<- _]. split; [done|]. by exists cs. }
  assert (∀ k i cs c, s !! k = Some i → cm !! k = Some cs → c ∈ cs → cm !! c = None)
    as Hleaf.
  { intros k i cs c Hi Hcs Hc. destruct (Hpresent k cs c Hcs Hc) as [ci Hci].
    by destruct (family_child s cm Hkeys Hflat k i cs c ci Hi Hcs Hc Hci). }
  destruct (aggregatePass_families range range_perm s cm Hkeys Hpresent Hflat fuel)
    as (st & Hrun & Hst).
  assert (∀ k y, allProcesses st !! k = Some y ↔
                 ∃ i, s !! k = Some i ∧ y = familyRecord s cm i) as Hstore.
  { intros k y. rewrite Hst. destruct (s !! k) as [i|]; simpl.
    - split; [intros [= <-]; by exists i|]. by intros (i' & [= <-] & ->).
    - split; [done|]. by intros (i' & ? & _). }
  assert (∀ k y, qualifyingProcesses range cfg (allProcesses st) !! k = Some y ↔
                 allProcesses st !! k = Some y ∧ qualifies cfg y = true) as Hq.
  { intros k y. apply qualifyingProcesses_lookup; [done|].
    intros q j. by apply (store_keys range (S (S fuel)) m processes st). }
  assert (∀ k i, s !! k = Some i →
            qualifies cfg (familyRecord s cm i) = true ↔
            qualifies cfg i = true ∨ pulledIn cfg s cm k) as Hqual.
  { intros k i Hi. apply (familyRecord_qualifies cfg s cm Hkeys k i Hi).
    intros cs Hcs. by destruct (Hfam i _ (Hisfam k i cs Hi Hcs)) as (_ & _ & ?). }
  eexists _, (sort_Slice (topLevel range (qualifyingProcesses range cfg (allProcesses st)))
                byCPUDescending).
  split; [reflexivity|]. split.
  { unfold GetFilteredProcesses. unfold s, cm, samplesOf, childrenMapOf in Hrun.
    destruct (collect m processes) as [[m' all] cm']. simpl in *. by rewrite Hrun. }
  assert (∀ x,
    x ∈ sort_Slice (topLevel range (qualifyingProcesses range cfg (allProcesses st)))
          byCPUDescending ↔
    ∃ i, s !! PID i = Some i ∧
         (qualifies cfg i = true ∨ pulledIn cfg s cm (PID i)) ∧
         (∀ j, s !! PPID i = Some j →
            ¬ (qualifies cfg j = true ∨ pulledIn cfg s cm (PPID i))) ∧
         x = familyRecord s cm i) as Hnew.
  { intros x.
    rewrite (returned_elem range sort_Slice range_perm sort_perm (S (S fuel)) cfg m
               processes st _ x Hrun eq_refl).
    rewrite Hq. split.
    - intros [[(i & Hi & ->)%Hstore Hqx] Hpar].
      assert (PID (familyRecord s cm i) = PID i) as HP.
      { unfold familyRecord. destruct (cm !! PID i); [|done]. apply aggregatedRecord_fields. }
      rewrite HP in Hi. rewrite familyRecord_PPID in Hpar.
      exists i. split; [done|]. split; [by apply (Hqual _ i Hi)|]. split; [|done].
      intros j Hj Hor%(Hqual _ j Hj).
      assert (qualifyingProcesses range cfg (allProcesses st) !! PPID i
              = Some (familyRecord s cm j)) as Hc; [|congruence].
      apply Hq. split; [|done]. apply Hstore. by exists j.
    - intros (i & Hi & Hqi & Hpar & ->).
      assert (PID (familyRecord s cm i) = PID i) as HP.
      { unfold familyRecord. destruct (cm !! PID i); [|done]. apply aggregatedRecord_fields. }
      rewrite HP, familyRecord_PPID. split.
      + split; [apply Hstore; by exists i|]. by apply (Hqual _ i Hi).
      + destruct (qualifyingProcesses range cfg (allProcesses st) !! PPID i)
          as [y|] eqn:Hy; [|done].
        apply Hq in Hy as [(j & Hj & ->)%Hstore Hqy].
        apply (Hqual _ j Hj) in Hqy. by destruct (Hpar j Hj). }
  split.
  - intros x. rewrite (sort_perm _ _), Hnew.
    rewrite (legacy_rows cfg m processes x Hnd Hleaf). fold s cm.
    split; intros (i & Hi & Hqi & Hpar & ->); exists i; repeat (split; [done|]).
    + apply (legacy_record s cm Hkeys Hne i Hi).
      intros cs Hcs. by destruct (Hfam i _ (Hisfam _ i cs Hi Hcs)) as (_ & ? & _).
    + symmetry. apply (legacy_record s cm Hkeys Hne i Hi).
      intros cs Hcs. by destruct (Hfam i _ (Hisfam _ i cs Hi Hcs)) as (_ & ? & _).
  - intros x (i & Hi & _ & _ & ->)%Hnew. exists i. split; [|done].
    assert (PID (familyRecord s cm i) = PID i) as ->; [|done].
    unfold familyRecord. destruct (cm !! PID i); [|done]. apply aggregatedRecord_fields.
Qed.

End Revisions.

Lemma revisions_agree_on_flat_families_witness :
  ∃ legacyRows newRows,
    Legacy.GetFilteredProcesses rangeInOrder insertionSort defaultConfig ∅
      (Some chromeScenario) = Returned legacyRows ∧
    GetFilteredProcesses rangeInOrder insertionSort 2 defaultConfig ∅
      (Some chromeScenario) = Some (Returned newRows) ∧
    (∀ x, x ∈ legacyRows ↔ x ∈ newRows) ∧
    (∀ x, x ∈ newRows →
       ∃ info, samplesOf ∅ chromeScenario !! PID x = Some info ∧
         x = familyRecord (samplesOf ∅ chromeScenario) (childrenMapOf ∅ chromeScenario) info).
Proof.
  apply (revisions_agree_on_flat_families rangeInOrder insertionSort rangeInOrder_perm
           insertionSort_perm 0 defaultConfig ∅ chromeScenario).
  - apply NoDup_cons. split; [|apply NoDup_singleton].
    intros Hin%list_elem_of_singleton. discriminate Hin.
  - intros info cis [Hs (cs & Hcs & ->)].
    assert (childrenMapOf ∅ chromeScenario = <[1 := [2]]> ∅) as Hcm
      by (vm_compute; reflexivity).
    rewrite Hcm in Hcs. apply lookup_insert_Some in Hcs as [[HP <-]|[_ Hcs]].
    2: { by rewrite lookup_empty in Hcs. }
    rewrite <- HP in Hs. vm_compute in Hs. injection Hs as <-.
    split; [|split].
    + intros ci Hci. vm_compute in Hci. apply list_elem_of_singleton in Hci as ->.
      split; vm_compute; reflexivity.
    + vm_compute. reflexivity.
    + split; [intros _; left|intros _]; vm_compute; reflexivity.
Defined.

(** * The monitor object, the configuration and the display: lemmas and
    theorems *)

(** ** The monitor's table across scans *)

Section MonitorTable.

Lemma getProcessInfo_table t p info t' :
  getProcessInfo t p = (Some info, t') →
  t' = <[Pid p := info]> t ∧ Expanded info = expandedIn t (Pid p).
Proof.
  unfold getProcessInfo, expandedIn.
  destruct (procName p) as [name|]; [|done].
  destruct (procMemoryInfo p) as [rss|]; [|done].
  intros [= <- <-]. split; [done|]. by destruct (t !! Pid p).
Qed.

Lemma collect_table m processes :
  (∀ k i, samplesOf m processes !! k = Some i → tableOf m processes !! k = Some i) ∧
  (∀ k, samplesOf m processes !! k = None → tableOf m processes !! k = m !! k) ∧
  (∀ k, expandedIn (tableOf m processes) k = expandedIn m k).
Proof.
  unfold samplesOf, tableOf, collect.
  assert (∀ acc,
            ((∀ k i, acc.1.2 !! k = Some i → acc.1.1 !! k = Some i) ∧
             (∀ k, acc.1.2 !! k = None → acc.1.1 !! k = m !! k) ∧
             (∀ k, expandedIn acc.1.1 k = expandedIn m k)) →
            let r := fold_left collectStep processes acc in
            (∀ k i, r.1.2 !! k = Some i → r.1.1 !! k = Some i) ∧
            (∀ k, r.1.2 !! k = None → r.1.1 !! k = m !! k) ∧
            (∀ k, expandedIn r.1.1 k = expandedIn m k)) as Hgen.
  { induction processes as [|q qs IH]; intros acc Hacc; [done|].
    simpl. apply IH. destruct acc as [[t a] c]. simpl in Hacc.
    destruct Hacc as (H1 & H2 & H3). unfold collectStep.
    destruct (getProcessInfo t q) as [[info|] t'] eqn:Hget.
    2: { apply getProcessInfo_None in Hget as [_ ->]. done. }
    pose proof (getProcessInfo_Some _ _ _ _ Hget) as (HPID & _).
    apply getProcessInfo_table in Hget as [-> Hexp].
    simpl. rewrite HPID. split; [|split].
    - intros k i. destruct (decide (Pid q = k)) as [<-|Hne].
      + by rewrite !lookup_insert_eq.
      + rewrite !lookup_insert_ne by done. apply H1.
    - intros k. destruct (decide (Pid q = k)) as [<-|Hne].
      + by rewrite lookup_insert_eq.
      + rewrite !lookup_insert_ne by done. apply H2.
    - intros k. rewrite <- H3. unfold expandedIn at 1.
      destruct (decide (Pid q = k)) as [<-|Hne].
      + rewrite lookup_insert_eq. simpl. done.
      + by rewrite lookup_insert_ne. }
  apply (Hgen (m, ∅, ∅)). simpl. split; [|done]. intros k i. by rewrite lookup_empty.
Qed.

End MonitorTable.

Section MonitorScan.

Variable range : ∀ A, nat → gmap Z A → list (Z * A).
Variable sort_Slice : list ProcessInfo → (ProcessInfo → ProcessInfo → bool) → list ProcessInfo.
Hypothesis range_perm : ∀ A site (m : gmap Z A), range A site m ≡ₚ map_to_list m.
Hypothesis sort_perm : ∀ l less, sort_Slice l less ≡ₚ l.

(** The method returns the rows of the engine. *)
Lemma Monitor_GetFilteredProcesses_rows fuel m scan :
  fst <$> Monitor_GetFilteredProcesses range sort_Slice fuel m scan =
  GetFilteredProcesses range sort_Slice fuel (config m) (processes m) scan.
Proof.
  unfold Monitor_GetFilteredProcesses, GetFilteredProcesses.
  destruct scan as [procs|]; [|done].
  destruct (collect (processes m) procs) as [[t a] c].
  by destruct (aggregatePass range fuel a c).
Qed.

Lemma Monitor_GetFilteredProcesses_Some fuel m procs out m' :
  Monitor_GetFilteredProcesses range sort_Slice fuel m (Some procs) = Some (out, m') →
  ∃ st,
    aggregatePass range fuel (samplesOf (processes m) procs)
      (childrenMapOf (processes m) procs) = Some st ∧
    out = Returned (sort_Slice
            (topLevel range (qualifyingProcesses range (config m) (allProcesses st)))
            byCPUDescending) ∧
    m' = mkMonitor (allProcesses st ∪ tableOf (processes m) procs)
           (lastCPUTimes m) (config m).
Proof.
  unfold Monitor_GetFilteredProcesses, samplesOf, childrenMapOf, tableOf.
  destruct (collect (processes m) procs) as [[t a] c]. simpl.
  destruct (aggregatePass range fuel a c) as [st|]; [|done].
  intros [= <- <-]. by exists st.
Qed.

(** The pass keeps the keys of the samples, and ends with every record
    aggregated. *)
Lemma aggregatePass_complete fuel s0 childrenMap st :
  aggregatePass range fuel s0 childrenMap = Some st →
  good childrenMap s0 idle st ∧
  (∀ p, is_Some (allProcesses st !! p) ↔ is_Some (s0 !! p)) ∧
  (∀ p, is_Some (s0 !! p) → marked st p).
Proof.
  unfold aggregatePass. intros Hrun.
  destruct (aggregateAll_good childrenMap s0 fuel _ _ _
              (good_initial childrenMap s0) Hrun) as (Hgood & (_ & _ & Hkeys) & Hmarks).
  split; [done|]. split; [done|].
  intros p [i Hi]. apply Hmarks; [|by eexists].
  apply list_elem_of_fmap. exists (p, i). split; [done|]. by apply range_elem.
Qed.

(** What the monitor's table holds after a scan. *)
Lemma table_after_scan fuel m procs st k :
  aggregatePass range fuel (samplesOf (processes m) procs)
    (childrenMapOf (processes m) procs) = Some st →
  (allProcesses st ∪ tableOf (processes m) procs) !! k =
  match allProcesses st !! k with
  | Some i => Some i
  | None => processes m !! k
  end.
Proof.
  intros (Hgood & Hkeys & _)%aggregatePass_complete.
  rewrite lookup_union. destruct (allProcesses st !! k) as [i|] eqn:Hi.
  - by rewrite union_Some_l.
  - rewrite left_id by apply _.
    apply collect_table. apply eq_None_not_Some. rewrite <- Hkeys, Hi. by intros [].
Qed.

Lemma good_Expanded childrenMap s0 st p i :
  good childrenMap s0 idle st → allProcesses st !! p = Some i →
  ∃ i0, s0 !! p = Some i0 ∧ Expanded i = Expanded i0.
Proof.
  intros [Hdom Hgood] Hi. destruct (Hdom p) as [i0 Hi0]; [by eexists|].
  exists i0. split; [done|].
  destruct (Hgood p i0 Hi0) as (i' & Hi' & Hmk & Hun); [by intros []|].
  assert (i' = i) as -> by congruence.
  destruct (marked_dec st p) as [Hm|Hm].
  - specialize (Hmk Hm). unfold goodMarked in Hmk.
    destruct (childrenMap !! p) as [cs|].
    + destruct Hmk as [-> _]. by destruct (relatedEntries st i0 cs).
    + by subst.
  - by rewrite (Hun Hm).
Qed.

Lemma good_MemoryMB childrenMap s0 st p i :
  good childrenMap s0 idle st → allProcesses st !! p = Some i → marked st p →
  MemoryMB i = toMB (MemoryBytes i).
Proof.
  intros [Hdom Hgood] Hi Hm. destruct (Hdom p) as [i0 Hi0]; [by eexists|].
  destruct (Hgood p i0 Hi0) as (i' & Hi' & Hmk & _); [by intros []|].
  assert (i' = i) as -> by congruence.
  specialize (Hmk Hm). unfold goodMarked in Hmk.
  destruct (childrenMap !! p) as [cs|].
  - destruct Hmk as [-> _]. by destruct (relatedEntries st i0 cs).
  - by subst.
Qed.

(** A row is the record the store holds under the row's PID. *)
Lemma row_in_store fuel cfg m procs st r :
  aggregatePass range fuel (samplesOf m procs) (childrenMapOf m procs) = Some st →
  r ∈ sort_Slice (topLevel range (qualifyingProcesses range cfg (allProcesses st)))
        byCPUDescending →
  allProcesses st !! PID r = Some r.
Proof.
  intros Hrun Hr.
  apply (returned_elem range sort_Slice range_perm sort_perm fuel cfg m procs st _ r Hrun eq_refl)
    in Hr as [Hq _].
  apply qualifyingProcesses_lookup in Hq as [Hq _]; [done|done|].
  intros q j. by apply (store_keys range fuel m procs st).
Qed.

Lemma topLevel_fold_NoDup (q : gmap Z ProcessInfo) (l : list (Z * ProcessInfo)) :
  NoDup (l.*1) → (∀ k v, (k, v) ∈ l → PID v = k) →
  ∀ acc, NoDup (PID <$> acc) → (∀ k v, (k, v) ∈ l → k ∉ PID <$> acc) →
         NoDup (PID <$> fold_left (topLevelStep q) l acc).
Proof.
  induction l as [|[k v] l IH]; intros Hnd Hkey acc Hacc Hfresh; [done|].
  simpl. apply NoDup_cons in Hnd as [Hk Hnd].
  assert (PID v = k) as Hv by (apply Hkey; left).
  apply IH; [done|by intros k' v' ?; apply Hkey; right| |].
  - unfold topLevelStep. simpl. destruct (q !! PPID v); [done|].
    rewrite fmap_app. simpl. apply NoDup_app. split; [done|]. split.
    + intros x Hx [->|[]%elem_of_nil]%elem_of_cons. rewrite Hv in Hx.
      by apply (Hfresh k v); [left|].
    + apply NoDup_singleton.
  - intros k' v' Hin. unfold topLevelStep. simpl.
    destruct (q !! PPID v); [by apply (Hfresh k' v'); right|].
    rewrite fmap_app. simpl. intros [Hx|[->|[]%elem_of_nil]%elem_of_cons]%elem_of_app.
    + by apply (Hfresh k' v'); [right|].
    + rewrite Hv in Hin. apply Hk. apply list_elem_of_fmap. by exists (k, v').
Qed.

(** The rows of a scan: one per PID, each the record the monitor's
    table then holds under that PID. *)
Lemma scan_rows fuel m procs filtered m' :
  Monitor_GetFilteredProcesses range sort_Slice fuel m (Some procs)
    = Some (Returned filtered, m') →
  NoDup (PID <$> filtered) ∧
  (∀ r, r ∈ filtered → processes m' !! PID r = Some r).
Proof.
  intros (st & Hrun & [= ->] & ->)%Monitor_GetFilteredProcesses_Some. simpl. split.
  - rewrite (sort_perm _ _). unfold topLevel.
    assert (∀ k v, (k, v) ∈ range ProcessInfo 4
              (qualifyingProcesses range (config m) (allProcesses st)) → PID v = k) as Hkey.
    { intros k v Hin%(range_elem range range_perm).
      apply qualifyingProcesses_lookup in Hin as [Hin _]; [|done|].
      - by apply (store_keys range fuel (processes m) procs st).
      - intros q j. by apply (store_keys range fuel (processes m) procs st). }
    apply topLevel_fold_NoDup; [by apply range_NoDup|done|by apply NoDup_nil|].
    intros k v _. simpl. apply not_elem_of_nil.
  - intros r Hr. rewrite (table_after_scan fuel m procs st _ Hrun).
    by rewrite (row_in_store fuel (config m) (processes m) procs st r Hrun Hr).
Qed.

End MonitorScan.

(** X1: [ToggleExpanded] is its own inverse. It negates the [Expanded]
    flag of the record stored under [pid] and changes nothing else: the
    other fields of that record, the records of other PIDs and the
    configuration stay as they are, and an unknown [pid] is a no-op. *)
Theorem ToggleExpanded_flips_one_flag pid m :
  ToggleExpanded pid (ToggleExpanded pid m) = m ∧
  processes (ToggleExpanded pid m) !! pid =
    (λ info, set_Expanded (negb (Expanded info)) info) <$> processes m !! pid ∧
  (∀ q, q ≠ pid → processes (ToggleExpanded pid m) !! q = processes m !! q) ∧
  config (ToggleExpanded pid m) = config m.
Proof.
  unfold ToggleExpanded. destruct m as [t l c]. simpl.
  destruct (t !! pid) as [info|] eqn:Hinfo; simpl.
  - rewrite lookup_insert_eq. simpl. split; [|split; [done|split; [|done]]].
    + f_equal. rewrite insert_insert_eq, negb_involutive.
      replace (set_Expanded (Expanded info) _) with info by (by destruct info).
      by apply insert_id.
    + intros q Hq. by rewrite lookup_insert_ne.
  - by rewrite Hinfo.
Qed.

Section MonitorTheorems.

Variable range : ∀ A, nat → gmap Z A → list (Z * A).
Variable sort_Slice : list ProcessInfo → (ProcessInfo → ProcessInfo → bool) → list ProcessInfo.
Hypothesis range_perm : ∀ A site (m : gmap Z A), range A site m ≡ₚ map_to_list m.
Hypothesis sort_perm : ∀ l less, sort_Slice l less ≡ₚ l.

(** X2: a scan never removes an entry of the monitor's [processes]
    table: every PID known before is still known after, every process of
    the scan whose name and memory could be read is known after, and
    nothing else is added. *)
Theorem monitor_table_never_forgets fuel m procs out m' :
  Monitor_GetFilteredProcesses range sort_Slice fuel m (Some procs) = Some (out, m') →
  (∀ pid, is_Some (processes m !! pid) → is_Some (processes m' !! pid)) ∧
  (∀ p, p ∈ procs → retrievable p → is_Some (processes m' !! Pid p)) ∧
  (∀ pid, is_Some (processes m' !! pid) →
     is_Some (processes m !! pid) ∨ ∃ p, p ∈ procs ∧ retrievable p ∧ Pid p = pid).
Proof.
  intros (st & Hrun & _ & ->)%Monitor_GetFilteredProcesses_Some. simpl.
  pose proof (aggregatePass_complete range range_perm _ _ _ _ Hrun) as (_ & Hkeys & _).
  split; [|split].
  - intros pid Hpid. rewrite (table_after_scan range range_perm fuel m procs st pid Hrun).
    by destruct (allProcesses st !! pid).
  - intros p Hp Hret.
    rewrite (table_after_scan range range_perm fuel m procs st _ Hrun).
    destruct (collect_member (processes m) procs p Hp Hret) as [Hs _].
    apply Hkeys in Hs as [i ->]. by eexists.
  - intros pid. rewrite (table_after_scan range range_perm fuel m procs st pid Hrun).
    destruct (allProcesses st !! pid) as [i|] eqn:Hi; [|by left].
    intros _. right. apply (collect_sources (processes m) procs).
    apply Hkeys. by eexists.
Qed.

Lemma scan_Expanded fuel m procs st k i :
  aggregatePass range fuel (samplesOf (processes m) procs)
    (childrenMapOf (processes m) procs) = Some st →
  allProcesses st !! k = Some i → Expanded i = expandedIn (processes m) k.
Proof.
  intros Hrun Hi.
  pose proof (aggregatePass_complete range range_perm _ _ _ _ Hrun) as (Hgood & _ & _).
  destruct (good_Expanded _ _ _ _ _ Hgood Hi) as (i0 & Hi0 & ->).
  destruct (collect_table (processes m) procs) as (H1 & _ & H3).
  rewrite <- H3. unfold expandedIn. by rewrite (H1 _ _ Hi0).
Qed.

(** X3: the expansion state is carried over a refresh. A returned row
    has the [Expanded] flag the table held for its PID before the scan
    ([false] for a PID not seen before), and the scan changes the flag of
    no PID in the table. *)
Theorem expanded_flag_survives_scan fuel m procs filtered m' :
  Monitor_GetFilteredProcesses range sort_Slice fuel m (Some procs)
    = Some (Returned filtered, m') →
  (∀ r, r ∈ filtered → Expanded r = expandedIn (processes m) (PID r)) ∧
  (∀ pid, expandedIn (processes m') pid = expandedIn (processes m) pid).
Proof.
  intros (st & Hrun & [= ->] & ->)%Monitor_GetFilteredProcesses_Some. simpl. split.
  - intros r Hr. apply (scan_Expanded fuel m procs st _ _ Hrun).
    by apply (row_in_store range sort_Slice range_perm sort_perm fuel (config m)
                (processes m) procs).
  - intros pid. unfold expandedIn at 1.
    rewrite (table_after_scan range range_perm fuel m procs st pid Hrun).
    destruct (allProcesses st !! pid) as [i|] eqn:Hi; [|done].
    simpl. by apply (scan_Expanded fuel m procs st).
Qed.

(** X4: no PID is returned twice, and each returned row is the record
    the monitor's table holds under the row's PID after the scan. *)
Theorem rows_have_distinct_PIDs fuel m procs filtered m' :
  Monitor_GetFilteredProcesses range sort_Slice fuel m (Some procs)
    = Some (Returned filtered, m') →
  NoDup (PID <$> filtered) ∧
  (∀ r, r ∈ filtered → processes m' !! PID r = Some r).
Proof. by apply scan_rows. Qed.

(** X5: in every returned row [MemoryMB] is the row's own
    [MemoryBytes] divided by [1024 * 1024], whether or not the row was
    aggregated. *)
Theorem rows_MemoryMB_consistent fuel m procs filtered m' :
  Monitor_GetFilteredProcesses range sort_Slice fuel m (Some procs)
    = Some (Returned filtered, m') →
  ∀ r, r ∈ filtered → MemoryMB r = toMB (MemoryBytes r).
Proof.
  intros (st & Hrun & [= ->] & ->)%Monitor_GetFilteredProcesses_Some r Hr.
  pose proof (row_in_store range sort_Slice range_perm sort_perm fuel (config m)
                (processes m) procs st r Hrun Hr) as Hst.
  pose proof (aggregatePass_complete range range_perm _ _ _ _ Hrun) as (Hgood & Hkeys & Hmarks).
  apply (good_MemoryMB _ _ _ _ _ Hgood Hst). apply Hmarks, Hkeys. by eexists.
Qed.

End MonitorTheorems.

Lemma monitor_table_never_forgets_witness :
  (∀ pid, is_Some (processes chromeMonitor !! pid) →
          is_Some (processes chromeMonitorThenTwoRows !! pid)) ∧
  (∀ p, p ∈ twoRows → retrievable p →
        is_Some (processes chromeMonitorThenTwoRows !! Pid p)) ∧
  (∀ pid, is_Some (processes chromeMonitorThenTwoRows !! pid) →
     is_Some (processes chromeMonitor !! pid) ∨
     ∃ p, p ∈ twoRows ∧ retrievable p ∧ Pid p = pid).
Proof.
  apply (monitor_table_never_forgets rangeInOrder insertionSort rangeInOrder_perm
           2 chromeMonitor twoRows
           (Returned [mkProcessInfo 8 0 "high" 90 MB 1 [] false 0 0;
                      mkProcessInfo 7 0 "low" 10 MB 1 [] false 0 0])).
  vm_compute. reflexivity.
Defined.

Lemma expanded_flag_survives_scan_witness :
  (∀ r, r ∈ [expandedChromeParent] →
        Expanded r = expandedIn (processes chromeMonitor) (PID r)) ∧
  (∀ pid, expandedIn (processes chromeMonitorRescanned) pid
          = expandedIn (processes chromeMonitor) pid).
Proof.
  apply (expanded_flag_survives_scan rangeInOrder insertionSort rangeInOrder_perm
           insertionSort_perm 2 chromeMonitor chromeScenario).
  vm_compute. reflexivity.
Defined.

Lemma rows_have_distinct_PIDs_witness :
  NoDup (PID <$> [mkProcessInfo 8 0 "high" 90 MB 1 [] false 0 0;
                  mkProcessInfo 7 0 "low" 10 MB 1 [] false 0 0]) ∧
  (∀ r, r ∈ [mkProcessInfo 8 0 "high" 90 MB 1 [] false 0 0;
             mkProcessInfo 7 0 "low" 10 MB 1 [] false 0 0] →
        processes chromeMonitorThenTwoRows !! PID r = Some r).
Proof.
  apply (rows_have_distinct_PIDs rangeInOrder insertionSort rangeInOrder_perm
           insertionSort_perm 2 chromeMonitor twoRows).
  vm_compute. reflexivity.
Defined.

Lemma rows_MemoryMB_consistent_witness :
  ∃ r, r ∈ [expandedChromeParent] ∧ MemoryMB r = toMB (MemoryBytes r).
Proof.
  exists expandedChromeParent. split; [by left|].
  apply (rows_MemoryMB_consistent rangeInOrder insertionSort rangeInOrder_perm
           insertionSort_perm 2 chromeMonitor chromeScenario [expandedChromeParent]
           chromeMonitorRescanned); [vm_compute; reflexivity|by left].
Defined.

(** ** Threads among the related children *)

(** X6: the two classifiers together, for a child the aggregator
    folds into its parent (a related child). It is flagged as a thread
    whenever its name is at least as long as the parent's; one that is
    not flagged has a name that is a proper prefix of the parent's name
    and fails the memory heuristic. *)
Theorem related_children_are_threads child parent :
  isRelatedToParent child parent = true →
  (isThread child parent = false →
   isProperPrefixOf (Name child) (Name parent) ∧
   (0 <? MemoryBytes parent)
     && memoryRatioBelowTenth (MemoryBytes child) (MemoryBytes parent) = false) ∧
  ((Go.len (Name parent) <= Go.len (Name child))%nat → isThread child parent = true).
Proof.
  unfold isRelatedToParent, isThread.
  destruct (Go.index_bool systemParents (Name parent)); [done|].
  destruct (String.eqb_spec (Name child) (Name parent)) as [Heq|Hne]; [done|].
  assert (∀ p s, p ≠ s → isPrefixOf p s → isProperPrefixOf p s) as Hproper.
  { intros p s Hps [t ->]. exists t. split; [|done].
    intros ->. by rewrite append_empty_r in Hps. }
  pose proof (guarded_slice_true true (Name parent) (Name child)) as Hstrict.
  pose proof (guarded_slice_true false (Name parent) (Name child)) as Hweak.
  pose proof (guarded_slice_true false (Name child) (Name parent)) as Hback.
  simpl in Hstrict, Hweak, Hback.
  destruct ((Go.len (Name parent) <? Go.len (Name child))%nat
            && String.eqb (Go.slice_to (Name child) (Go.len (Name parent))) (Name parent))
    eqn:Hs; [done|].
  destruct ((Go.len (Name parent) <=? Go.len (Name child))%nat
            && String.eqb (Go.slice_to (Name child) (Go.len (Name parent))) (Name parent))
    eqn:Hw.
  { assert (isProperPrefixOf (Name parent) (Name child)) as Hpp.
    { apply Hproper; [done|]. by apply Hweak. }
    apply Hstrict in Hpp. congruence. }
  intros Hb.
  assert (isPrefixOf (Name child) (Name parent)) as Hb'.
  { apply Hback. revert Hb. by case (_ && _). }
  clear Hb. rename Hb' into Hb.
  assert (isProperPrefixOf (Name child) (Name parent)) as Hpp by (by apply Hproper).
  split.
  - intros Hth. split; [done|]. revert Hth. by case (_ && _).
  - intros Hlen. exfalso.
    apply (slice_to_proper_prefix (Name child) (Name parent)) in Hpp as [Hlt _]. lia.
Qed.

Lemma related_children_are_threads_witness :
  (isThread (mkProcessInfo 2 1 "chrome-gpu" 2.3 (45 * MB) 0 [] false 0 0)
     (mkProcessInfo 1 0 "chrome" 3.2 (85 * MB) 0 [] false 0 0) = false →
   isProperPrefixOf "chrome-gpu" "chrome" ∧
   (0 <? 85 * MB) && memoryRatioBelowTenth (45 * MB) (85 * MB) = false) ∧
  ((Go.len "chrome" <= Go.len "chrome-gpu")%nat →
   isThread (mkProcessInfo 2 1 "chrome-gpu" 2.3 (45 * MB) 0 [] false 0 0)
     (mkProcessInfo 1 0 "chrome" 3.2 (85 * MB) 0 [] false 0 0) = true).
Proof.
  apply (related_children_are_threads
           (mkProcessInfo 2 1 "chrome-gpu" 2.3 (45 * MB) 0 [] false 0 0)
           (mkProcessInfo 1 0 "chrome" 3.2 (85 * MB) 0 [] false 0 0)).
  vm_compute. reflexivity.
Defined.

(** ** Resource levels and status icons *)

Section FloatOrder.

Lemma SFleb_trans x y z : SFleb x y = true → SFleb y z = true → SFleb x z = true.
Proof.
  unfold SFleb.
  destruct x as [sx|sx| |sx mx ex], y as [sy|sy| |sy my ey], z as [sz|sz| |sz mz ez];
    simpl; try done;
    try (destruct sx; simpl; try done); try (destruct sy; simpl; try done);
    try (destruct sz; simpl; try done).
  all: change (Pos.compare_cont Eq mx my) with (Pos.compare mx my);
    change (Pos.compare_cont Eq my mz) with (Pos.compare my mz);
    change (Pos.compare_cont Eq mx mz) with (Pos.compare mx mz).
  all: destruct (Z.compare_spec ex ey), (Z.compare_spec ey ez), (Z.compare_spec ex ez);
    subst; simpl; try done; try lia;
    destruct (Pos.compare_spec mx my), (Pos.compare_spec my mz), (Pos.compare_spec mx mz);
    subst; simpl; try done; try lia.
Qed.

Lemma leb_trans x y z :
  (x <=? y)%float = true → (y <=? z)%float = true → (x <=? z)%float = true.
Proof. rewrite !leb_spec. apply SFleb_trans. Qed.

End FloatOrder.

Section Levels.

Lemma fge_trans (k k' x : float) :
  (k <=? k')%float = true → Go.fge x k' = true → Go.fge x k = true.
Proof. unfold Go.fge. intros H1 H2. by apply (leb_trans k k' x). Qed.

Lemma fge_mono (k x y : float) :
  (x <=? y)%float = true → Go.fge x k = true → Go.fge y k = true.
Proof. unfold Go.fge. intros H1 H2. by apply (leb_trans k x y). Qed.

End Levels.

(** X7: [GetResourceLevel] is monotone: when neither the CPU value nor
    the memory value goes down, the level does not go down. *)
Theorem GetResourceLevel_monotone cpu mem cpu' mem' :
  (cpu <=? cpu')%float = true → (mem <=? mem')%float = true →
  GetResourceLevel cpu mem <= GetResourceLevel cpu' mem'.
Proof.
  intros Hc Hm. unfold GetResourceLevel.
  pose proof (fge_mono 50 _ _ Hc) as A1. pose proof (fge_mono 500 _ _ Hm) as A2.
  pose proof (fge_mono 20 _ _ Hc) as A3. pose proof (fge_mono 200 _ _ Hm) as A4.
  destruct (Go.fge cpu 50), (Go.fge mem 500), (Go.fge cpu 20), (Go.fge mem 200);
    try rewrite A1 by done; try rewrite A2 by done;
    try rewrite A3 by done; try rewrite A4 by done;
    rewrite ?orb_true_r; simpl;
    repeat (match goal with |- context [if ?b then _ else _] => destruct b end);
    unfold High, Medium, Low; lia.
Qed.

Lemma GetResourceLevel_monotone_witness :
  GetResourceLevel 10 250 <= GetResourceLevel 60 250.
Proof. apply GetResourceLevel_monotone; vm_compute; reflexivity. Defined.

(** X8: the bands of [GetResourceLevel]. The level is [High] exactly
    when the CPU reaches 50 or the memory 500, and [Low] exactly when the
    CPU does not reach 20 and the memory does not reach 200 (as for NaN
    values). On a level it returns, [String] and [GetProcessColor] never
    take their default branch. *)
Theorem resource_level_bands cs cpu mem :
  (GetResourceLevel cpu mem = High ↔ Go.fge cpu 50 = true ∨ Go.fge mem 500 = true) ∧
  (GetResourceLevel cpu mem = Low ↔ Go.fge cpu 20 = false ∧ Go.fge mem 200 = false) ∧
  ResourceLevel_String (GetResourceLevel cpu mem) =
    (if GetResourceLevel cpu mem =? High then "High"%string
     else if GetResourceLevel cpu mem =? Low then "Low"%string else "Medium"%string) ∧
  ui.GetProcessColor cs (GetResourceLevel cpu mem) =
    (if GetResourceLevel cpu mem =? High then ui.HighUsage cs
     else if GetResourceLevel cpu mem =? Low then ui.LowUsage cs else ui.MediumUsage cs).
Proof.
  unfold GetResourceLevel.
  assert (Go.fge cpu 50 = true → Go.fge cpu 20 = true) as Hc.
  { apply fge_trans. vm_compute. reflexivity. }
  assert (Go.fge mem 500 = true → Go.fge mem 200 = true) as Hm.
  { apply fge_trans. vm_compute. reflexivity. }
  destruct (Go.fge cpu 50) eqn:H1; simpl.
  { rewrite Hc by done. split; [by intuition|]. by split; [intuition|]. }
  destruct (Go.fge mem 500) eqn:H2; simpl.
  { rewrite Hm by done. split; [by intuition|]. by split; [intuition|]. }
  destruct (Go.fge cpu 20) eqn:H3; simpl.
  { split; [by intuition|]. by split; [intuition|]. }
  destruct (Go.fge mem 200) eqn:H4; simpl.
  { split; [by intuition|]. by split; [intuition|]. }
  split; [by intuition|]. by split; [intuition|].
Qed.

(** X9: for a row with children [GetStatusIcon] depends on the
    expansion flag only; for a row without, the three CPU bands give the
    same glyph: the icon is filled exactly when the CPU reaches 5. *)
Theorem GetStatusIcon_bands cpuPercent isExpanded :
  ui.GetStatusIcon cpuPercent isExpanded true = (if isExpanded then "▼" else "▶")%string ∧
  ui.GetStatusIcon cpuPercent isExpanded false =
    (if Go.fge cpuPercent 5 then "●" else "○")%string.
Proof.
  split; [done|]. unfold ui.GetStatusIcon.
  destruct (Go.fge cpuPercent 50) eqn:H1.
  { rewrite (fge_trans 5 50 cpuPercent); [done|by vm_compute|done]. }
  destruct (Go.fge cpuPercent 20) eqn:H2; [|done].
  rewrite (fge_trans 5 20 cpuPercent); [done|by vm_compute|done].
Qed.

(** ** Text, bars and the header *)

Section Strings.

Lemma length_slice_to (s : string) (n : nat) :
  (n <= Go.len s)%nat → Go.len (Go.slice_to s n) = n.
Proof.
  unfold Go.len, Go.slice_to. revert n.
  induction s as [|a s IH]; intros n Hn; simpl in *.
  - destruct n; [done|lia].
  - destruct n as [|n]; [done|]. simpl. rewrite IH; [done|lia].
Qed.

Lemma slice_to_isPrefixOf (s : string) (n : nat) :
  (n <= Go.len s)%nat → isPrefixOf (Go.slice_to s n) s.
Proof.
  unfold Go.len, Go.slice_to, isPrefixOf. revert n.
  induction s as [|a s IH]; intros n Hn; simpl in *.
  - destruct n; [by exists ""%string|lia].
  - destruct n as [|n]; [by eexists|].
    destruct (IH n) as [t Ht]; [lia|]. exists t.
    change (String a s = String a (String.substring 0 n s +:+ t)). by rewrite <- Ht.
Qed.

Lemma append_assoc (a b c : string) : ((a +:+ b) +:+ c = a +:+ (b +:+ c))%string.
Proof.
  induction a as [|x a IH]; [done|].
  change (String x ((a +:+ b) +:+ c) = String x (a +:+ (b +:+ c))). by f_equal.
Qed.

Lemma joined_app (l1 l2 : list string) :
  joined (l1 ++ l2) = (joined l1 +:+ joined l2)%string.
Proof.
  induction l1 as [|x l1 IH]; [done|].
  change (x +:+ joined (l1 ++ l2) = (x +:+ joined l1) +:+ joined l2)%string.
  by rewrite IH, append_assoc.
Qed.

End Strings.

(** X10: [truncateString] never slices out of range. Its result is at
    most [max 4 maxLen] bytes long; a string that fits is returned as it
    is, and a longer one is cut to exactly [max 4 maxLen] bytes: a prefix
    of the string followed by three dots. *)
Theorem truncateString_shape (s : string) (maxLen : Z) :
  ∃ r, ui.truncateString s maxLen = Some r ∧
    Z.of_nat (Go.len r) <= Z.max 4 maxLen ∧
    (Z.of_nat (Go.len s) <= Z.max 4 maxLen → r = s) ∧
    (Z.max 4 maxLen < Z.of_nat (Go.len s) →
     Z.of_nat (Go.len r) = Z.max 4 maxLen ∧
     ∃ head, isPrefixOf head s ∧ r = (head +:+ "...")%string).
Proof.
  unfold ui.truncateString.
  assert ((if maxLen <? 4 then 4 else maxLen) = Z.max 4 maxLen) as ->.
  { destruct (Z.ltb_spec maxLen 4); lia. }
  destruct (Z.leb_spec (Z.of_nat (Go.len s)) (Z.max 4 maxLen)) as [Hle|Hgt].
  { exists s. split; [done|]. split; [done|]. split; [done|]. lia. }
  unfold Go.slice_to_checked.
  destruct (Z.leb_spec 0 (Z.max 4 maxLen - 3)); [|lia].
  destruct (Z.leb_spec (Z.max 4 maxLen - 3) (Z.of_nat (Go.len s))); [|lia].
  simpl. eexists. split; [done|].
  assert (Z.of_nat (Go.len (Go.slice_to s (Z.to_nat (Z.max 4 maxLen - 3)) +:+ "..."))
          = Z.max 4 maxLen) as Hlen.
  { unfold Go.len at 1. rewrite length_app_string.
    fold (Go.len (Go.slice_to s (Z.to_nat (Z.max 4 maxLen - 3)))).
    rewrite length_slice_to by lia. simpl. lia. }
  split; [lia|]. split; [lia|]. intros _. split; [done|].
  eexists. split; [|done]. apply slice_to_isPrefixOf. lia.
Qed.

Section Bar.

Lemma barCells_joined filledWidth n : ∀ i bar,
  ui.barCells filledWidth i n bar =
  (bar +:+ joined (cellAt filledWidth <$> seqZ i (Z.of_nat n)))%string.
Proof.
  induction n as [|n IH]; intros i bar.
  - simpl. by rewrite append_empty_r.
  - cbn [ui.barCells]. rewrite IH.
    replace (Z.of_nat (S n)) with (Z.succ (Z.of_nat n)) by lia.
    rewrite (seqZ_cons i) by lia. rewrite Z.pred_succ, fmap_cons.
    change (joined (?x :: ?l)) with (x +:+ joined l)%string.
    unfold cellAt at 2. rewrite append_assoc. by replace (Z.succ i) with (i + 1) by lia.
Qed.

Lemma cellAt_seqZ filledWidth (n : nat) : ∀ i,
  cellAt filledWidth <$> seqZ i (Z.of_nat n) =
  replicate (Z.to_nat (Z.min (Z.of_nat n) (filledWidth - i))) ui.fullBlock ++
  replicate (n - Z.to_nat (Z.min (Z.of_nat n) (filledWidth - i))) ui.lightShade.
Proof.
  induction n as [|n IH]; intros i.
  { by replace (Z.to_nat (Z.min (Z.of_nat 0) (filledWidth - i))) with 0%nat by lia. }
  replace (Z.of_nat (S n)) with (Z.succ (Z.of_nat n)) by lia.
  rewrite (seqZ_cons i) by lia. rewrite Z.pred_succ, fmap_cons, IH.
  unfold cellAt at 1. destruct (Z.ltb_spec i filledWidth).
  - replace (Z.to_nat (Z.min (Z.succ (Z.of_nat n)) (filledWidth - i)))
      with (S (Z.to_nat (Z.min (Z.of_nat n) (filledWidth - Z.succ i)))) by lia.
    simpl. done.
  - replace (Z.to_nat (Z.min (Z.succ (Z.of_nat n)) (filledWidth - i))) with 0%nat by lia.
    replace (Z.to_nat (Z.min (Z.of_nat n) (filledWidth - Z.succ i))) with 0%nat by lia.
    simpl. by rewrite Nat.sub_0_r.
Qed.

Lemma length_joined_replicate (n : nat) (cell : string) :
  String.length (joined (replicate n cell)) = (n * String.length cell)%nat.
Proof.
  induction n as [|n IH]; [done|]. simpl. rewrite length_app_string, IH. done.
Qed.

Lemma bytes_app (s t : string) : Go.bytes (s +:+ t) = Go.bytes s ++ Go.bytes t.
Proof.
  unfold Go.bytes. induction s as [|a s IH]; [done|].
  change (String a s +:+ t)%string with (String a (s +:+ t)).
  simpl. f_equal. apply IH.
Qed.

Lemma decodeRunes_cells (cells : list string) (rest : list Z) :
  (∀ cell, cell ∈ cells → cell = ui.fullBlock ∨ cell = ui.lightShade) →
  length (Go.decodeRunes (Go.bytes (joined cells) ++ rest))
  = (length cells + length (Go.decodeRunes rest))%nat.
Proof.
  induction cells as [|cell cells IH]; intros Hcells; [done|].
  change (joined (cell :: cells)) with (cell +:+ joined cells)%string.
  rewrite bytes_app, <- app_assoc.
  assert (length (Go.decodeRunes (Go.bytes (joined cells) ++ rest))
          = (length cells + length (Go.decodeRunes rest))%nat) as IH'.
  { apply IH. intros c Hc. apply Hcells. by right. }
  destruct (Hcells cell) as [->| ->]; [by left| |].
  - change (Go.bytes ui.fullBlock) with [226; 150; 136].
    change (Go.decodeRunes ([226; 150; 136] ++ Go.bytes (joined cells) ++ rest))
      with (9608 :: Go.decodeRunes (Go.bytes (joined cells) ++ rest)).
    simpl. by rewrite IH'.
  - change (Go.bytes ui.lightShade) with [226; 150; 145].
    change (Go.decodeRunes ([226; 150; 145] ++ Go.bytes (joined cells) ++ rest))
      with (9617 :: Go.decodeRunes (Go.bytes (joined cells) ++ rest)).
    simpl. by rewrite IH'.
Qed.

End Bar.

(** X11: whatever the percentage (negative, above 100 or NaN, and
    whatever the conversion to [int] yields out of range), a bar of width
    at least 2 has exactly [width] cells, the filled ones first, their
    number being the converted value clamped to [0, width]. The bar
    decodes to [width] runes, one per cell, but each cell is three
    bytes, so [len] of the bar is [3 * width]. *)
Theorem CreateProgressBar_cells (oob : float → Z) (percent : float) (width : Z) :
  2 <= width →
  ∃ filled : nat,
    Z.of_nat filled =
      Z.max 0 (Z.min width
                 (Go.int_of_float64 oob (percent / 100.0 * Go.float64 width)%float)) ∧
    ui.CreateProgressBar oob percent width =
      joined (replicate filled ui.fullBlock ++
              replicate (Z.to_nat width - filled) ui.lightShade) ∧
    Z.of_nat (length (Go.runes (ui.CreateProgressBar oob percent width))) = width ∧
    Z.of_nat (Go.len (ui.CreateProgressBar oob percent width)) = 3 * width.
Proof.
  intros Hw. unfold ui.CreateProgressBar.
  destruct (Z.ltb_spec width 2); [lia|].
  set (f := Go.int_of_float64 oob _).
  exists (Z.to_nat (Z.max 0 (Z.min width f))). split; [lia|].
  assert (ui.barCells (if f >? width then width else f) 0 (Z.to_nat width) "" =
          joined (replicate (Z.to_nat (Z.max 0 (Z.min width f))) ui.fullBlock ++
                  replicate (Z.to_nat width - Z.to_nat (Z.max 0 (Z.min width f)))
                    ui.lightShade)) as ->.
  { rewrite barCells_joined, cellAt_seqZ.
    assert (Z.to_nat (Z.min (Z.of_nat (Z.to_nat width))
                        ((if f >? width then width else f) - 0))
            = Z.to_nat (Z.max 0 (Z.min width f))) as ->.
    { destruct (Z.gtb_spec f width); lia. }
    done. }
  split; [done|]. split.
  - unfold Go.runes.
    rewrite <- (app_nil_r (Go.bytes _)), decodeRunes_cells.
    + rewrite length_app, !length_replicate. simpl. lia.
    + intros cell [Hc|Hc]%elem_of_app; apply elem_of_replicate in Hc as [-> _]; auto.
  - unfold Go.len. rewrite joined_app, length_app_string, !length_joined_replicate.
    change (String.length ui.fullBlock) with 3%nat.
    change (String.length ui.lightShade) with 3%nat. lia.
Qed.

Lemma CreateProgressBar_cells_witness :
  ∃ filled : nat,
    Z.of_nat filled =
      Z.max 0 (Z.min 20
                 (Go.int_of_float64 (λ _, 0) (50 / 100.0 * Go.float64 20)%float)) ∧
    ui.CreateProgressBar (λ _, 0) 50 20 =
      joined (replicate filled ui.fullBlock ++
              replicate (Z.to_nat 20 - filled) ui.lightShade) ∧
    Z.of_nat (length (Go.runes (ui.CreateProgressBar (λ _, 0) 50 20))) = 20 ∧
    Z.of_nat (Go.len (ui.CreateProgressBar (λ _, 0) 50 20)) = 3 * 20.
Proof. apply CreateProgressBar_cells. lia. Defined.

Section Drawing.

Lemma int_small z : - 2 ^ 63 <= z < 2 ^ 63 → Go.int z = z.
Proof. intros Hz. unfold Go.int. rewrite Z.mod_small; lia. Qed.

Lemma int_range z : - 2 ^ 63 <= Go.int z < 2 ^ 63.
Proof.
  unfold Go.int. pose proof (Z.mod_pos_bound (z + 2 ^ 63) (2 ^ 64)). lia.
Qed.

Lemma drawRunes_cells x y maxWidth style rs : ∀ i j c,
  ui.drawRunes x y maxWidth i rs style !! j = Some c →
  ui.cellX c = Go.int (x + (i + Z.of_nat j)) ∧ ui.cellX c < maxWidth ∧
  ui.cellY c = y ∧ ui.cellStyle c = style ∧ rs !! j = Some (ui.cellRune c).
Proof.
  induction rs as [|r rs IH]; intros i j c; [done|].
  simpl. destruct (Z.geb_spec (Go.int (x + i)) maxWidth) as [Hge|Hlt]; [done|].
  destruct j as [|j]; simpl.
  - intros [= <-]. simpl. by rewrite Z.add_0_r.
  - intros Hc. destruct (IH _ _ _ Hc) as (H1 & H2). split; [|done].
    rewrite H1. f_equal. lia.
Qed.

Lemma drawRunes_stops x y maxWidth style rs : ∀ i,
  length (ui.drawRunes x y maxWidth i rs style) = length rs ∨
  maxWidth <= Go.int (x + (i + Z.of_nat (length (ui.drawRunes x y maxWidth i rs style)))).
Proof.
  induction rs as [|r rs IH]; intros i; [by left|].
  simpl. destruct (Z.geb_spec (Go.int (x + i)) maxWidth) as [Hge|Hlt].
  - right. simpl. by rewrite Z.add_0_r.
  - cbn [length]. destruct (IH (i + 1)) as [->|Hstop]; [by left|]. right.
    by replace (i + Z.of_nat (S (length (ui.drawRunes x y maxWidth (i + 1) rs style))))
      with (i + 1 + Z.of_nat (length (ui.drawRunes x y maxWidth (i + 1) rs style))) by lia.
Qed.

End Drawing.

(** X12: [drawText] writes the runes of the text from column [x] on,
    on row [y], in the given style, one cell per rune, and stops before
    the first column that is not below [maxWidth]: [maxWidth] bounds the
    column, not the number of cells. *)
Theorem drawText_clipped x y maxWidth text style :
  (∀ j c, ui.drawText x y maxWidth text style !! j = Some c →
     ui.cellX c = Go.int (x + Z.of_nat j) ∧ ui.cellX c < maxWidth ∧
     ui.cellY c = y ∧ ui.cellStyle c = style ∧
     Go.runes text !! j = Some (ui.cellRune c)) ∧
  (length (ui.drawText x y maxWidth text style) = length (Go.runes text) ∨
   maxWidth <= Go.int (x + Z.of_nat (length (ui.drawText x y maxWidth text style)))).
Proof.
  unfold ui.drawText. split.
  - intros j c Hc. by apply drawRunes_cells in Hc.
  - apply (drawRunes_stops x y maxWidth style (Go.runes text) 0).
Qed.

(** X13: on a terminal at least 25 columns wide the status indicator
    of the header draws no cell at all: it is placed at column
    [width - len(status) - 3] and clipped at column [len(status)]. *)
Theorem status_indicator_hidden cs paused width :
  25 <= width < 2 ^ 63 → ui.statusIndicator cs paused width = [].
Proof.
  intros Hw. unfold ui.statusIndicator, ui.drawText.
  assert (∀ x y mw rs st, mw <= Go.int x → ui.drawRunes x y mw 0 rs st = []) as Hnone.
  { intros x y mw [|r rs] st Hx; [done|]. simpl. rewrite Z.add_0_r.
    by destruct (Z.geb_spec (Go.int x) mw); [|lia]. }
  apply Hnone. destruct paused.
  - change (Z.of_nat (Go.len "⏸ PAUSED")) with 10.
    rewrite (int_small (width - 10)) by lia.
    rewrite (int_small (width - 10 - 3)) by lia. rewrite int_small; lia.
  - change (Z.of_nat (Go.len "✓ RUNNING")) with 11.
    rewrite (int_small (width - 11)) by lia.
    rewrite (int_small (width - 11 - 3)) by lia. rewrite int_small; lia.
Qed.

Lemma status_indicator_hidden_witness :
  ui.statusIndicator ui.NewColorScheme false 80 = [].
Proof. apply status_indicator_hidden. lia. Defined.

(** X14: from the [--memory] flag to the header. [main] multiplies
    the flag by [1024 * 1024] in [uint64]; the threshold in force and the
    number of megabytes the header prints are those of the flag reduced
    modulo [2^44]. The CPU threshold and the refresh rate are passed on
    unchanged. *)
Theorem header_shows_memory_flag cpuThreshold memoryThreshold refreshRate :
  0 <= memoryThreshold < 2 ^ 64 →
  GetMemoryThreshold (mainConfig cpuThreshold memoryThreshold refreshRate)
    = (memoryThreshold mod 2 ^ 44) * (1024 * 1024) ∧
  ui.headerMemoryMB (mainConfig cpuThreshold memoryThreshold refreshRate)
    = memoryThreshold mod 2 ^ 44 ∧
  GetCPUThreshold (mainConfig cpuThreshold memoryThreshold refreshRate) = cpuThreshold ∧
  config.GetRefreshRate (mainConfig cpuThreshold memoryThreshold refreshRate) = refreshRate.
Proof.
  intros Hm. unfold ui.headerMemoryMB, mainConfig, GetMemoryThreshold. simpl.
  assert (Go.uint64 (Go.uint64 (memoryThreshold * 1024) * 1024)
          = memoryThreshold mod 2 ^ 44 * (1024 * 1024)) as ->.
  { unfold Go.uint64. rewrite Z.mul_mod_idemp_l by lia.
    replace (memoryThreshold * 1024 * 1024) with (memoryThreshold * 2 ^ 20) by lia.
    replace (2 ^ 64) with (2 ^ 44 * 2 ^ 20) by lia.
    rewrite Z.mul_mod_distr_r by lia. lia. }
  split; [done|]. split; [|done]. by rewrite Z.div_mul.
Qed.

Lemma header_shows_memory_flag_witness :
  GetMemoryThreshold (mainConfig 5 50 1000000000) = (50 mod 2 ^ 44) * (1024 * 1024) ∧
  ui.headerMemoryMB (mainConfig 5 50 1000000000) = 50 mod 2 ^ 44 ∧
  GetCPUThreshold (mainConfig 5 50 1000000000) = 5%float ∧
  config.GetRefreshRate (mainConfig 5 50 1000000000) = 1000000000.
Proof. apply header_shows_memory_flag. lia. Defined.

(** ** Cursor, scrolling and input *)

Section DisplayFacts.

Lemma adjustScrollOffset_fields screen d :
  ui.monitor (ui.adjustScrollOffset screen d) = ui.monitor d ∧
  ui.processes (ui.adjustScrollOffset screen d) = ui.processes d ∧
  ui.selectedIndex (ui.adjustScrollOffset screen d) = ui.selectedIndex d ∧
  ui.paused (ui.adjustScrollOffset screen d) = ui.paused d ∧
  ui.forceRefresh (ui.adjustScrollOffset screen d) = ui.forceRefresh d ∧
  ui.running (ui.adjustScrollOffset screen d) = ui.running d ∧
  (0 <= ui.scrollOffset d → 0 <= ui.scrollOffset (ui.adjustScrollOffset screen d)).
Proof.
  unfold ui.adjustScrollOffset. destruct screen as [[w h]|]; [|done].
  destruct d as [m ps sel scr pa fr ru]. simpl.
  destruct (sel <? scr); simpl.
  { destruct (Z.ltb_spec sel 0); simpl; repeat split; try done; lia. }
  destruct (sel >=? _); simpl.
  - match goal with |- context [if ?x <? 0 then _ else _] => destruct (Z.ltb_spec x 0) end;
      simpl; repeat split; try done; lia.
  - destruct (Z.ltb_spec scr 0); simpl; repeat split; try done; lia.
Qed.

Lemma rowCount_nil d : ui.rowCount d = 0 ↔ ui.processes d = [].
Proof.
  unfold ui.rowCount. destruct (ui.processes d); simpl; [done|]. split; [lia|done].
Qed.

Lemma displayInv_adjust screen d :
  displayInv d → displayInv (ui.adjustScrollOffset screen d).
Proof.
  intros (H1 & H2 & H3 & H4 & H5).
  destruct (adjustScrollOffset_fields screen d) as (E1 & E2 & E3 & _ & _ & _ & E7).
  unfold displayInv, ui.rowCount. rewrite E1, E2, E3. by auto.
Qed.

Lemma displayInv_select v d :
  displayInv d → 0 <= v → (ui.processes d ≠ [] → v < ui.rowCount d) →
  displayInv (ui.set_selectedIndex v d).
Proof. intros (H1 & H2 & H3 & H4 & H5) Hv Hv'. by repeat split. Qed.

Lemma displayInv_MoveCursor screen delta d :
  displayInv d → displayInv (ui.MoveCursor screen delta d).
Proof.
  intros Hd. unfold ui.MoveCursor.
  destruct (Z.eqb_spec (ui.rowCount d) 0) as [H0|H0]; [done|].
  assert (0 < ui.rowCount d) as Hpos by (unfold ui.rowCount in *; lia).
  apply displayInv_adjust, displayInv_select; [done| |].
  - destruct (Z.ltb_spec (Go.int (ui.selectedIndex d + delta)) 0); [lia|].
    destruct (Z.geb_spec (Go.int (ui.selectedIndex d + delta)) (ui.rowCount d)); lia.
  - intros _. destruct (Z.ltb_spec (Go.int (ui.selectedIndex d + delta)) 0); [lia|].
    destruct (Z.geb_spec (Go.int (ui.selectedIndex d + delta)) (ui.rowCount d)); lia.
Qed.

Lemma displayInv_SetCursor screen pos d :
  displayInv d → displayInv (ui.SetCursor screen pos d).
Proof.
  intros Hd. unfold ui.SetCursor.
  destruct (Z.eqb_spec (ui.rowCount d) 0) as [H0|H0]; [done|].
  assert (0 < ui.rowCount d) as Hpos by (unfold ui.rowCount in *; lia).
  apply displayInv_adjust.
  destruct (Z.ltb_spec pos 0); [apply displayInv_select; [done|lia|lia]|].
  destruct (Z.geb_spec pos (ui.rowCount d)); apply displayInv_select; try done; lia.
Qed.

Lemma index_in_range {A} (l : list A) (i : Z) :
  0 <= i < Z.of_nat (length l) → ∃ x, Go.index l i = Some x ∧ l !! Z.to_nat i = Some x.
Proof.
  intros Hi. unfold Go.index. destruct (Z.ltb_spec i 0); [lia|].
  destruct (lookup_lt_is_Some_2 l (Z.to_nat i)) as [x Hx]; [lia|]. by exists x.
Qed.

Lemma ToggleExpanded_lookup pid m q :
  processes (ToggleExpanded pid m) !! q =
  if decide (q = pid) then toggled <$> processes m !! q else processes m !! q.
Proof.
  unfold ToggleExpanded. destruct (decide (q = pid)) as [->|Hne].
  - destruct (processes m !! pid) as [info|] eqn:Hinfo; simpl.
    + by rewrite lookup_insert_eq.
    + by rewrite Hinfo.
  - destruct (processes m !! pid) as [info|] eqn:Hinfo; simpl; [|done].
    by rewrite lookup_insert_ne.
Qed.

Lemma displayInv_monitor mon d :
  displayInv d →
  (∀ p i, processes (ui.monitor d) !! p = Some i →
          ∃ i', processes mon !! p = Some i' ∧ PID i' = PID i) →
  displayInv (ui.set_monitor mon d).
Proof.
  intros (H1 & H2 & H3 & H4 & H5) Hmon. repeat split; try done.
  intros p Hp. destruct (H5 p Hp) as (i & Hi & HPID).
  destruct (Hmon p i Hi) as (i' & Hi' & HPID'). exists i'. split; [done|congruence].
Qed.

Lemma displayInv_ToggleExpanded d :
  displayInv d → ∃ d', ui.ToggleExpanded d = Some d' ∧ displayInv d'.
Proof.
  intros Hd. unfold ui.ToggleExpanded.
  destruct (Z.eqb_spec (ui.rowCount d) 0) as [H0|H0]; [by exists d|].
  destruct (Z.geb_spec (ui.selectedIndex d) (ui.rowCount d)) as [Hge|Hlt]; [by exists d|].
  simpl. destruct Hd as (H1 & H2 & H3 & H4 & H5).
  destruct (index_in_range (ui.processes d) (ui.selectedIndex d)) as (p & -> & Hp).
  { unfold ui.rowCount in Hlt. lia. }
  eexists. split; [done|]. apply displayInv_monitor; [done|].
  intros q i Hi. rewrite ToggleExpanded_lookup.
  destruct (decide (q = p)) as [->|Hne]; [|by exists i].
  rewrite Hi. simpl. by exists (toggled i).
Qed.

Lemma displayInv_HandleInput screen ev d :
  displayInv d → ∃ more d', ui.HandleInput screen ev d = Some (more, d') ∧ displayInv d'.
Proof.
  intros Hd. destruct ev; simpl; try (by eexists _, _).
  - repeat (match goal with |- context [if ?b then _ else _] => destruct b end);
      by eexists _, _.
  - eexists _, _. split; [done|]. by apply displayInv_MoveCursor.
  - eexists _, _. split; [done|]. by apply displayInv_MoveCursor.
  - destruct (displayInv_ToggleExpanded d Hd) as (d' & -> & Hd'). by eexists _, _.
  - eexists _, _. split; [done|]. by apply displayInv_SetCursor.
  - eexists _, _. split; [done|]. by apply displayInv_SetCursor.
Qed.

End DisplayFacts.

Section DisplayLoops.

Variable range : ∀ A, nat → gmap Z A → list (Z * A).
Variable sort_Slice : list ProcessInfo → (ProcessInfo → ProcessInfo → bool) → list ProcessInfo.
Hypothesis range_perm : ∀ A site (m : gmap Z A), range A site m ≡ₚ map_to_list m.
Hypothesis sort_perm : ∀ l less, sort_Slice l less ≡ₚ l.

Lemma updateProcesses_Some fuel screen scan d d' :
  ui.updateProcesses range sort_Slice fuel screen scan d = Some d' →
  (scan = None ∧ d' = d) ∨
  ∃ procs filtered mon,
    scan = Some procs ∧
    Monitor_GetFilteredProcesses range sort_Slice fuel (ui.monitor d) (Some procs)
      = Some (Returned filtered, mon) ∧
    d' = ui.adjustScrollOffset screen
           (ui.set_selectedIndex
              (Z.max 0 (Z.min (ui.selectedIndex d) (Z.of_nat (length filtered) - 1)))
              (ui.set_processes (PID <$> filtered) (ui.set_monitor mon d))).
Proof.
  unfold ui.updateProcesses. destruct scan as [procs|].
  2: { simpl. intros [= <-]. left. by destruct d. }
  destruct (Monitor_GetFilteredProcesses _ _ _ _ _) as [[out mon]|] eqn:Hscan; [|done].
  pose proof Hscan as (st & _ & -> & _)%Monitor_GetFilteredProcesses_Some.
  intros [= <-]. right. eexists procs, _, mon. split; [done|]. split; [done|].
  f_equal. destruct d as [m ps sel scr pa fr ru].
  unfold ui.rowCount, ui.set_selectedIndex, ui.set_processes, ui.set_monitor. simpl.
  rewrite length_fmap.
  set (n := Z.of_nat (length _)).
  destruct (Z.geb_spec sel n); simpl.
  - destruct (Z.ltb_spec (n - 1) 0); simpl; f_equal; lia.
  - destruct (Z.ltb_spec sel 0); simpl; f_equal; lia.
Qed.

Lemma displayInv_updateProcesses fuel screen scan d d' :
  displayInv d → ui.updateProcesses range sort_Slice fuel screen scan d = Some d' →
  displayInv d'.
Proof.
  intros Hd [[_ ->]|(procs & filtered & mon & _ & Hscan & ->)]%updateProcesses_Some; [done|].
  destruct (scan_rows range sort_Slice range_perm sort_perm _ _ _ _ _ Hscan) as [Hnd Hrows].
  apply displayInv_adjust.
  destruct Hd as (H1 & H2 & H3 & H4 & H5).
  unfold displayInv, ui.rowCount. simpl. rewrite length_fmap.
  split; [lia|]. split; [done|]. split; [|split; [done|]].
  - intros Hne. destruct filtered; [done|]. simpl. lia.
  - intros p (r & -> & Hr)%list_elem_of_fmap. exists r. split; [by apply Hrows|done].
Qed.

Lemma displayInv_step d d' :
  displayInv d → ui.step range sort_Slice d d' → displayInv d'.
Proof.
  intros Hd Hstep. revert Hd.
  destruct Hstep as [screen ev d0 d1 _ Hkey|fuel screen scan d0 d1 _ Htick]; intros Hd.
  - unfold ui.keyPressed in Hkey.
    destruct (displayInv_HandleInput screen ev d0 Hd) as (more & d2 & Hin & Hd2).
    rewrite Hin in Hkey. destruct more; injection Hkey as <-; [done|].
    destruct Hd2 as (?&?&?&?&?). by repeat split.
  - unfold ui.tick in Htick. destruct (negb _ || _).
    + destruct (ui.updateProcesses _ _ _ _ _ _) as [d2|] eqn:Hupd; [|done].
      injection Htick as <-. apply displayInv_updateProcesses in Hupd; [|done].
      destruct Hupd as (?&?&?&?&?). by repeat split.
    + by injection Htick as <-.
Qed.

Lemma displayInv_reachable mon d :
  rtc (ui.step range sort_Slice) (ui.New mon) d → displayInv d.
Proof.
  revert d. apply (rtc_ind_r (R:=ui.step range sort_Slice) displayInv).
  - unfold displayInv, ui.New. simpl. split; [done|]. split; [done|]. split; [done|].
    split; [apply NoDup_nil_2|]. by intros p Hp%elem_of_nil.
  - intros y z _ Hstep Hy. by eapply displayInv_step.
Qed.

End DisplayLoops.

Section CursorFacts.

Lemma MoveCursor_selectedIndex screen delta d :
  ui.rowCount d ≠ 0 →
  ui.rowCount (ui.MoveCursor screen delta d) = ui.rowCount d ∧
  ui.selectedIndex (ui.MoveCursor screen delta d) =
    (if Go.int (ui.selectedIndex d + delta) <? 0 then ui.rowCount d - 1
     else if Go.int (ui.selectedIndex d + delta) >=? ui.rowCount d then 0
     else Go.int (ui.selectedIndex d + delta)).
Proof.
  intros Hn. unfold ui.MoveCursor.
  destruct (Z.eqb_spec (ui.rowCount d) 0) as [H0|H0]; [done|].
  destruct (adjustScrollOffset_fields screen
              (ui.set_selectedIndex
                 (if Go.int (ui.selectedIndex d + delta) <? 0 then ui.rowCount d - 1
                  else if Go.int (ui.selectedIndex d + delta) >=? ui.rowCount d then 0
                  else Go.int (ui.selectedIndex d + delta)) d))
    as (_ & E2 & E3 & _).
  unfold ui.rowCount in *. by rewrite E2, E3.
Qed.

Lemma SetCursor_selectedIndex screen pos d :
  ui.rowCount d ≠ 0 →
  ui.selectedIndex (ui.SetCursor screen pos d) =
    (if pos <? 0 then ui.rowCount d - 1
     else if pos >=? ui.rowCount d then ui.rowCount d - 1 else pos).
Proof.
  intros Hn. unfold ui.SetCursor.
  destruct (Z.eqb_spec (ui.rowCount d) 0) as [H0|H0]; [done|].
  match goal with |- ui.selectedIndex (ui.adjustScrollOffset _ ?d') = _ =>
    destruct (adjustScrollOffset_fields screen d') as (_ & _ & -> & _) end.
  destruct (pos <? 0); [done|]. by destruct (pos >=? ui.rowCount d).
Qed.

End CursorFacts.

(** X16: the cursor moves cyclically. With the cursor on a row, Down
    moves it to the next index modulo the number of rows and Up to the
    previous one, so that each undoes the other; Home selects the first
    row and End the last. *)
Theorem cursor_moves_cyclically screen screen' d :
  0 <= ui.selectedIndex d < ui.rowCount d → ui.rowCount d < 2 ^ 63 →
  ui.selectedIndex (ui.MoveCursor screen 1 d)
    = (ui.selectedIndex d + 1) mod ui.rowCount d ∧
  ui.selectedIndex (ui.MoveCursor screen (-1) d)
    = (ui.selectedIndex d - 1) mod ui.rowCount d ∧
  ui.selectedIndex (ui.MoveCursor screen' (-1) (ui.MoveCursor screen 1 d))
    = ui.selectedIndex d ∧
  ui.selectedIndex (ui.MoveCursor screen' 1 (ui.MoveCursor screen (-1) d))
    = ui.selectedIndex d ∧
  ui.selectedIndex (ui.SetCursor screen 0 d) = 0 ∧
  ui.selectedIndex (ui.SetCursor screen (-1) d) = ui.rowCount d - 1.
Proof.
  intros Hsel Hn.
  assert (ui.rowCount d ≠ 0) as Hne by lia.
  assert (∀ s delta (e : ui.Display),
            ui.rowCount e = ui.rowCount d → 0 <= ui.selectedIndex e < ui.rowCount d →
            delta = 1 ∨ delta = -1 →
            ui.rowCount (ui.MoveCursor s delta e) = ui.rowCount d ∧
            0 <= ui.selectedIndex (ui.MoveCursor s delta e) < ui.rowCount d ∧
            ui.selectedIndex (ui.MoveCursor s delta e)
              = (ui.selectedIndex e + delta) mod ui.rowCount d) as Hmove.
  { intros s delta e He Hse Hdelta.
    destruct (MoveCursor_selectedIndex s delta e) as [E1 E2]; [lia|].
    rewrite E1, E2, He. rewrite int_small by lia.
    split; [done|].
    destruct (Z.ltb_spec (ui.selectedIndex e + delta) 0).
    { assert (ui.selectedIndex e = 0 ∧ delta = -1) as [-> ->] by lia.
      split; [lia|]. apply (Zmod_unique _ _ (-1)); lia. }
    destruct (Z.geb_spec (ui.selectedIndex e + delta) (ui.rowCount d)).
    { split; [lia|]. apply (Zmod_unique _ _ 1); lia. }
    split; [lia|]. by rewrite Z.mod_small by lia. }
  destruct (Hmove screen 1 d eq_refl Hsel (or_introl eq_refl)) as (R1 & S1 & M1).
  destruct (Hmove screen (-1) d eq_refl Hsel (or_intror eq_refl)) as (R2 & S2 & M2).
  replace (ui.selectedIndex d + -1) with (ui.selectedIndex d - 1) in M2 by lia.
  destruct (Hmove screen' (-1) _ R1 S1 (or_intror eq_refl)) as (_ & _ & M3).
  destruct (Hmove screen' 1 _ R2 S2 (or_introl eq_refl)) as (_ & _ & M4).
  split; [done|]. split; [done|]. split; [|split; [|split]].
  - rewrite M3, M1, Zplus_mod_idemp_l.
    replace (ui.selectedIndex d + 1 + -1) with (ui.selectedIndex d) by lia.
    by rewrite Z.mod_small.
  - rewrite M4, M2, Zplus_mod_idemp_l.
    replace (ui.selectedIndex d - 1 + 1) with (ui.selectedIndex d) by lia.
    by rewrite Z.mod_small.
  - rewrite SetCursor_selectedIndex by done. simpl.
    by destruct (Z.geb_spec 0 (ui.rowCount d)); [lia|].
  - by rewrite SetCursor_selectedIndex.
Qed.

Lemma cursor_moves_cyclically_witness :
  ui.selectedIndex (ui.MoveCursor terminal 1 displayTwoRows)
    = (ui.selectedIndex displayTwoRows + 1) mod ui.rowCount displayTwoRows ∧
  ui.selectedIndex (ui.MoveCursor terminal (-1) displayTwoRows)
    = (ui.selectedIndex displayTwoRows - 1) mod ui.rowCount displayTwoRows ∧
  ui.selectedIndex (ui.MoveCursor terminal (-1) (ui.MoveCursor terminal 1 displayTwoRows))
    = ui.selectedIndex displayTwoRows ∧
  ui.selectedIndex (ui.MoveCursor terminal 1 (ui.MoveCursor terminal (-1) displayTwoRows))
    = ui.selectedIndex displayTwoRows ∧
  ui.selectedIndex (ui.SetCursor terminal 0 displayTwoRows) = 0 ∧
  ui.selectedIndex (ui.SetCursor terminal (-1) displayTwoRows)
    = ui.rowCount displayTwoRows - 1.
Proof.
  apply cursor_moves_cyclically; vm_compute; [split; [discriminate|reflexivity]|reflexivity].
Defined.

(** X17: on a terminal of at least 12 rows [adjustScrollOffset]
    leaves the cursor alone and ends with the selected index inside the
    window of [height - 11] rows that starts at the scroll offset, which
    is not negative. If the selection was inside the window already,
    nothing changes. *)
Theorem adjustScrollOffset_shows_selection width height d :
  12 <= height < 2 ^ 62 → 0 <= ui.selectedIndex d < 2 ^ 62 →
  - 2 ^ 62 <= ui.scrollOffset d < 2 ^ 62 →
  ui.selectedIndex (ui.adjustScrollOffset (Some (width, height)) d) = ui.selectedIndex d ∧
  0 <= ui.scrollOffset (ui.adjustScrollOffset (Some (width, height)) d)
    <= ui.selectedIndex d ∧
  ui.selectedIndex d
    < ui.scrollOffset (ui.adjustScrollOffset (Some (width, height)) d) + (height - 11) ∧
  (0 <= ui.scrollOffset d <= ui.selectedIndex d →
   ui.selectedIndex d < ui.scrollOffset d + (height - 11) →
   ui.adjustScrollOffset (Some (width, height)) d = d).
Proof.
  intros Hh Hsel Hscr. unfold ui.adjustScrollOffset.
  destruct d as [m ps sel scr pa fr ru]. simpl in *.
  rewrite (int_small (height - 11)) by lia.
  rewrite (int_small (scr + (height - 11))) by lia.
  rewrite (int_small (sel - (height - 11))) by lia.
  rewrite (int_small (sel - (height - 11) + 1)) by lia.
  destruct (Z.ltb_spec sel scr); simpl.
  { destruct (Z.ltb_spec sel 0); simpl; repeat split; try lia. }
  destruct (Z.geb_spec sel (scr + (height - 11))); simpl.
  { destruct (Z.ltb_spec (sel - (height - 11) + 1) 0); simpl; repeat split; try lia. }
  destruct (Z.ltb_spec scr 0); simpl; repeat split; try lia; done.
Qed.

Lemma adjustScrollOffset_shows_selection_witness :
  ui.selectedIndex (ui.adjustScrollOffset (Some (80, 24)) displayTwoRows)
    = ui.selectedIndex displayTwoRows ∧
  0 <= ui.scrollOffset (ui.adjustScrollOffset (Some (80, 24)) displayTwoRows)
    <= ui.selectedIndex displayTwoRows ∧
  ui.selectedIndex displayTwoRows
    < ui.scrollOffset (ui.adjustScrollOffset (Some (80, 24)) displayTwoRows) + (24 - 11) ∧
  (0 <= ui.scrollOffset displayTwoRows <= ui.selectedIndex displayTwoRows →
   ui.selectedIndex displayTwoRows < ui.scrollOffset displayTwoRows + (24 - 11) →
   ui.adjustScrollOffset (Some (80, 24)) displayTwoRows = displayTwoRows).
Proof.
  apply adjustScrollOffset_shows_selection; vm_compute; split; (discriminate || reflexivity).
Defined.

Section RowFacts.

Lemma ToggleExpanded_twice pid m : ToggleExpanded pid (ToggleExpanded pid m) = m.
Proof.
  unfold ToggleExpanded. destruct m as [t l c]. simpl.
  destruct (t !! pid) as [info|] eqn:Hinfo; simpl; [|by rewrite Hinfo].
  rewrite lookup_insert_eq. simpl. f_equal.
  rewrite insert_insert_eq, negb_involutive.
  replace (set_Expanded (Expanded info) _) with info by (by destruct info).
  by apply insert_id.
Qed.

Lemma omap_ext_in {A B} (f h : A → option B) (l : list A) :
  (∀ q, q ∈ l → f q = h q) → omap f l = omap h l.
Proof.
  induction l as [|a l IH]; intros Hfh; [done|].
  assert (omap f l = omap h l) as IH'.
  { apply IH. intros q Hq. apply Hfh. by right. }
  simpl. rewrite (Hfh a) by left. destruct (h a); [f_equal|]; apply IH'.
Qed.

Lemma omap_alter_at {A B} `{EqDecision A} (f : A → option B) (g : B → B)
    (l : list A) (p : A) : ∀ k,
  NoDup l → (∀ q, q ∈ l → is_Some (f q)) → l !! k = Some p →
  omap (λ q, if decide (q = p) then g <$> f q else f q) l = alter g k (omap f l).
Proof.
  induction l as [|a l IH]; intros k Hnd Hall Hk; [done|].
  apply NoDup_cons in Hnd as [Ha Hnd].
  destruct (Hall a) as [b Hb]; [by left|].
  destruct k as [|k]; simpl in Hk.
  - injection Hk as ->. simpl. rewrite decide_True by done. rewrite Hb. simpl.
    f_equal. apply omap_ext_in. intros q Hq.
    rewrite decide_False; [done|]. by intros ->.
  - simpl. rewrite decide_False.
    2: { intros ->. apply Ha. by eapply list_elem_of_lookup_2. }
    rewrite Hb. simpl. f_equal. apply IH; [done| |done].
    intros q Hq. apply Hall. by right.
Qed.

End RowFacts.

Section DisplayTheorems.

Variable range : ∀ A, nat → gmap Z A → list (Z * A).
Variable sort_Slice : list ProcessInfo → (ProcessInfo → ProcessInfo → bool) → list ProcessInfo.
Hypothesis range_perm : ∀ A site (m : gmap Z A), range A site m ≡ₚ map_to_list m.
Hypothesis sort_perm : ∀ l less, sort_Slice l less ≡ₚ l.

(** X15: in every state a running display can reach by key events and
    refresh ticks, the cursor index and the scroll offset are not
    negative, the cursor is on a row whenever there is one, and no key
    makes [HandleInput] index [d.processes] out of range. *)
Theorem display_events_are_safe mon d :
  rtc (ui.step range sort_Slice) (ui.New mon) d →
  0 <= ui.selectedIndex d ∧ 0 <= ui.scrollOffset d ∧
  (ui.processes d ≠ [] → ui.selectedIndex d < ui.rowCount d) ∧
  (∀ screen ev, is_Some (ui.HandleInput screen ev d)).
Proof.
  intros Hd%(displayInv_reachable range sort_Slice range_perm sort_perm).
  pose proof Hd as (H1 & H2 & H3 & _). repeat (split; [done|]).
  intros screen ev.
  destruct (displayInv_HandleInput screen ev d Hd) as (more & d' & -> & _). by eexists.
Qed.

(** X18: Enter, in a reachable state with at least one row, flips the
    [Expanded] flag of the selected row as the display reads it through
    its pointer, and of no other row; cursor and rows stay as they are,
    and a second Enter restores the display. *)
Theorem enter_toggles_selected_row mon screen d :
  rtc (ui.step range sort_Slice) (ui.New mon) d → ui.processes d ≠ [] →
  ∃ d', ui.HandleInput screen ui.KeyEnter d = Some (true, d') ∧
    ui.rows d' = alter toggled (Z.to_nat (ui.selectedIndex d)) (ui.rows d) ∧
    length (ui.rows d) = length (ui.processes d) ∧
    ui.processes d' = ui.processes d ∧
    ui.selectedIndex d' = ui.selectedIndex d ∧
    ui.HandleInput screen ui.KeyEnter d' = Some (true, d).
Proof.
  intros Hd%(displayInv_reachable range sort_Slice range_perm sort_perm) Hne.
  destruct Hd as (H1 & H2 & H3 & H4 & H5). specialize (H3 Hne).
  assert (ui.rowCount d ≠ 0) as Hn by (by rewrite rowCount_nil).
  destruct (index_in_range (ui.processes d) (ui.selectedIndex d)) as (p & Hp & Hp').
  { unfold ui.rowCount in H3. lia. }
  assert (∀ e, ui.processes e = ui.processes d → ui.selectedIndex e = ui.selectedIndex d →
               ui.HandleInput screen ui.KeyEnter e =
               Some (true, ui.set_monitor (ToggleExpanded p (ui.monitor e)) e)) as Henter.
  { intros e E1 E2. simpl. unfold ui.ToggleExpanded, ui.rowCount. rewrite E1, E2.
    fold (ui.rowCount d).
    destruct (Z.eqb_spec (ui.rowCount d) 0); [done|].
    destruct (Z.geb_spec (ui.selectedIndex d) (ui.rowCount d)); [lia|].
    simpl. by rewrite Hp. }
  eexists. split; [by apply Henter|]. split; [|split; [|split; [done|split; [done|]]]].
  - unfold ui.rows. simpl.
    rewrite <- (omap_alter_at (ui.deref (ui.monitor d)) toggled (ui.processes d) p);
      [|done| |done].
    + apply omap_ext_in. intros q _. unfold ui.deref. apply ToggleExpanded_lookup.
    + intros q Hq. destruct (H5 q Hq) as (i & Hi & _). by exists i.
  - unfold ui.rows. clear Hp Hp' Henter H3 H4 Hne Hn.
    induction (ui.processes d) as [|q l IH]; [done|].
    simpl. destruct (H5 q) as (i & Hi & _); [by left|].
    unfold ui.deref at 1. rewrite Hi. simpl. f_equal. apply IH.
    intros q' Hq'. apply H5. by right.
  - rewrite Henter by done. simpl. rewrite ToggleExpanded_twice. by destruct d.
Qed.

(** X19: a refresh replaces the rows of the display by those the
    monitor returns, read through the display's pointers; the cursor
    index is the old one clamped into the new list (0 when it is empty),
    and the pause, refresh and running flags are untouched. *)
Theorem refresh_replaces_rows fuel screen procs d d' :
  ui.updateProcesses range sort_Slice fuel screen (Some procs) d = Some d' →
  ∃ filtered,
    fst <$> Monitor_GetFilteredProcesses range sort_Slice fuel (ui.monitor d) (Some procs)
      = Some (Returned filtered) ∧
    ui.rows d' = filtered ∧
    ui.selectedIndex d' =
      Z.max 0 (Z.min (ui.selectedIndex d) (Z.of_nat (length filtered) - 1)) ∧
    ui.paused d' = ui.paused d ∧ ui.forceRefresh d' = ui.forceRefresh d ∧
    ui.running d' = ui.running d.
Proof.
  intros [[? _]|(procs' & filtered & mon & [= <-] & Hscan & ->)]%updateProcesses_Some;
    [done|].
  exists filtered. rewrite Hscan. split; [done|].
  destruct (adjustScrollOffset_fields screen
              (ui.set_selectedIndex
                 (Z.max 0 (Z.min (ui.selectedIndex d) (Z.of_nat (length filtered) - 1)))
                 (ui.set_processes (PID <$> filtered) (ui.set_monitor mon d))))
    as (E1 & E2 & E3 & E4 & E5 & E6 & _).
  split; [|by rewrite E3, E4, E5, E6].
  unfold ui.rows. rewrite E1, E2. simpl.
  destruct (scan_rows range sort_Slice range_perm sort_perm _ _ _ _ _ Hscan) as [_ Hrows].
  clear -Hrows. induction filtered as [|r l IH]; [done|].
  simpl. unfold ui.deref at 1. rewrite (Hrows r) by left. simpl. f_equal.
  apply IH. intros r' Hr'. apply Hrows. by right.
Qed.

End DisplayTheorems.

Lemma displayTwoRows_reachable :
  rtc (ui.step rangeInOrder insertionSort) displayStart displayTwoRows.
Proof.
  apply rtc_once, (ui.step_tick _ _ 2%nat terminal (Some twoRows)); [done|].
  vm_compute. reflexivity.
Qed.

Lemma display_events_are_safe_witness :
  0 <= ui.selectedIndex displayTwoRows ∧ 0 <= ui.scrollOffset displayTwoRows ∧
  (ui.processes displayTwoRows ≠ [] →
   ui.selectedIndex displayTwoRows < ui.rowCount displayTwoRows) ∧
  (∀ screen ev, is_Some (ui.HandleInput screen ev displayTwoRows)).
Proof.
  apply (display_events_are_safe rangeInOrder insertionSort rangeInOrder_perm
           insertionSort_perm (New defaultConfig)).
  apply displayTwoRows_reachable.
Defined.

Lemma enter_toggles_selected_row_witness :
  ∃ d', ui.HandleInput terminal ui.KeyEnter displayTwoRows = Some (true, d') ∧
    ui.rows d' = alter toggled (Z.to_nat (ui.selectedIndex displayTwoRows))
                   (ui.rows displayTwoRows) ∧
    length (ui.rows displayTwoRows) = length (ui.processes displayTwoRows) ∧
    ui.processes d' = ui.processes displayTwoRows ∧
    ui.selectedIndex d' = ui.selectedIndex displayTwoRows ∧
    ui.HandleInput terminal ui.KeyEnter d' = Some (true, displayTwoRows).
Proof.
  apply (enter_toggles_selected_row rangeInOrder insertionSort rangeInOrder_perm
           insertionSort_perm (New defaultConfig)); [|done].
  apply displayTwoRows_reachable.
Defined.

Lemma refresh_replaces_rows_witness :
  ∃ filtered,
    fst <$> Monitor_GetFilteredProcesses rangeInOrder insertionSort 2
              (ui.monitor displayStart) (Some twoRows)
      = Some (Returned filtered) ∧
    ui.rows displayTwoRows = filtered ∧
    ui.selectedIndex displayTwoRows =
      Z.max 0 (Z.min (ui.selectedIndex displayStart) (Z.of_nat (length filtered) - 1)) ∧
    ui.paused displayTwoRows = ui.paused displayStart ∧
    ui.forceRefresh displayTwoRows = ui.forceRefresh displayStart ∧
    ui.running displayTwoRows = ui.running displayStart.
Proof.
  apply (refresh_replaces_rows rangeInOrder insertionSort rangeInOrder_perm
           insertionSort_perm 2 terminal twoRows displayStart).
  vm_compute. reflexivity.
Defined.

Section Pausing.

Variable range : ∀ A, nat → gmap Z A → list (Z * A).
Variable sort_Slice : list ProcessInfo → (ProcessInfo → ProcessInfo → bool) → list ProcessInfo.

Lemma tick_flags fuel screen scan d d' :
  ui.tick range sort_Slice fuel screen scan d = Some d' →
  ui.paused d' = ui.paused d ∧ ui.forceRefresh d' = false ∨
  ui.forceRefresh d = false ∧ d' = d.
Proof.
  unfold ui.tick. destruct (negb (ui.paused d) || ui.forceRefresh d) eqn:Hb.
  2: { intros [= <-]. right. by apply orb_false_iff in Hb as [_ ?]. }
  destruct (ui.updateProcesses _ _ _ _ _ _) as [d1|] eqn:Hupd; [|done].
  intros [= <-]. left. split; [|done]. simpl.
  unfold ui.updateProcesses in Hupd.
  destruct (Monitor_GetFilteredProcesses _ _ _ _ _) as [[[|filtered] mon]|]; [| |done].
  - by injection Hupd as <-.
  - injection Hupd as <-.
    match goal with |- ui.paused (ui.adjustScrollOffset _ ?e) = _ =>
      destruct (adjustScrollOffset_fields screen e) as (_ & _ & _ & -> & _) end.
    by repeat (match goal with |- context [if ?b then _ else _] => destruct b end).
Qed.

(** X20: while the display is paused a tick changes nothing. The key
    [r] sets the refresh flag; the next tick then refreshes once and
    clears the flag, and every later tick changes nothing again. *)
Theorem paused_display_refreshes_on_demand_only fuel screen scan d :
  ui.paused d = true → ui.forceRefresh d = false →
  ui.tick range sort_Slice fuel screen scan d = Some d ∧
  ui.keyPressed screen (ui.KeyRune 114) d = Some (ui.ForceRefresh d) ∧
  ui.tick range sort_Slice fuel screen scan (ui.ForceRefresh d) =
    ui.set_forceRefresh false <$>
      ui.updateProcesses range sort_Slice fuel screen scan (ui.ForceRefresh d) ∧
  (∀ d' fuel' screen' scan',
     ui.tick range sort_Slice fuel screen scan (ui.ForceRefresh d) = Some d' →
     ui.tick range sort_Slice fuel' screen' scan' d' = Some d').
Proof.
  intros Hp Hf. split; [|split; [done|split]].
  - unfold ui.tick. by rewrite Hp, Hf.
  - unfold ui.tick. simpl. by rewrite orb_true_r.
  - intros d' fuel' screen' scan' Htick.
    apply tick_flags in Htick as [[Hp' Hf']|Heq].
    + unfold ui.tick. simpl in Hp'. by rewrite Hp', Hp, Hf'.
    + by destruct Heq.
Qed.

End Pausing.

Lemma paused_display_refreshes_on_demand_only_witness :
  ui.tick rangeInOrder insertionSort 2 terminal (Some chromeScenario)
    (ui.TogglePause displayTwoRows) = Some (ui.TogglePause displayTwoRows) ∧
  ui.keyPressed terminal (ui.KeyRune 114) (ui.TogglePause displayTwoRows)
    = Some (ui.ForceRefresh (ui.TogglePause displayTwoRows)) ∧
  ui.tick rangeInOrder insertionSort 2 terminal (Some chromeScenario)
    (ui.ForceRefresh (ui.TogglePause displayTwoRows)) =
    ui.set_forceRefresh false <$>
      ui.updateProcesses rangeInOrder insertionSort 2 terminal (Some chromeScenario)
        (ui.ForceRefresh (ui.TogglePause displayTwoRows)) ∧
  (∀ d' fuel' screen' scan',
     ui.tick rangeInOrder insertionSort 2 terminal (Some chromeScenario)
       (ui.ForceRefresh (ui.TogglePause displayTwoRows)) = Some d' →
     ui.tick rangeInOrder insertionSort fuel' screen' scan' d' = Some d').
Proof. by apply paused_display_refreshes_on_demand_only. Defined.

(** ** The layout of the process list *)

Section Layout.

Variable cs : ui.ColorScheme.
Variables selectedIndex width limit : Z.

Lemma truncateString_Some s maxLen : is_Some (ui.truncateString s maxLen).
Proof.
  unfold ui.truncateString.
  set (m := if maxLen <? 4 then 4 else maxLen).
  assert (4 <= m) by (unfold m; destruct (Z.ltb_spec maxLen 4); lia).
  destruct (Z.leb_spec (Z.of_nat (Go.len s)) m); [by eexists|].
  unfold Go.slice_to_checked.
  destruct (Z.leb_spec 0 (m - 3)); [|lia].
  destruct (Z.leb_spec (m - 3) (Z.of_nat (Go.len s))); [|lia]. by eexists.
Qed.

Lemma processLine_Some i proc y :
  ∃ c, ui.processLine cs selectedIndex width i proc y = Some c ∧
       ui.textX c = 3 ∧ ui.textY c = y ∧
       ui.bg (ui.textStyle c) =
         if i =? selectedIndex then ui.Selected cs else ui.Background cs.
Proof.
  unfold ui.processLine.
  destruct (truncateString_Some (Name proc)
              (if Go.int (width - 45) <? 20 then 20 else Go.int (width - 45)))
    as [name ->].
  simpl. eexists. split; [done|]. split; [done|]. split; [done|].
  simpl. unfold ui.GetStyle. by destruct (i =? selectedIndex).
Qed.

Lemma parentLine_Some proc y :
  ∃ c, ui.parentLine cs width proc y = Some c ∧ ui.textX c = 3 ∧ ui.textY c = y ∧
       ui.bg (ui.textStyle c) = ui.Background cs.
Proof.
  unfold ui.parentLine.
  destruct (truncateString_Some (Name proc)
              ((if Go.int (width - 50) <? 15 then 15 else Go.int (width - 50)) - 9))
    as [name ->].
  simpl. by eexists.
Qed.

Lemma childLine_Some child y :
  ∃ c, ui.childLine cs width child y = Some c ∧ ui.textX c = 3 ∧ ui.textY c = y ∧
       ui.bg (ui.textStyle c) = ui.Background cs.
Proof.
  unfold ui.childLine.
  match goal with |- context [ui.truncateString ?s ?w] =>
    destruct (truncateString_Some s w) as [name ->] end.
  simpl. eexists. split; [done|]. split; [done|]. split; [done|].
  simpl. by destruct (IsThread child).
Qed.

Lemma stacked_nil y : stacked limit y [].
Proof. by intros j c. Qed.

Lemma stacked_cons y c calls :
  ui.textX c = 3 → ui.textY c = y → y < limit → stacked limit (y + 1) calls →
  stacked limit y (c :: calls).
Proof.
  intros Hx Hy Hl Hs [|j] c'; simpl.
  - intros [= <-]. split; [done|]. split; lia.
  - intros Hc. destruct (Hs j c' Hc) as (? & ? & ?). split; [done|]. split; lia.
Qed.

Lemma stacked_app y calls1 calls2 :
  stacked limit y calls1 → stacked limit (y + Z.of_nat (length calls1)) calls2 →
  stacked limit y (calls1 ++ calls2).
Proof.
  intros H1 H2 j c Hc. apply lookup_app_Some in Hc as [Hc|[Hj Hc]]; [by apply H1|].
  destruct (H2 _ _ Hc) as (? & ? & ?). split; [done|]. split; lia.
Qed.

Lemma renderChildren_layout : ∀ children y,
  ∃ calls,
    ui.renderChildren cs width limit children y = Some (calls, y + Z.of_nat (length calls)) ∧
    Z.of_nat (length calls) = Z.min (Z.of_nat (length children)) (Z.max 0 (limit - y)) ∧
    stacked limit y calls ∧
    (∀ c, c ∈ calls → ui.bg (ui.textStyle c) = ui.Background cs).
Proof.
  induction children as [|child children IH]; intros y.
  { exists []. simpl. rewrite Z.add_0_r. split; [done|]. split; [lia|].
    split; [apply stacked_nil|]. by intros c Hc%elem_of_nil. }
  simpl. destruct (Z.geb_spec y limit).
  { exists []. simpl. rewrite Z.add_0_r. split; [done|]. split; [lia|].
    split; [apply stacked_nil|]. by intros c Hc%elem_of_nil. }
  destruct (childLine_Some child y) as (c & -> & Hx & Hy & Hbg).
  destruct (IH (y + 1)) as (calls & -> & Hlen & Hst & Hplain). simpl.
  exists (c :: calls). split; [f_equal; f_equal; simpl; lia|].
  split; [simpl; lia|]. split; [by apply stacked_cons|].
  intros c' [->|Hc']%elem_of_cons; [done|by apply Hplain].
Qed.

Lemma listingHeight_nonneg procs : 0 <= listingHeight procs.
Proof.
  induction procs as [|p procs IH]; simpl; [done|].
  unfold rowHeight. destruct (_ && _); lia.
Qed.

Lemma rowHeight_pos proc : 1 <= rowHeight proc.
Proof. unfold rowHeight. destruct (_ && _); lia. Qed.

(** The lines under the main line of a row. *)
Lemma expandedLines_layout proc y :
  y < limit →
  ∃ expanded,
    (if Expanded proc && (Z.of_nat (length (Children proc)) >? 0) then
       '(parent, currentY) ←
         (if y + 1 <? limit then
            call ← ui.parentLine cs width proc (y + 1);
            Some ([call], y + 1 + 1)
          else Some ([], y + 1));
       '(calls, currentY) ←
         ui.renderChildren cs width limit (Children proc) currentY;
       Some (parent ++ calls, currentY)
     else Some ([], y + 1))
    = Some (expanded, y + 1 + Z.of_nat (length expanded)) ∧
    Z.of_nat (length expanded) = Z.min (rowHeight proc - 1) (limit - (y + 1)) ∧
    stacked limit (y + 1) expanded ∧
    (∀ c, c ∈ expanded → ui.bg (ui.textStyle c) = ui.Background cs).
Proof.
  intros Hlt. unfold rowHeight. destruct (Expanded proc && _).
  2: { exists []. simpl. rewrite Z.add_0_r. split; [done|]. split; [lia|].
       split; [apply stacked_nil|]. by intros c Hc%elem_of_nil. }
  destruct (Z.ltb_spec (y + 1) limit) as [Hlt'|Hge'].
  - destruct (parentLine_Some proc (y + 1)) as (pc & -> & Hpx & Hpy & Hpbg).
    cbn [mbind option_bind].
    destruct (renderChildren_layout (Children proc) (y + 1 + 1))
      as (calls & -> & Hl & Hs & Hplain).
    cbn [mbind option_bind].
    exists (pc :: calls). split; [f_equal; f_equal; simpl; lia|].
    split; [simpl; lia|]. split; [by apply stacked_cons|].
    intros c' [->|Hc']%elem_of_cons; [done|by apply Hplain].
  - cbn [mbind option_bind].
    destruct (renderChildren_layout (Children proc) (y + 1))
      as (calls & -> & Hl & Hs & Hplain).
    cbn [mbind option_bind].
    exists calls. split; [done|]. split; [lia|]. done.
Qed.

Lemma renderRows_layout : ∀ procs i y,
  ∃ calls,
    ui.renderRows cs selectedIndex width limit procs i y = Some calls ∧
    Z.of_nat (length calls) = Z.min (Z.max 0 (limit - y)) (listingHeight procs) ∧
    stacked limit y calls ∧
    (∀ k proc, procs !! k = Some proc →
       listingHeight (take k procs) < limit - y →
       calls !! Z.to_nat (listingHeight (take k procs)) =
       ui.processLine cs selectedIndex width (i + Z.of_nat k) proc
         (y + listingHeight (take k procs))) ∧
    (ui.Selected cs ≠ ui.Background cs →
     ∀ c, c ∈ calls → ui.bg (ui.textStyle c) = ui.Selected cs →
       ∃ k proc, procs !! k = Some proc ∧ i + Z.of_nat k = selectedIndex ∧
                 listingHeight (take k procs) < limit - y).
Proof.
  induction procs as [|proc procs IH]; intros i y.
  { exists []. simpl. split; [done|]. split; [lia|]. split; [apply stacked_nil|].
    split; [done|]. by intros _ c Hc%elem_of_nil. }
  pose proof (listingHeight_nonneg procs) as Hrest.
  pose proof (rowHeight_pos proc) as Hrow.
  cbn [ui.renderRows]. destruct (Z.geb_spec y limit) as [Hge|Hlt].
  { exists []. split; [done|]. simpl. split; [lia|]. split; [apply stacked_nil|].
    split; [|by intros _ c Hc%elem_of_nil].
    intros k p _ Hk. pose proof (listingHeight_nonneg (take k (proc :: procs))). lia. }
  destruct (processLine_Some i proc y) as (c & Hc & Hx & Hy & Hbg). rewrite Hc.
  cbn [mbind option_bind].
  destruct (expandedLines_layout proc y Hlt) as (expanded & -> & Hlen & Hst & Hplain).
  cbn [mbind option_bind].
  destruct (IH (i + 1) (y + 1 + Z.of_nat (length expanded)))
    as (rest & -> & Hrlen & Hrst & Hrows & Hhigh).
  cbn [mbind option_bind].
  exists (c :: expanded ++ rest). split; [done|]. split; [|split; [|split]].
  - cbn [length listingHeight foldr]. rewrite length_app.
    fold (listingHeight procs). lia.
  - apply stacked_cons; [done|done|done|]. by apply stacked_app.
  - intros [|k] p Hk Hbefore.
    + injection Hk as ->. simpl. by rewrite !Z.add_0_r.
    + simpl in Hk. cbn [take listingHeight foldr] in *.
      fold (listingHeight (take k procs)) in *.
      pose proof (listingHeight_nonneg (take k procs)) as Hk0.
      assert (Z.of_nat (length expanded) = rowHeight proc - 1) as Hfull by lia.
      replace (Z.to_nat (rowHeight proc + listingHeight (take k procs)))
        with (length (c :: expanded) + Z.to_nat (listingHeight (take k procs)))%nat
        by (simpl; lia).
      change (c :: expanded ++ rest) with ((c :: expanded) ++ rest).
      rewrite lookup_app_r by lia.
      replace (length (c :: expanded) + Z.to_nat (listingHeight (take k procs))
               - length (c :: expanded))%nat
        with (Z.to_nat (listingHeight (take k procs))) by lia.
      rewrite (Hrows k p Hk) by lia. f_equal; lia.
  - intros Hdistinct c' [->|[Hc'|Hc']%elem_of_app]%elem_of_cons Hsel.
    + exists 0%nat, proc. split; [done|]. simpl. split; [|lia].
      rewrite Hbg in Hsel. destruct (Z.eqb_spec i selectedIndex); [lia|].
      by destruct Hdistinct.
    + rewrite (Hplain c' Hc') in Hsel. by destruct Hdistinct.
    + destruct (Hhigh Hdistinct c' Hc' Hsel) as (k & p & Hk & Hik & Hbefore).
      pose proof (listingHeight_nonneg (take k procs)) as Hk0.
      exists (S k), p. split; [done|]. split; [lia|].
      cbn [take listingHeight foldr]. fold (listingHeight (take k procs)). lia.
Qed.

Lemma listingHeight_collapsed procs :
  (∀ proc, proc ∈ procs → rowHeight proc = 1) →
  listingHeight procs = Z.of_nat (length procs).
Proof.
  induction procs as [|p procs IH]; intros Hall; [done|].
  cbn [listingHeight foldr length]. fold (listingHeight procs).
  rewrite (Hall p) by left. rewrite IH; [lia|]. intros q Hq. apply Hall. by right.
Qed.

End Layout.

(** X21: the layout of the process list. With a scroll offset that is
    not negative [renderProcesses] indexes nothing out of range. It draws
    one line after the other from screen row 8 on, all at column 3, and
    stops after [renderLimit height - 8] lines or at the end of the
    listing that starts at the row of the scroll offset, in which an
    expanded row with entries takes two lines more than it has entries.
    The line of a row is the call that follows the lines of the rows
    before it, provided those take fewer than [renderLimit height - 8]
    lines: rows above that are expanded move it down. *)
Theorem renderProcesses_layout cs d width height :
  0 <= ui.scrollOffset d →
  ∃ calls,
    ui.renderProcesses cs d width height = Some calls ∧
    Z.of_nat (length calls) =
      Z.min (Z.max 0 (ui.renderLimit height - 8))
        (listingHeight (drop (Z.to_nat (ui.scrollOffset d)) (ui.rows d))) ∧
    (∀ j c, calls !! j = Some c →
       ui.textX c = 3 ∧ ui.textY c = 8 + Z.of_nat j ∧ ui.textY c < ui.renderLimit height) ∧
    (∀ k proc,
       drop (Z.to_nat (ui.scrollOffset d)) (ui.rows d) !! k = Some proc →
       listingHeight (take k (drop (Z.to_nat (ui.scrollOffset d)) (ui.rows d)))
         < ui.renderLimit height - 8 →
       calls !! Z.to_nat
                  (listingHeight (take k (drop (Z.to_nat (ui.scrollOffset d)) (ui.rows d))))
       = ui.processLine cs (ui.selectedIndex d) width (ui.scrollOffset d + Z.of_nat k) proc
           (8 + listingHeight (take k (drop (Z.to_nat (ui.scrollOffset d)) (ui.rows d))))).
Proof.
  intros Hscroll. unfold ui.renderProcesses.
  destruct (Z.ltb_spec (ui.scrollOffset d) 0); [lia|].
  destruct (renderRows_layout cs (ui.selectedIndex d) width (ui.renderLimit height)
              (drop (Z.to_nat (ui.scrollOffset d)) (ui.rows d)) (ui.scrollOffset d) 8)
    as (calls & -> & Hlen & Hst & Hrows & _).
  exists calls. split; [done|]. split; [done|]. split; [exact Hst|exact Hrows].
Qed.

Lemma renderProcesses_layout_witness :
  ∃ calls,
    ui.renderProcesses ui.NewColorScheme displayChromeExpanded 80 13 = Some calls ∧
    Z.of_nat (length calls) =
      Z.min (Z.max 0 (ui.renderLimit 13 - 8))
        (listingHeight (drop (Z.to_nat (ui.scrollOffset displayChromeExpanded))
                          (ui.rows displayChromeExpanded))) ∧
    (∀ j c, calls !! j = Some c →
       ui.textX c = 3 ∧ ui.textY c = 8 + Z.of_nat j ∧ ui.textY c < ui.renderLimit 13) ∧
    (∀ k proc,
       drop (Z.to_nat (ui.scrollOffset displayChromeExpanded))
         (ui.rows displayChromeExpanded) !! k = Some proc →
       listingHeight (take k (drop (Z.to_nat (ui.scrollOffset displayChromeExpanded))
                                (ui.rows displayChromeExpanded)))
         < ui.renderLimit 13 - 8 →
       calls !! Z.to_nat
                  (listingHeight
                     (take k (drop (Z.to_nat (ui.scrollOffset displayChromeExpanded))
                                (ui.rows displayChromeExpanded))))
       = ui.processLine ui.NewColorScheme (ui.selectedIndex displayChromeExpanded) 80
           (ui.scrollOffset displayChromeExpanded + Z.of_nat k) proc
           (8 + listingHeight
                  (take k (drop (Z.to_nat (ui.scrollOffset displayChromeExpanded))
                             (ui.rows displayChromeExpanded))))).
Proof. apply renderProcesses_layout. vm_compute. discriminate. Defined.

(** X23: when the selection colour differs from the background, a
    highlighted line is on the screen exactly when the selected row
    exists, is not above the scroll offset, and the rows from the scroll
    offset to it take fewer than [renderLimit height - 8] lines. Lines
    count, not rows: expanded rows between the scroll offset and the
    selected row can push the highlight off the screen. *)
Theorem highlight_visibility cs d width height calls :
  0 <= ui.scrollOffset d → ui.Selected cs ≠ ui.Background cs →
  ui.renderProcesses cs d width height = Some calls →
  (∃ c, c ∈ calls ∧ ui.bg (ui.textStyle c) = ui.Selected cs) ↔
  ∃ proc,
    ui.scrollOffset d <= ui.selectedIndex d ∧
    ui.rows d !! Z.to_nat (ui.selectedIndex d) = Some proc ∧
    listingHeight
      (take (Z.to_nat (ui.selectedIndex d - ui.scrollOffset d))
         (drop (Z.to_nat (ui.scrollOffset d)) (ui.rows d)))
      < ui.renderLimit height - 8.
Proof.
  intros Hscroll Hdistinct. unfold ui.renderProcesses.
  destruct (Z.ltb_spec (ui.scrollOffset d) 0); [lia|].
  destruct (renderRows_layout cs (ui.selectedIndex d) width (ui.renderLimit height)
              (drop (Z.to_nat (ui.scrollOffset d)) (ui.rows d)) (ui.scrollOffset d) 8)
    as (calls' & -> & _ & _ & Hrows & Hhigh).
  intros [= <-]. split.
  - intros (c & Hc & Hsel).
    destruct (Hhigh Hdistinct c Hc Hsel) as (k & proc & Hk & Hik & Hbefore).
    exists proc. split; [lia|].
    replace (Z.to_nat (ui.selectedIndex d - ui.scrollOffset d)) with k by lia.
    split; [|done]. rewrite lookup_drop in Hk.
    by replace (Z.to_nat (ui.selectedIndex d)) with (Z.to_nat (ui.scrollOffset d) + k)%nat
      by lia.
  - intros (proc & Hle & Hproc & Hbefore).
    set (k := Z.to_nat (ui.selectedIndex d - ui.scrollOffset d)) in *.
    assert (Z.of_nat k = ui.selectedIndex d - ui.scrollOffset d) as Hkz by (unfold k; lia).
    assert (drop (Z.to_nat (ui.scrollOffset d)) (ui.rows d) !! k = Some proc) as Hk.
    { rewrite lookup_drop.
      by replace (Z.to_nat (ui.scrollOffset d) + k)%nat with (Z.to_nat (ui.selectedIndex d))
        by lia. }
    specialize (Hrows k proc Hk Hbefore).
    destruct (processLine_Some cs (ui.selectedIndex d) width
                (ui.scrollOffset d + Z.of_nat k) proc
                (8 + listingHeight (take k (drop (Z.to_nat (ui.scrollOffset d)) (ui.rows d)))))
      as (c & Hc & _ & _ & Hbg).
    rewrite Hc in Hrows. exists c. split; [by eapply list_elem_of_lookup_2|].
    rewrite Hbg. by destruct (Z.eqb_spec (ui.scrollOffset d + Z.of_nat k) (ui.selectedIndex d));
      [|lia].
Qed.

Lemma highlight_visibility_witness :
  (∃ c, c ∈ default [] (ui.renderProcesses ui.NewColorScheme displayChromeExpanded 80 13) ∧
        ui.bg (ui.textStyle c) = ui.Selected ui.NewColorScheme) ↔
  ∃ proc,
    ui.scrollOffset displayChromeExpanded <= ui.selectedIndex displayChromeExpanded ∧
    ui.rows displayChromeExpanded !! Z.to_nat (ui.selectedIndex displayChromeExpanded)
      = Some proc ∧
    listingHeight
      (take (Z.to_nat (ui.selectedIndex displayChromeExpanded
                       - ui.scrollOffset displayChromeExpanded))
         (drop (Z.to_nat (ui.scrollOffset displayChromeExpanded))
            (ui.rows displayChromeExpanded)))
      < ui.renderLimit 13 - 8.
Proof.
  apply (highlight_visibility ui.NewColorScheme displayChromeExpanded 80 13).
  - vm_compute. discriminate.
  - discriminate.
  - vm_compute. reflexivity.
Defined.

(** X24: the scroll window is enough when nothing above is expanded. If
    the selected row is inside the window of [renderLimit height - 8]
    rows that starts at the scroll offset, as [adjustScrollOffset]
    leaves it, and every row from the scroll offset up to the selected
    one takes a single line, then the selected row is drawn,
    highlighted, on the screen row 8 plus its distance from the scroll
    offset. *)
Theorem highlight_visible_below_collapsed_rows cs d width height proc :
  0 <= ui.scrollOffset d <= ui.selectedIndex d →
  ui.rows d !! Z.to_nat (ui.selectedIndex d) = Some proc →
  ui.selectedIndex d < ui.scrollOffset d + (ui.renderLimit height - 8) →
  (∀ j p, ui.scrollOffset d <= Z.of_nat j < ui.selectedIndex d →
          ui.rows d !! j = Some p → rowHeight p = 1) →
  ∃ calls c,
    ui.renderProcesses cs d width height = Some calls ∧
    calls !! Z.to_nat (ui.selectedIndex d - ui.scrollOffset d) = Some c ∧
    ui.textY c = 8 + (ui.selectedIndex d - ui.scrollOffset d) ∧
    ui.bg (ui.textStyle c) = ui.Selected cs.
Proof.
  intros Hscroll Hproc Hwindow Hcollapsed. unfold ui.renderProcesses.
  destruct (Z.ltb_spec (ui.scrollOffset d) 0); [lia|].
  destruct (renderRows_layout cs (ui.selectedIndex d) width (ui.renderLimit height)
              (drop (Z.to_nat (ui.scrollOffset d)) (ui.rows d)) (ui.scrollOffset d) 8)
    as (calls & -> & _ & _ & Hrows & _).
  set (k := Z.to_nat (ui.selectedIndex d - ui.scrollOffset d)) in *.
  assert (Z.of_nat k = ui.selectedIndex d - ui.scrollOffset d) as Hkz by (unfold k; lia).
  assert (drop (Z.to_nat (ui.scrollOffset d)) (ui.rows d) !! k = Some proc) as Hk.
  { rewrite lookup_drop.
    by replace (Z.to_nat (ui.scrollOffset d) + k)%nat with (Z.to_nat (ui.selectedIndex d))
      by lia. }
  assert (listingHeight (take k (drop (Z.to_nat (ui.scrollOffset d)) (ui.rows d)))
          = Z.of_nat k) as Hheight.
  { rewrite listingHeight_collapsed.
    - rewrite length_take. apply lookup_lt_Some in Hk. lia.
    - intros p (j & Hj)%list_elem_of_lookup_1.
      apply lookup_take_Some in Hj as [Hj Hjk]. rewrite lookup_drop in Hj.
      apply (Hcollapsed (Z.to_nat (ui.scrollOffset d) + j)%nat p); [lia|done]. }
  specialize (Hrows k proc Hk ltac:(lia)). rewrite Hheight in Hrows.
  destruct (processLine_Some cs (ui.selectedIndex d) width
              (ui.scrollOffset d + Z.of_nat k) proc (8 + Z.of_nat k))
    as (c & Hc & _ & Hy & Hbg).
  rewrite Hc in Hrows. exists calls, c. split; [done|].
  replace (Z.to_nat (Z.of_nat k)) with k in Hrows by lia. split; [done|].
  split; [lia|]. rewrite Hbg.
  by destruct (Z.eqb_spec (ui.scrollOffset d + Z.of_nat k) (ui.selectedIndex d)); [|lia].
Qed.

Lemma highlight_visible_below_collapsed_rows_witness :
  ∃ calls c,
    ui.renderProcesses ui.NewColorScheme (ui.MoveCursor terminal 1 displayTwoRows) 80 24
      = Some calls ∧
    calls !! Z.to_nat (ui.selectedIndex (ui.MoveCursor terminal 1 displayTwoRows)
                       - ui.scrollOffset (ui.MoveCursor terminal 1 displayTwoRows))
      = Some c ∧
    ui.textY c = 8 + (ui.selectedIndex (ui.MoveCursor terminal 1 displayTwoRows)
                      - ui.scrollOffset (ui.MoveCursor terminal 1 displayTwoRows)) ∧
    ui.bg (ui.textStyle c) = ui.Selected ui.NewColorScheme.
Proof.
  apply (highlight_visible_below_collapsed_rows ui.NewColorScheme
           (ui.MoveCursor terminal 1 displayTwoRows) 80 24
           (mkProcessInfo 7 0 "low" 10 MB 1 [] false 0 0)).
  - vm_compute. split; discriminate.
  - vm_compute. reflexivity.
  - vm_compute. reflexivity.
  - intros j p Hj Hp. destruct j as [|[|j]]; vm_compute in Hp.
    + by injection Hp as <-.
    + vm_compute in Hj. destruct Hj as [_ Hj]. discriminate.
    + discriminate.
Defined.
